(** * AST-to-IR lowering of the bpftrace code generator
    (src/ast/codegen_llvm.cpp), embedded as functions over an explicit
    generator state, together with a small-step reading of the emitted IR. *)

From Stdlib Require Import ZArith Lia Bool List.
From stdpp Require Import base gmap strings list fin_maps pretty.

Set Warnings "-register-all".

Local Open Scope Z_scope.

(** ** SizedType (types.h: only the parts the lowering inspects) *)

Inductive Type_ :=
| none | integer | pointer | record | string_ | buffer | tuple | timestamp.

Record SizedType := mkSizedType {
  type : Type_;
  size : Z;            (* in bytes *)
  is_signed_ : bool
}.

Definition IsSigned (t : SizedType) : bool := is_signed_ t.
Definition IsIntTy (t : SizedType) : bool :=
  match type t with integer => true | _ => false end.
Definition IsStringTy (t : SizedType) : bool :=
  match type t with string_ => true | _ => false end.
Definition IsBufferTy (t : SizedType) : bool :=
  match type t with buffer => true | _ => false end.
Definition IsRecordTy (t : SizedType) : bool :=
  match type t with record => true | _ => false end.
Definition IsPtrTy (t : SizedType) : bool :=
  match type t with pointer => true | _ => false end.

Definition CreateUInt64 : SizedType := mkSizedType integer 8 false.
Definition CreateInt64 : SizedType := mkSizedType integer 8 true.

(** Modelled from the spec: [needMemcpy] and [shouldBeOnStackAlready] live in
    codegen_helper.h, which is not part of the sources at hand.  The spec says
    that composite values (string/record/tuple/buffer) are memory backed:
    assignments of such values use memcpy and a key of such a type is already
    on the stack. *)
Definition needMemcpy (t : SizedType) : bool :=
  match type t with
  | string_ | buffer | record | tuple | timestamp => true
  | _ => false
  end.
Definition shouldBeOnStackAlready (t : SizedType) : bool :=
  match type t with
  | string_ | buffer | record | tuple | timestamp => true
  | _ => false
  end.

(** ** The IR *)

Inductive Ty := TInt (bits : Z) | TPtr.

Global Instance Ty_eq_dec : EqDecision Ty.
Proof. solve_decision. Defined.

(** What a stack cell was allocated for: an IR type, a struct of IR types,
    a [SizedType] of the script, or a number of bytes. *)
Inductive AllocTy :=
| ATy (t : Ty)
| AStruct (name : string) (elems : list Ty) (packed : bool)
| ASized (t : SizedType)
| ABytes (n : Z).

(** [llvm::Value*]: constants, instruction results, stack cells, arguments. *)
Inductive Value :=
| ConstantInt (bits : Z) (n : Z)
| Inst (id : nat) (ty : Ty)
| AllocaInst (id : nat) (ty : AllocTy)
| Argument (n : nat) (ty : Ty)
| ConstantDataArray (str : string)
| NullValue.

Definition pointee (a : AllocTy) : Ty :=
  match a with
  | ATy t => t
  | ASized t => if IsIntTy t then TInt (8 * size t) else TPtr
  | _ => TPtr
  end.

Definition getType (v : Value) : Ty :=
  match v with
  | ConstantInt b _ => TInt b
  | Inst _ t => t
  | Argument _ t => t
  | AllocaInst _ _ => TPtr
  | ConstantDataArray _ => TPtr
  | NullValue => TPtr
  end.

Inductive BinaryOps := Add | Sub | Mul | UDiv | URem | Shl | LShr | And | Or | Xor.

Inductive Predicate_ :=
| ICMP_EQ | ICMP_NE
| ICMP_ULE | ICMP_UGE | ICMP_ULT | ICMP_UGT
| ICMP_SLE | ICMP_SGE | ICMP_SLT | ICMP_SGT.

(** Helpers of the BPF runtime that produce a 64-bit value from the context. *)
Inductive Helper :=
| get_ns (prefer_boot : bool) | get_pid_tgid | get_uid_gid | get_cpu
| get_current_task | get_cgroup | get_random.

Inductive Instr :=
(* stack cells: CreateAllocaBPF is stack_alloc with its lifetime-start
   marker, CreateAllocaBPFInit additionally zero-initialises the cell *)
| Alloca (id : nat) (name : string) (ty : AllocTy)
| AllocaInit (id : nat) (name : string) (ty : AllocTy)
| LifetimeEnd (p : Value)
| Store (v : Value) (p : Value)
| Load (id : nat) (ty : Ty) (p : Value)
| GEP (id : nat) (p : Value) (idx : list Value)
| Memcpy (dst src : Value) (n : Z)
| Memset (dst : Value) (byte : Value) (n : Z)
| BinaryOp (id : nat) (op : BinaryOps) (a b : Value)
| ICmp (id : nat) (p : Predicate_) (a b : Value) (name : string)
| IntCast (id : nat) (v : Value) (bits : Z) (isSigned : bool)
(* the facade of the runtime helpers *)
| CallHelper (id : nat) (h : Helper)
| MapLookupElem (id : nat) (map : string) (key : Value)
| MapUpdateElem (map : string) (key : Value) (val : Value)
| MapDeleteElem (map : string) (key : Value)
| PerfEventOutput (ctx : Value) (data : Value) (sz : Z)
| Strcmp (id : nat) (val : Value) (literal : string) (inverse : bool)
| Strncmp (id : nat) (l r : Value) (n : Z) (inverse : bool)
(* terminators *)
| Br (dest : nat)
| CondBr (cond : Value) (iftrue iffalse : nat)
| Ret (v : Value).

Definition is_terminator (i : Instr) : bool :=
  match i with Br _ | CondBr _ _ _ | Ret _ => true | _ => false end.

Record BasicBlock := mkBasicBlock {
  bb_name : string;
  bb_instrs : list Instr
}.

Inductive Linkage := ExternalLinkage | InternalLinkage.

Record Function := mkFunction {
  fn_name : string;
  fn_linkage : Linkage;
  fn_params : list Ty;
  fn_section : string;
  fn_always_inline : bool;
  fn_blocks : list BasicBlock
}.

(** A [BasicBlock*]: the index of its function in the module and its index in
    the function's block list. *)
Definition BB : Type := (nat * nat)%type.

(** ** Generator state *)

Record AttachPoint := mkAttachPoint {
  provider : string;
  target : string;
  ns : string;
  func : string;
  usdt_num_locations : Z
}.


(** The IR builder [b_] with the module it writes to.  [next_value] numbers
    instruction results and stack cells (the C++ code identifies them by
    address). *)
Record IRBuilderBPF := mkBuilder {
  module_ : list Function;
  insert_block : BB;
  next_value : nat
}.

(** The per-probe id counters.  [helper_error_id_] is a member of the
    builder in the C++ code; it is kept with the other counters that
    [visit(Probe&)] saves and restores together. *)
Record Ids := mkIds {
  printf_id_ : Z;
  cat_id_ : Z;
  system_id_ : Z;
  time_id_ : Z;
  strftime_id_ : Z;
  join_id_ : Z;
  helper_error_id_ : Z;
  non_map_print_id_ : Z
}.

Record CodegenLLVM := mkCodegen {
  b_ : IRBuilderBPF;
  expr_ : option Value;
  expr_deleter_ : option Value;     (* the cell whose lifetime the hook ends *)
  variables_ : gmap string Value;
  ids_ : Ids;
  next_probe_index_ : gmap string Z;
  probefull_ : string;
  tracepoint_struct_ : string;
  current_usdt_location_index_ : Z;
  ctx_ : Value;
  loops_ : list (BB * BB);
  current_attach_point_ : option AttachPoint
}.

Definition with_b (f : IRBuilderBPF -> IRBuilderBPF) (s : CodegenLLVM) : CodegenLLVM :=
  mkCodegen (f (b_ s)) (expr_ s) (expr_deleter_ s) (variables_ s) (ids_ s)
    (next_probe_index_ s) (probefull_ s)
    (tracepoint_struct_ s) (current_usdt_location_index_ s) (ctx_ s) (loops_ s)
    (current_attach_point_ s).
Definition with_expr (v : option Value) (s : CodegenLLVM) : CodegenLLVM :=
  mkCodegen (b_ s) v (expr_deleter_ s) (variables_ s) (ids_ s)
    (next_probe_index_ s) (probefull_ s)
    (tracepoint_struct_ s) (current_usdt_location_index_ s) (ctx_ s) (loops_ s)
    (current_attach_point_ s).
Definition with_expr_deleter (d : option Value) (s : CodegenLLVM) : CodegenLLVM :=
  mkCodegen (b_ s) (expr_ s) d (variables_ s) (ids_ s)
    (next_probe_index_ s) (probefull_ s)
    (tracepoint_struct_ s) (current_usdt_location_index_ s) (ctx_ s) (loops_ s)
    (current_attach_point_ s).
Definition with_variables (f : gmap string Value -> gmap string Value)
    (s : CodegenLLVM) : CodegenLLVM :=
  mkCodegen (b_ s) (expr_ s) (expr_deleter_ s) (f (variables_ s)) (ids_ s)
    (next_probe_index_ s) (probefull_ s)
    (tracepoint_struct_ s) (current_usdt_location_index_ s) (ctx_ s) (loops_ s)
    (current_attach_point_ s).
Definition with_ids (f : Ids -> Ids) (s : CodegenLLVM) : CodegenLLVM :=
  mkCodegen (b_ s) (expr_ s) (expr_deleter_ s) (variables_ s) (f (ids_ s))
    (next_probe_index_ s) (probefull_ s)
    (tracepoint_struct_ s) (current_usdt_location_index_ s) (ctx_ s) (loops_ s)
    (current_attach_point_ s).
Definition with_next_probe_index (f : gmap string Z -> gmap string Z)
    (s : CodegenLLVM) : CodegenLLVM :=
  mkCodegen (b_ s) (expr_ s) (expr_deleter_ s) (variables_ s) (ids_ s)
    (f (next_probe_index_ s)) (probefull_ s)
    (tracepoint_struct_ s) (current_usdt_location_index_ s) (ctx_ s) (loops_ s)
    (current_attach_point_ s).
Definition with_probefull (p : string) (s : CodegenLLVM) : CodegenLLVM :=
  mkCodegen (b_ s) (expr_ s) (expr_deleter_ s) (variables_ s) (ids_ s)
    (next_probe_index_ s) p
    (tracepoint_struct_ s) (current_usdt_location_index_ s) (ctx_ s) (loops_ s)
    (current_attach_point_ s).
Definition with_tracepoint_struct (p : string) (s : CodegenLLVM) : CodegenLLVM :=
  mkCodegen (b_ s) (expr_ s) (expr_deleter_ s) (variables_ s) (ids_ s)
    (next_probe_index_ s) (probefull_ s)
    p (current_usdt_location_index_ s) (ctx_ s) (loops_ s)
    (current_attach_point_ s).
Definition with_usdt_location_index (n : Z) (s : CodegenLLVM) : CodegenLLVM :=
  mkCodegen (b_ s) (expr_ s) (expr_deleter_ s) (variables_ s) (ids_ s)
    (next_probe_index_ s) (probefull_ s)
    (tracepoint_struct_ s) n (ctx_ s) (loops_ s)
    (current_attach_point_ s).
Definition with_ctx (v : Value) (s : CodegenLLVM) : CodegenLLVM :=
  mkCodegen (b_ s) (expr_ s) (expr_deleter_ s) (variables_ s) (ids_ s)
    (next_probe_index_ s) (probefull_ s)
    (tracepoint_struct_ s) (current_usdt_location_index_ s) v (loops_ s)
    (current_attach_point_ s).
Definition with_loops (f : list (BB * BB) -> list (BB * BB)) (s : CodegenLLVM) : CodegenLLVM :=
  mkCodegen (b_ s) (expr_ s) (expr_deleter_ s) (variables_ s) (ids_ s)
    (next_probe_index_ s) (probefull_ s)
    (tracepoint_struct_ s) (current_usdt_location_index_ s) (ctx_ s) (f (loops_ s))
    (current_attach_point_ s).

Definition with_current_attach_point (a : option AttachPoint) (s : CodegenLLVM) : CodegenLLVM :=
  mkCodegen (b_ s) (expr_ s) (expr_deleter_ s) (variables_ s) (ids_ s)
    (next_probe_index_ s) (probefull_ s)
    (tracepoint_struct_ s) (current_usdt_location_index_ s) (ctx_ s) (loops_ s) a.

(** ** The lowering monad: state plus fatal errors

    [LOG(FATAL)], thrown exceptions and undefined behaviour of the C++ code
    (a null or out-of-range access) all abort code generation. *)

Inductive Res (A : Type) :=
| Ok (a : A)
| Fatal (msg : string).
Arguments Ok {A} a.
Arguments Fatal {A} msg.

Definition M (A : Type) : Type := CodegenLLVM -> Res (A * CodegenLLVM).

Definition ret {A} (a : A) : M A := fun s => Ok (a, s).
Definition bind {A B} (m : M A) (k : A -> M B) : M B :=
  fun s => match m s with
           | Ok (a, s') => k a s'
           | Fatal e => Fatal e
           end.
Definition fatal {A} (msg : string) : M A := fun _ => Fatal msg.
Definition gets {A} (f : CodegenLLVM -> A) : M A := fun s => Ok (f s, s).
Definition modify (f : CodegenLLVM -> CodegenLLVM) : M unit := fun s => Ok (tt, f s).

Declare Scope cg_scope.
Delimit Scope cg_scope with cg.
Notation "x <- m ;; k" := (bind m (fun x => k))
  (at level 100, m at next level, right associativity) : cg_scope.
Notation "m ;;; k" := (bind m (fun _ => k))
  (at level 100, right associativity) : cg_scope.
Local Open Scope cg_scope.

(** ** The IR builder facade

    Every call on the builder is recorded as one instruction at the end of
    the insertion block; the builder performs no constant folding here. *)

Definition set_fn_blocks (f : list BasicBlock -> list BasicBlock) (fn : Function) : Function :=
  mkFunction (fn_name fn) (fn_linkage fn) (fn_params fn) (fn_section fn)
    (fn_always_inline fn) (f (fn_blocks fn)).
Definition set_fn_section (sec : string) (fn : Function) : Function :=
  mkFunction (fn_name fn) (fn_linkage fn) (fn_params fn) sec
    (fn_always_inline fn) (fn_blocks fn).
Definition set_fn_always_inline (fn : Function) : Function :=
  mkFunction (fn_name fn) (fn_linkage fn) (fn_params fn) (fn_section fn)
    true (fn_blocks fn).
Definition push_instr (i : Instr) (bb : BasicBlock) : BasicBlock :=
  mkBasicBlock (bb_name bb) (bb_instrs bb ++ [i]).

Definition set_module (f : list Function -> list Function) (b : IRBuilderBPF) : IRBuilderBPF :=
  mkBuilder (f (module_ b)) (insert_block b) (next_value b).
Definition set_insert_block (bb : BB) (b : IRBuilderBPF) : IRBuilderBPF :=
  mkBuilder (module_ b) bb (next_value b).
Definition set_next_value (n : nat) (b : IRBuilderBPF) : IRBuilderBPF :=
  mkBuilder (module_ b) (insert_block b) n.
Definition set_time_id (n : Z) (i : Ids) : Ids :=
  mkIds (printf_id_ i) (cat_id_ i) (system_id_ i) n (strftime_id_ i) (join_id_ i)
    (helper_error_id_ i) (non_map_print_id_ i).
Definition set_strftime_id (n : Z) (i : Ids) : Ids :=
  mkIds (printf_id_ i) (cat_id_ i) (system_id_ i) (time_id_ i) n (join_id_ i)
    (helper_error_id_ i) (non_map_print_id_ i).

(** Appending instruction [i] to block [l] of function [f], and appending a
    new empty block to function [f]. *)
Definition minsert (f l : nat) (i : Instr) (m : list Function) : list Function :=
  alter (set_fn_blocks (alter (push_instr i) l)) f m.
Definition mnew (f : nat) (name : string) (m : list Function) : list Function :=
  alter (set_fn_blocks (fun bs => bs ++ [mkBasicBlock name []])) f m.

Definition add_instr (i : Instr) (b : IRBuilderBPF) : IRBuilderBPF :=
  set_module (minsert (fst (insert_block b)) (snd (insert_block b)) i) b.

(** The instructions of block [l] of function [f] of a module. *)
Definition block_instrs (m : list Function) (f l : nat) : list Instr :=
  match m !! f with
  | Some fn => match fn_blocks fn !! l with
               | Some bb => bb_instrs bb
               | None => []
               end
  | None => []
  end.
Definition fn_code (fn : Function) (l : nat) : list Instr :=
  match fn_blocks fn !! l with
  | Some bb => bb_instrs bb
  | None => []
  end.
Definition num_blocks (m : list Function) (f : nat) : nat :=
  match m !! f with
  | Some fn => length (fn_blocks fn)
  | None => O
  end.

Definition new_block (name : string) (parent : nat) (b : IRBuilderBPF) : IRBuilderBPF :=
  set_module (mnew parent name) b.
Definition bump (b : IRBuilderBPF) : IRBuilderBPF := set_next_value (S (next_value b)) b.

Definition emit (i : Instr) : M unit := modify (with_b (add_instr i)).
Definition fresh : M nat := fun s => Ok (next_value (b_ s), with_b bump s).

Definition getInt64 (n : Z) : Value := ConstantInt 64 (n mod 2 ^ 64).
Definition getInt32 (n : Z) : Value := ConstantInt 32 (n mod 2 ^ 32).
Definition getInt8 (n : Z) : Value := ConstantInt 8 (n mod 2 ^ 8).
Definition getInt64Ty : Ty := TInt 64.

(** Modelled from the spec: [GetIntSameSize] belongs to the builder facade
    (irbuilderbpf.cpp, not at hand); it yields the constant [c] at the bit
    width of the given type. *)
Definition GetIntSameSize (c : Z) (ty : Ty) : Value :=
  match ty with
  | TInt b => ConstantInt b (c mod 2 ^ b)
  | TPtr => ConstantInt 64 (c mod 2 ^ 64)
  end.

(** Modelled from the spec: [stack_alloc(type, name) -> slot] reserves a
    stack cell and emits its lifetime-start marker. *)
Definition CreateAllocaBPF (ty : AllocTy) (name : string) : M Value :=
  id <- fresh ;; emit (Alloca id name ty) ;;; ret (AllocaInst id ty).
(** Modelled from the spec: the first write of a variable creates a stack
    slot sized to the declared type; [CreateAllocaBPFInit] also initialises
    it. *)
Definition CreateAllocaBPFInit (t : SizedType) (name : string) : M Value :=
  id <- fresh ;; emit (AllocaInit id name (ASized t)) ;;; ret (AllocaInst id (ASized t)).
Definition CreateLifetimeEnd (p : Value) : M unit := emit (LifetimeEnd p).
Definition CreateStore (v p : Value) : M unit := emit (Store v p).
Definition CreateLoad (p : Value) : M Value :=
  id <- fresh ;;
  let ty := match p with AllocaInst _ a => pointee a | _ => TInt 64 end in
  emit (Load id ty p) ;;; ret (Inst id ty).
Definition CreateGEP (p : Value) (idx : list Value) : M Value :=
  id <- fresh ;; emit (GEP id p idx) ;;; ret (Inst id TPtr).
Definition CreateBinOp (op : BinaryOps) (a b : Value) : M Value :=
  id <- fresh ;; emit (BinaryOp id op a b) ;;; ret (Inst id (getType a)).
Definition CreateAdd := CreateBinOp Add.
Definition CreateSub := CreateBinOp Sub.
Definition CreateMul := CreateBinOp Mul.
Definition CreateUDiv := CreateBinOp UDiv.
Definition CreateURem := CreateBinOp URem.
Definition CreateShl := CreateBinOp Shl.
Definition CreateLShr := CreateBinOp LShr.
Definition CreateAnd := CreateBinOp And.
Definition CreateOr := CreateBinOp Or.
Definition CreateXor := CreateBinOp Xor.
Definition CreateICmp (p : Predicate_) (a b : Value) (name : string) : M Value :=
  id <- fresh ;; emit (ICmp id p a b name) ;;; ret (Inst id (TInt 1)).
(** [IRBuilder::CreateIntCast] returns its operand when it already has the
    destination type. *)
Definition CreateIntCast (v : Value) (bits : Z) (isSigned : bool) : M Value :=
  if decide (getType v = TInt bits) then ret v
  else id <- fresh ;; emit (IntCast id v bits isSigned) ;;; ret (Inst id (TInt bits)).
Definition CREATE_MEMCPY (dst src : Value) (n : Z) : M unit := emit (Memcpy dst src n).
Definition CREATE_MEMSET (dst byte : Value) (n : Z) : M unit := emit (Memset dst byte n).

Definition GetInsertBlock : M BB := gets (fun s => insert_block (b_ s)).
Definition SetInsertPoint (bb : BB) : M unit := modify (with_b (set_insert_block bb)).
Definition saveIP : M BB := GetInsertBlock.
Definition restoreIP (ip : BB) : M unit := SetInsertPoint ip.
Definition BasicBlock_Create (name : string) (parent : nat) : M BB :=
  fun s => Ok ((parent, num_blocks (module_ (b_ s)) parent), with_b (new_block name parent) s).
Definition Function_Create (params : list Ty) (lk : Linkage) (name : string) : M nat :=
  fun s =>
    Ok (length (module_ (b_ s)),
        with_b (set_module (fun m => m ++ [mkFunction name lk params "" false []])) s).
Definition setSection (f : nat) (sec : string) : M unit :=
  modify (with_b (set_module (alter (set_fn_section sec) f))).
Definition addFnAttr_AlwaysInline (f : nat) : M unit :=
  modify (with_b (set_module (alter set_fn_always_inline f))).
Definition CreateBr (dest : BB) : M unit := emit (Br (snd dest)).
Definition CreateCondBr (c : Value) (t f : BB) : M unit := emit (CondBr c (snd t) (snd f)).
Definition CreateRet (v : Value) : M unit := emit (Ret v).

Definition CreateHelperCall (h : Helper) : M Value :=
  id <- fresh ;; emit (CallHelper id h) ;;; ret (Inst id (TInt 64)).
(** Modelled from the spec: [map_lookup(map, key, loc)]; the result is a
    register value for integers and a stack pointer for composite values; a
    miss reads as zero. *)
Definition CreateMapLookupElem (ident : string) (ty : SizedType) (key : Value) : M Value :=
  if needMemcpy ty then
    v <- CreateAllocaBPF (ASized ty) "lookup_elem_val" ;;
    id <- fresh ;;
    emit (MapLookupElem id ident key) ;;;
    emit (Memcpy v (Inst id TPtr) (size ty)) ;;;
    ret v
  else
    id <- fresh ;; emit (MapLookupElem id ident key) ;;; ret (Inst id (TInt 64)).
(** Modelled from the spec: [map_update(map, key, value_slot, loc)],
    [map_delete(map, key, loc)] and [perf_event_output(ctx, buf, size)]. *)
Definition CreateMapUpdateElem (ident : string) (key val : Value) : M unit :=
  emit (MapUpdateElem ident key val).
Definition CreateMapDeleteElem (ident : string) (key : Value) : M unit :=
  emit (MapDeleteElem ident key).
Definition CreatePerfEventOutput (ctx data : Value) (sz : Z) : M unit :=
  emit (PerfEventOutput ctx data sz).
(** Modelled from the spec: [strcmp]/[strncmp] of the facade emit an inlined
    bounded comparison; it is kept as one instruction here. *)
Definition CreateStrcmp (val : Value) (literal : string) (inverse : bool) : M Value :=
  id <- fresh ;; emit (Strcmp id val literal inverse) ;;; ret (Inst id (TInt 1)).
Definition CreateStrncmp (l r : Value) (n : Z) (inverse : bool) : M Value :=
  id <- fresh ;; emit (Strncmp id l r n inverse) ;;; ret (Inst id (TInt 1)).

(** ** Reading the IR: a machine for one invocation of a program *)

Inductive RVal :=
| RInt (bits : Z) (n : Z)          (* 0 <= n < 2^bits *)
| RPtr (cell : nat) (field : Z).

Inductive Effect :=
| EffMapUpdate (map : string) (key : option RVal) (val : option RVal)
| EffMapDelete (map : string) (key : option RVal)
| EffPerfEvent (record : list (option RVal)).

Record Machine := mkMachine {
  regs : nat -> option RVal;
  fargs : nat -> option RVal;
  mem : nat -> Z -> option RVal;       (* cell, field *)
  helper_result : nat -> Z;            (* what the helper called by instruction id yields *)
  effects : list Effect
}.

Definition upd {A} (f : nat -> A) (k : nat) (v : A) : nat -> A :=
  fun k' => if Nat.eqb k k' then v else f k'.
Definition upd_mem (f : nat -> Z -> option RVal) (c : nat) (k : Z) (v : option RVal)
  : nat -> Z -> option RVal :=
  fun c' k' => if Nat.eqb c c' && Z.eqb k k' then v else f c' k'.
(** Replacing the whole content of cell [c]. *)
Definition upd_cell (f : nat -> Z -> option RVal) (c : nat) (g : Z -> option RVal)
  : nat -> Z -> option RVal :=
  fun c' k' => if Nat.eqb c c' then g k' else f c' k'.

Definition set_reg (id : nat) (v : RVal) (m : Machine) : Machine :=
  mkMachine (upd (regs m) id (Some v)) (fargs m) (mem m) (helper_result m) (effects m).
Definition set_mem (f : nat -> Z -> option RVal) (m : Machine) : Machine :=
  mkMachine (regs m) (fargs m) f (helper_result m) (effects m).
Definition add_effect (e : Effect) (m : Machine) : Machine :=
  mkMachine (regs m) (fargs m) (mem m) (helper_result m) (effects m ++ [e]).

Definition eval (m : Machine) (v : Value) : option RVal :=
  match v with
  | ConstantInt b n => Some (RInt b n)
  | Inst id _ => regs m id
  | AllocaInst id _ => Some (RPtr id 0)
  | Argument n _ => fargs m n
  | ConstantDataArray _ => None
  | NullValue => None
  end.

Definition to_signed (bits n : Z) : Z :=
  if n <? 2 ^ (bits - 1) then n else n - 2 ^ bits.

Definition eval_binop (op : BinaryOps) (bits a b : Z) : option Z :=
  match op with
  | Add => Some ((a + b) mod 2 ^ bits)
  | Sub => Some ((a - b) mod 2 ^ bits)
  | Mul => Some ((a * b) mod 2 ^ bits)
  | UDiv => if b =? 0 then None else Some (a / b)
  | URem => if b =? 0 then None else Some (a mod b)
  | Shl => if b <? bits then Some ((a * 2 ^ b) mod 2 ^ bits) else None
  | LShr => if b <? bits then Some (a / 2 ^ b) else None
  | And => Some (Z.land a b)
  | Or => Some (Z.lor a b)
  | Xor => Some (Z.lxor a b)
  end.

Definition eval_icmp (p : Predicate_) (bits a b : Z) : bool :=
  match p with
  | ICMP_EQ => a =? b
  | ICMP_NE => negb (a =? b)
  | ICMP_ULE => a <=? b
  | ICMP_UGE => b <=? a
  | ICMP_ULT => a <? b
  | ICMP_UGT => b <? a
  | ICMP_SLE => to_signed bits a <=? to_signed bits b
  | ICMP_SGE => to_signed bits b <=? to_signed bits a
  | ICMP_SLT => to_signed bits a <? to_signed bits b
  | ICMP_SGT => to_signed bits b <? to_signed bits a
  end.

Definition eval_intcast (from to n : Z) (isSigned : bool) : Z :=
  if to <? from then n mod 2 ^ to
  else if isSigned then (to_signed from n) mod 2 ^ to
  else n.

Definition deref (m : Machine) (p : Value) : option RVal :=
  match eval m p with
  | Some (RPtr c f) => mem m c f
  | _ => None
  end.

Definition gep_offset (idx : list Value) : option Z :=
  match idx with
  | [ConstantInt _ 0; ConstantInt _ k] => Some k
  | [ConstantInt _ k] => Some k
  | _ => None
  end.

(** One non-terminator instruction. *)
Definition exec (i : Instr) (m : Machine) : option Machine :=
  match i with
  | Alloca id _ _ => Some (set_mem (upd_cell (mem m) id (fun _ => None)) m)
  | AllocaInit id _ ty =>
      Some (set_mem (upd_cell (mem m) id
                       (fun _ => match pointee ty with
                                 | TInt b => Some (RInt b 0)
                                 | TPtr => Some (RInt 8 0)
                                 end)) m)
  | LifetimeEnd p =>
      match eval m p with
      | Some (RPtr c _) => Some (set_mem (upd_cell (mem m) c (fun _ => None)) m)
      | _ => None
      end
  | Store v p =>
      match eval m v, eval m p with
      | Some x, Some (RPtr c f) => Some (set_mem (upd_mem (mem m) c f (Some x)) m)
      | _, _ => None
      end
  | Load id _ p =>
      match deref m p with
      | Some x => Some (set_reg id x m)
      | None => None
      end
  | GEP id p idx =>
      match eval m p, gep_offset idx with
      | Some (RPtr c f), Some k => Some (set_reg id (RPtr c (f + k)) m)
      | _, _ => None
      end
  | Memcpy dst src _ =>
      match eval m dst, eval m src with
      | Some (RPtr d _), Some (RPtr s _) => Some (set_mem (upd_cell (mem m) d (mem m s)) m)
      | _, _ => None
      end
  | Memset dst byte _ =>
      match eval m dst, eval m byte with
      | Some (RPtr d _), Some x => Some (set_mem (upd_cell (mem m) d (fun _ => Some x)) m)
      | _, _ => None
      end
  | BinaryOp id op a b =>
      match eval m a, eval m b with
      | Some (RInt bits x), Some (RInt _ y) =>
          match eval_binop op bits x y with
          | Some z => Some (set_reg id (RInt bits z) m)
          | None => None
          end
      | _, _ => None
      end
  | ICmp id p a b _ =>
      match eval m a, eval m b with
      | Some (RInt bits x), Some (RInt _ y) =>
          Some (set_reg id (RInt 1 (if eval_icmp p bits x y then 1 else 0)) m)
      | _, _ => None
      end
  | IntCast id v bits sg =>
      match eval m v with
      | Some (RInt from x) => Some (set_reg id (RInt bits (eval_intcast from bits x sg)) m)
      | _ => None
      end
  | CallHelper id _ => Some (set_reg id (RInt 64 (helper_result m id mod 2 ^ 64)) m)
  | MapLookupElem id _ _ => Some (set_reg id (RInt 64 (helper_result m id mod 2 ^ 64)) m)
  | MapUpdateElem map key val => Some (add_effect (EffMapUpdate map (deref m key) (deref m val)) m)
  | MapDeleteElem map key => Some (add_effect (EffMapDelete map (deref m key)) m)
  | PerfEventOutput _ data sz =>
      match eval m data with
      | Some (RPtr c f) =>
          Some (add_effect
                  (EffPerfEvent (map (fun k => mem m c (f + Z.of_nat k)) (seq 0 (Z.to_nat (sz / 8))))) m)
      | _ => None
      end
  | Strcmp id _ _ _ => Some (set_reg id (RInt 1 (helper_result m id mod 2)) m)
  | Strncmp id _ _ _ _ => Some (set_reg id (RInt 1 (helper_result m id mod 2)) m)
  | Br _ | CondBr _ _ _ | Ret _ => None
  end.

Inductive Outcome :=
| Running (pc : nat * nat) (m : Machine)
| Returned (v : RVal) (m : Machine)
| Stuck.

Definition step (code : nat -> list Instr) (pc : nat * nat) (m : Machine) : Outcome :=
  match code (fst pc) !! snd pc with
  | None => Stuck
  | Some (Br l) => Running (l, O) m
  | Some (CondBr c t f) =>
      match eval m c with
      | Some (RInt _ n) => Running (if n =? 0 then f else t, O) m
      | _ => Stuck
      end
  | Some (Ret v) =>
      match eval m v with
      | Some x => Returned x m
      | None => Stuck
      end
  | Some i =>
      match exec i m with
      | Some m' => Running (fst pc, S (snd pc)) m'
      | None => Stuck
      end
  end.

(** [run n] takes at most [n] steps and also reports the positions that were
    executed, in order. *)
Fixpoint run (fuel : nat) (code : nat -> list Instr) (pc : nat * nat) (m : Machine)
  : list (nat * nat) * Outcome :=
  match fuel with
  | O => ([], Running pc m)
  | S n =>
      match step code pc m with
      | Running pc' m' => let '(p, o) := run n code pc' m' in (pc :: p, o)
      | o => ([pc], o)
      end
  end.

(** ** The AST (ast.h: the node kinds lowered below) *)

(** Tokens of binary operators and of jumps (parser.tab.hh). *)
Inductive token :=
| EQ | NE | LE | GE | LT | GT | LAND | LOR | LEFT | RIGHT
| PLUS | MINUS | MUL | DIV | MOD | BAND | BOR | BXOR.
Inductive jump_token := RETURN | BREAK | CONTINUE.

Inductive Expression :=
| Integer (n : Z) (ty : SizedType)
| String (str : string) (ty : SizedType)
| Builtin (ident : string) (ty : SizedType)
| Variable_ (ident : string) (ty : SizedType)
| MapExpr (m : Map)
| Binop (left : Expression) (op : token) (right : Expression) (ty : SizedType)
| Call (func : string) (map : option Map) (vargs : list Expression) (ty : SizedType)
with Map :=
| mkMap (ident : string) (vargs : option (list Expression)) (ty : SizedType).

Inductive Statement :=
| ExprStatement (e : Expression)
| AssignMapStatement (map : Map) (e : Expression)
| AssignVarStatement (var_ident : string) (var_ty : SizedType) (e : Expression)
| If (cond : Expression) (stmts : list Statement) (else_stmts : option (list Statement))
| Unroll (var : Z) (stmts : list Statement)
| Jump (ident : jump_token)
| While (cond : Expression) (stmts : list Statement).

Definition map_ident (m : Map) : string := match m with mkMap i _ _ => i end.
Definition map_vargs (m : Map) : option (list Expression) := match m with mkMap _ v _ => v end.
Definition map_type (m : Map) : SizedType := match m with mkMap _ _ t => t end.

(** The [type] member of an expression node. *)
Definition expr_type (e : Expression) : SizedType :=
  match e with
  | Integer _ t | String _ t | Builtin _ t | Variable_ _ t
  | Binop _ _ _ t | Call _ _ _ t => t
  | MapExpr m => map_type m
  end.
(** The [is_literal] member: set by the parser on integer and string nodes. *)
Definition is_literal (e : Expression) : bool :=
  match e with Integer _ _ | String _ _ => true | _ => false end.

Record Probe := mkProbe {
  attach_points : list AttachPoint;
  pred : option Expression;
  stmts : list Statement;
  need_expansion : bool
}.

Inductive ProbeType := PT_invalid | PT_kprobe | PT_uprobe | PT_uretprobe
                     | PT_usdt | PT_tracepoint | PT_other.
Inductive AsyncAction := AA_printf | AA_syscall | AA_cat | AA_exit | AA_print
                       | AA_clear | AA_zero | AA_time | AA_join
                       | AA_helper_error | AA_print_non_map.

(** ** External collaborators

    Functions and tables of the repository that the generator calls and that
    are not part of the file at hand (resolvers, AST accessors, the
    enumeration of async actions, the layouts of async events). *)
Record BPFtrace := mkBPFtrace {
  has_helper_ktime_get_boot_ns : bool;
  asyncactionint : AsyncAction -> Z;
  Time_asLLVMType : list Ty;
  Strftime_asLLVMType : list Ty;
  pid : Z;
  find_wildcard_matches : AttachPoint -> list string;
  USDTHelper_find : Z -> string -> string -> string -> option Z;
  probetype : string -> ProbeType;
  erase_prefix : string -> string * string;    (* (erased prefix, rest) *)
  AttachPoint_name : AttachPoint -> string -> string;
  AttachPoint_name2 : AttachPoint -> string -> string -> string;
  Probe_name : Probe -> string;
  get_struct_name : string -> string
}.

(** ** Lowering of expressions *)

Definition set_expr (v : option Value) : M unit := modify (with_expr v).
(** Reading [expr_] for use as an operand; a null operand is a crash. *)
Definition get_expr : M Value :=
  fun s => match expr_ s with
           | Some v => Ok (v, s)
           | None => Fatal "null expr_ used as an operand"
           end.
Definition getParent : M nat := gets (fun s => fst (insert_block (b_ s))).

(** [ScopedExprDeleter]: what [accept] hands back, and its destructor. *)
Definition ScopedExprDeleter : Type := option Value.
Definition scope_exit (d : ScopedExprDeleter) : M unit :=
  match d with
  | Some v => CreateLifetimeEnd v
  | None => ret tt
  end.
(** [accept(node)], given the visit of the node. *)
Definition accept (visit_node : M unit) : M ScopedExprDeleter :=
  modify (with_expr_deleter None) ;;;
  visit_node ;;;
  deleter <- gets expr_deleter_ ;;
  modify (with_expr_deleter None) ;;;
  ret deleter.

(** [variables_[ident]]: [std::map::operator[]] inserts a null entry when the
    key is absent. *)
Definition variables_at (ident : string) : M Value :=
  fun s => match variables_ s !! ident with
           | Some v => Ok (v, s)
           | None => Ok (NullValue, with_variables (insert ident NullValue) s)
           end.

Definition front {A} (l : list A) : M A :=
  match l with
  | x :: _ => ret x
  | [] => fatal "front() of an empty vargs"
  end.
Definition at_ {A} (l : list A) (i : nat) : M A :=
  match l !! i with
  | Some x => ret x
  | None => fatal "std::out_of_range"
  end.
Definition deref_map (m : option Map) : M Map :=
  match m with
  | Some x => ret x
  | None => fatal "null call.map"
  end.

Definition getStructSize (elems : list Ty) : Z :=
  fold_right (fun t acc => match t with TInt b => b / 8 | TPtr => 8 end + acc) 0 elems.

Definition resize (n : nat) (s : string) : string :=
  let fix pad (k : nat) : string :=
    match k with O => EmptyString | S k' => String.String Ascii.zero (pad k') end in
  let fix go (k : nat) (s : string) : string :=
    match k, s with
    | O, _ => EmptyString
    | S k', EmptyString => pad k
    | S k', String.String c r => String.String c (go k' r)
    end in
  go n s.

Definition forM {A} (f : A -> M unit) : list A -> M unit :=
  fix go (l : list A) : M unit :=
    match l with
    | [] => ret tt
    | x :: r => f x ;;; go r
    end.

(** [createLogicalAnd] and [createLogicalOr], given the visitor of
    expressions ([accept] dispatches back into [visit]). *)
Definition createLogicalAnd (visit : Expression -> M unit) (left_ right_ : Expression)
  : M Value :=
  (if IsIntTy (expr_type left_) && IsIntTy (expr_type right_) then ret tt
   else fatal "assert(type.IsIntTy())") ;;;
  parent <- getParent ;;
  lhs_true_block <- BasicBlock_Create "&&_lhs_true" parent ;;
  true_block <- BasicBlock_Create "&&_true" parent ;;
  false_block <- BasicBlock_Create "&&_false" parent ;;
  merge_block <- BasicBlock_Create "&&_merge" parent ;;
  result <- CreateAllocaBPF (ATy getInt64Ty) "&&_result" ;;
  scoped_del_left <- accept (visit left_) ;;
  lhs <- get_expr ;;
  c <- CreateICmp ICMP_NE lhs (GetIntSameSize 0 (getType lhs)) "lhs_true_cond" ;;
  CreateCondBr c lhs_true_block false_block ;;;
  SetInsertPoint lhs_true_block ;;;
  scoped_del_right <- accept (visit right_) ;;
  rhs <- get_expr ;;
  c <- CreateICmp ICMP_NE rhs (GetIntSameSize 0 (getType rhs)) "rhs_true_cond" ;;
  CreateCondBr c true_block false_block ;;;
  SetInsertPoint true_block ;;;
  CreateStore (getInt64 1) result ;;;
  CreateBr merge_block ;;;
  SetInsertPoint false_block ;;;
  CreateStore (getInt64 0) result ;;;
  CreateBr merge_block ;;;
  SetInsertPoint merge_block ;;;
  v <- CreateLoad result ;;
  scope_exit scoped_del_right ;;;
  scope_exit scoped_del_left ;;;
  ret v.

Definition createLogicalOr (visit : Expression -> M unit) (left_ right_ : Expression)
  : M Value :=
  (if IsIntTy (expr_type left_) && IsIntTy (expr_type right_) then ret tt
   else fatal "assert(type.IsIntTy())") ;;;
  parent <- getParent ;;
  lhs_false_block <- BasicBlock_Create "||_lhs_false" parent ;;
  false_block <- BasicBlock_Create "||_false" parent ;;
  true_block <- BasicBlock_Create "||_true" parent ;;
  merge_block <- BasicBlock_Create "||_merge" parent ;;
  result <- CreateAllocaBPF (ATy getInt64Ty) "||_result" ;;
  scoped_del_left <- accept (visit left_) ;;
  lhs <- get_expr ;;
  c <- CreateICmp ICMP_NE lhs (GetIntSameSize 0 (getType lhs)) "lhs_true_cond" ;;
  CreateCondBr c true_block lhs_false_block ;;;
  SetInsertPoint lhs_false_block ;;;
  scoped_del_right <- accept (visit right_) ;;
  rhs <- get_expr ;;
  c <- CreateICmp ICMP_NE rhs (GetIntSameSize 0 (getType rhs)) "rhs_true_cond" ;;
  CreateCondBr c true_block false_block ;;;
  SetInsertPoint false_block ;;;
  CreateStore (getInt64 0) result ;;;
  CreateBr merge_block ;;;
  SetInsertPoint true_block ;;;
  CreateStore (getInt64 1) result ;;;
  CreateBr merge_block ;;;
  SetInsertPoint merge_block ;;;
  v <- CreateLoad result ;;
  scope_exit scoped_del_right ;;;
  scope_exit scoped_del_left ;;;
  ret v.

Definition token_eqb (a b : token) : bool :=
  match a, b with
  | EQ, EQ | NE, NE | LE, LE | GE, GE | LT, LT | GT, GT | LAND, LAND | LOR, LOR
  | LEFT, LEFT | RIGHT, RIGHT | PLUS, PLUS | MINUS, MINUS | MUL, MUL | DIV, DIV
  | MOD, MOD | BAND, BAND | BOR, BOR | BXOR, BXOR => true
  | _, _ => false
  end.

(** The [switch (binop.op)] of [visit(Binop&)] on promoted integer operands. *)
Definition binop_int (op : token) (do_signed : bool) (lhs rhs : Value) : M Value :=
  match op with
  | EQ => CreateICmp ICMP_EQ lhs rhs ""
  | NE => CreateICmp ICMP_NE lhs rhs ""
  | LE => CreateICmp (if do_signed then ICMP_SLE else ICMP_ULE) lhs rhs ""
  | GE => CreateICmp (if do_signed then ICMP_SGE else ICMP_UGE) lhs rhs ""
  | LT => CreateICmp (if do_signed then ICMP_SLT else ICMP_ULT) lhs rhs ""
  | GT => CreateICmp (if do_signed then ICMP_SGT else ICMP_UGT) lhs rhs ""
  | LEFT => CreateShl lhs rhs
  | RIGHT => CreateLShr lhs rhs
  | PLUS => CreateAdd lhs rhs
  | MINUS => CreateSub lhs rhs
  | MUL => CreateMul lhs rhs
  | DIV => CreateUDiv lhs rhs
  | MOD => CreateURem lhs rhs
  | BAND => CreateAnd lhs rhs
  | BOR => CreateOr lhs rhs
  | BXOR => CreateXor lhs rhs
  | LAND | LOR => fatal "was handled earlier"
  end.

(** The loop of [getMapKey] over the values of a composite key, given the
    visitor of expressions; [offset] is the running byte offset into [key]. *)
Definition getMapKey_loop (visit : Expression -> M unit) (key : Value)
  : list Expression -> Z -> M unit :=
  fix loop (es : list Expression) (offset : Z) {struct es} : M unit :=
    match es with
    | [] => ret tt
    | expr :: es' =>
        scoped_del <- accept (visit expr) ;;
        offset_val <- CreateGEP key [getInt64 0; getInt64 offset] ;;
        e <- get_expr ;;
        (if shouldBeOnStackAlready (expr_type expr) then
           CREATE_MEMCPY offset_val e (size (expr_type expr))
         else
           (* promote map key to 64-bit *)
           v <- CreateIntCast e 64 (IsSigned (expr_type expr)) ;;
           CreateStore v offset_val) ;;;
        scope_exit scoped_del ;;;
        loop es' (offset + size (expr_type expr))
    end.

Section Lowering.
Variable bpftrace_ : BPFtrace.

Fixpoint visit (e : Expression) {struct e} : M unit :=
  match e with
  | Integer n _ => set_expr (Some (getInt64 n))
  | String str ty =>
      (* string.str.resize(string.type.size-1): the size is unsigned, so a
         size of 0 asks for the largest length and resize throws *)
      if size ty <=? 0 then fatal "std::length_error in resize" else
      let str' := resize (Z.to_nat (size ty - 1)) str in
      buf <- CreateAllocaBPF (ASized ty) "str" ;;
      CreateStore (ConstantDataArray str') buf ;;;
      set_expr (Some buf) ;;;
      modify (with_expr_deleter (Some buf))
  | Builtin ident _ =>
      if String.eqb ident "nsecs" then
        v <- CreateHelperCall (get_ns (has_helper_ktime_get_boot_ns bpftrace_)) ;;
        set_expr (Some v)
      else if String.eqb ident "pid" || String.eqb ident "tid" then
        pidtgid <- CreateHelperCall get_pid_tgid ;;
        if String.eqb ident "pid" then
          v <- CreateLShr pidtgid (getInt64 32) ;; set_expr (Some v)
        else
          v <- CreateAnd pidtgid (getInt64 4294967295) ;; set_expr (Some v)
      else if String.eqb ident "cgroup" then
        v <- CreateHelperCall get_cgroup ;; set_expr (Some v)
      else if String.eqb ident "uid" || String.eqb ident "gid" || String.eqb ident "username" then
        uidgid <- CreateHelperCall get_uid_gid ;;
        if String.eqb ident "uid" || String.eqb ident "username" then
          v <- CreateAnd uidgid (getInt64 4294967295) ;; set_expr (Some v)
        else
          v <- CreateLShr uidgid (getInt64 32) ;; set_expr (Some v)
      else if String.eqb ident "cpu" then
        v <- CreateHelperCall get_cpu ;; set_expr (Some v)
      else if String.eqb ident "curtask" then
        v <- CreateHelperCall get_current_task ;; set_expr (Some v)
      else if String.eqb ident "rand" then
        v <- CreateHelperCall get_random ;; set_expr (Some v)
      else
        fatal "builtin that is unknown or not covered by this development"
  | Variable_ ident ty =>
      if needMemcpy ty then
        v <- variables_at ident ;; set_expr (Some v)
      else
        p <- variables_at ident ;;
        v <- CreateLoad p ;; set_expr (Some v)
  | MapExpr m =>
      key <- getMapKey m ;;
      value <- CreateMapLookupElem (map_ident m) (map_type m) key ;;
      set_expr (Some value) ;;;
      (match value with
       | AllocaInst _ _ => modify (with_expr_deleter (Some value))
       | _ => ret tt
       end) ;;;
      CreateLifetimeEnd key
  | Binop left_ op right_ _ =>
      (* Handle && and || separately so short circuiting works *)
      if token_eqb op LAND then
        v <- createLogicalAnd visit left_ right_ ;; set_expr (Some v)
      else if token_eqb op LOR then
        v <- createLogicalOr visit left_ right_ ;; set_expr (Some v)
      else
          let type := expr_type left_ in
          (if IsStringTy type then
             (match op with
              | EQ | NE => ret tt
              | _ => fatal "missing codegen to string operator"
              end) ;;;
             let inverse := match op with EQ => true | _ => false end in
             if is_literal right_ then
               scoped_del <- accept (visit left_) ;;
               match right_ with
               | String string_literal _ =>
                   v <- get_expr ;;
                   r <- CreateStrcmp v string_literal inverse ;;
                   set_expr (Some r) ;;;
                   scope_exit scoped_del
               | _ => fatal "static_cast<String*> of a node that is no string"
               end
             else if is_literal left_ then
               scoped_del <- accept (visit right_) ;;
               match left_ with
               | String string_literal _ =>
                   v <- get_expr ;;
                   r <- CreateStrcmp v string_literal inverse ;;
                   set_expr (Some r) ;;;
                   scope_exit scoped_del
               | _ => fatal "static_cast<String*> of a node that is no string"
               end
             else
               scoped_del_right <- accept (visit right_) ;;
               right_string <- get_expr ;;
               scoped_del_left <- accept (visit left_) ;;
               left_string <- get_expr ;;
               let len := Z.min (size (expr_type left_)) (size (expr_type right_)) in
               r <- CreateStrncmp left_string right_string (len + 1) inverse ;;
               set_expr (Some r) ;;;
               scope_exit scoped_del_left ;;;
               scope_exit scoped_del_right
           else if IsBufferTy type then
             (match op with
              | EQ | NE => ret tt
              | _ => fatal "missing codegen to buffer operator"
              end) ;;;
             let inverse := match op with EQ => true | _ => false end in
             scoped_del_right <- accept (visit right_) ;;
             right_string <- get_expr ;;
             scoped_del_left <- accept (visit left_) ;;
             left_string <- get_expr ;;
             let len := Z.min (size (expr_type left_)) (size (expr_type right_)) in
             r <- CreateStrncmp left_string right_string len inverse ;;
             set_expr (Some r) ;;;
             scope_exit scoped_del_left ;;;
             scope_exit scoped_del_right
           else
             scoped_del_left <- accept (visit left_) ;;
             lhs <- get_expr ;;
             scoped_del_right <- accept (visit right_) ;;
             rhs <- get_expr ;;
             let lsign := IsSigned (expr_type left_) in
             let rsign := IsSigned (expr_type right_) in
             let do_signed := lsign && rsign in
             (* promote int to 64-bit *)
             lhs <- CreateIntCast lhs 64 lsign ;;
             rhs <- CreateIntCast rhs 64 rsign ;;
             r <- binop_int op do_signed lhs rhs ;;
             set_expr (Some r) ;;;
             scope_exit scoped_del_right ;;;
             scope_exit scoped_del_left) ;;;
          (* Using signed extension will result in -1 which will likely confuse users *)
          v <- get_expr ;;
          r <- CreateIntCast v 64 false ;;
          set_expr (Some r)
  | Call func map vargs _ =>
      if String.eqb func "count" then
        match map with
        | None => fatal "null call.map"
        | Some map =>
        key <- getMapKey map ;;
        oldval <- CreateMapLookupElem (map_ident map) (map_type map) key ;;
        newval <- CreateAllocaBPF (ASized (map_type map)) (map_ident map +:+ "_val") ;;
        v <- CreateAdd oldval (getInt64 1) ;;
        CreateStore v newval ;;;
        CreateMapUpdateElem (map_ident map) key newval ;;;
        CreateLifetimeEnd key ;;;
        CreateLifetimeEnd newval ;;;
        set_expr None
        end
      else if String.eqb func "sum" then
        match map with
        | None => fatal "null call.map"
        | Some map =>
        key <- getMapKey map ;;
        oldval <- CreateMapLookupElem (map_ident map) (map_type map) key ;;
        newval <- CreateAllocaBPF (ASized (map_type map)) (map_ident map +:+ "_val") ;;
        match vargs with
        | [] => fatal "front() of an empty vargs"
        | arg :: _ =>
            scoped_del <- accept (visit arg) ;;
            (* promote int to 64-bit *)
            e <- get_expr ;;
            e <- CreateIntCast e 64 (IsSigned (expr_type arg)) ;;
            set_expr (Some e) ;;;
            v <- CreateAdd e oldval ;;
            CreateStore v newval ;;;
            CreateMapUpdateElem (map_ident map) key newval ;;;
            CreateLifetimeEnd key ;;;
            CreateLifetimeEnd newval ;;;
            set_expr None ;;;
            scope_exit scoped_del
        end
        end
      else if String.eqb func "min" then
        match map with
        | None => fatal "null call.map"
        | Some map =>
        key <- getMapKey map ;;
        oldval <- CreateMapLookupElem (map_ident map) (map_type map) key ;;
        newval <- CreateAllocaBPF (ASized (map_type map)) (map_ident map +:+ "_val") ;;
        parent <- getParent ;;
        match vargs with
        | [] => fatal "front() of an empty vargs"
        | arg :: _ =>
            scoped_del <- accept (visit arg) ;;
            (* promote int to 64-bit *)
            e <- get_expr ;;
            e <- CreateIntCast e 64 (IsSigned (expr_type arg)) ;;
            set_expr (Some e) ;;;
            inverted <- CreateSub (getInt64 4294967295) e ;;
            lt <- BasicBlock_Create "min.lt" parent ;;
            ge <- BasicBlock_Create "min.ge" parent ;;
            c <- CreateICmp ICMP_SGE inverted oldval "" ;;
            CreateCondBr c ge lt ;;;
            SetInsertPoint ge ;;;
            CreateStore inverted newval ;;;
            CreateMapUpdateElem (map_ident map) key newval ;;;
            CreateBr lt ;;;
            SetInsertPoint lt ;;;
            CreateLifetimeEnd key ;;;
            CreateLifetimeEnd newval ;;;
            set_expr None ;;;
            scope_exit scoped_del
        end
        end
      else if String.eqb func "max" then
        match map with
        | None => fatal "null call.map"
        | Some map =>
        key <- getMapKey map ;;
        oldval <- CreateMapLookupElem (map_ident map) (map_type map) key ;;
        newval <- CreateAllocaBPF (ASized (map_type map)) (map_ident map +:+ "_val") ;;
        parent <- getParent ;;
        match vargs with
        | [] => fatal "front() of an empty vargs"
        | arg :: _ =>
            scoped_del <- accept (visit arg) ;;
            (* promote int to 64-bit *)
            e <- get_expr ;;
            e <- CreateIntCast e 64 (IsSigned (expr_type arg)) ;;
            set_expr (Some e) ;;;
            lt <- BasicBlock_Create "min.lt" parent ;;
            ge <- BasicBlock_Create "min.ge" parent ;;
            c <- CreateICmp ICMP_SGE e oldval "" ;;
            CreateCondBr c ge lt ;;;
            SetInsertPoint ge ;;;
            CreateStore e newval ;;;
            CreateMapUpdateElem (map_ident map) key newval ;;;
            CreateBr lt ;;;
            SetInsertPoint lt ;;;
            CreateLifetimeEnd key ;;;
            CreateLifetimeEnd newval ;;;
            set_expr None ;;;
            scope_exit scoped_del
        end
        end
      else if String.eqb func "exit" then
        perfdata <- CreateAllocaBPF (ATy getInt64Ty) "perfdata" ;;
        CreateStore (getInt64 (asyncactionint bpftrace_ AA_exit)) perfdata ;;;
        ctx <- gets ctx_ ;;
        CreatePerfEventOutput ctx perfdata 8 ;;;
        CreateLifetimeEnd perfdata ;;;
        set_expr None ;;;
        CreateRet (ConstantInt 64 0) ;;;
        (* create an unreachable basic block for all the "dead instructions"
           that may come after exit() *)
        parent <- getParent ;;
        deadcode <- BasicBlock_Create "deadcode" parent ;;
        SetInsertPoint deadcode
      else if String.eqb func "time" then
        let elements := Time_asLLVMType bpftrace_ in
        buf <- CreateAllocaBPF (AStruct (func +:+ "_t") elements true) (func +:+ "_t") ;;
        e0 <- at_ elements 0 ;;
        p0 <- CreateGEP buf [getInt64 0; getInt32 0] ;;
        CreateStore (GetIntSameSize (asyncactionint bpftrace_ AA_time) e0) p0 ;;;
        e1 <- at_ elements 1 ;;
        time_id <- gets (fun s => time_id_ (ids_ s)) ;;
        p1 <- CreateGEP buf [getInt64 0; getInt32 1] ;;
        CreateStore (GetIntSameSize time_id e1) p1 ;;;
        modify (with_ids (set_time_id (time_id + 1))) ;;;
        ctx <- gets ctx_ ;;
        CreatePerfEventOutput ctx buf (getStructSize elements) ;;;
        CreateLifetimeEnd buf ;;;
        set_expr None
      else if String.eqb func "strftime" then
        let elements := Strftime_asLLVMType bpftrace_ in
        buf <- CreateAllocaBPF (AStruct (func +:+ "_t") elements true) (func +:+ "_args") ;;
        e0 <- at_ elements 0 ;;
        strftime_id <- gets (fun s => strftime_id_ (ids_ s)) ;;
        p0 <- CreateGEP buf [getInt64 0; getInt32 0] ;;
        CreateStore (GetIntSameSize strftime_id e0) p0 ;;;
        modify (with_ids (set_strftime_id (strftime_id + 1))) ;;;
        match vargs with
        | _ :: arg :: _ =>
            scoped_del <- accept (visit arg) ;;
            v <- get_expr ;;
            p1 <- CreateGEP buf [getInt64 0; getInt32 1] ;;
            CreateStore v p1 ;;;
            set_expr (Some buf) ;;;
            scope_exit scoped_del
        | _ => fatal "std::out_of_range"
        end
      else
        fatal "call that is unknown or not covered by this development"
  end
with getMapKey (map : Map) {struct map} : M Value :=
  match map with
  | mkMap ident (Some vargs) _ =>
      match vargs with
      | [expr] =>
          (* A single value as a map key (e.g., @[comm] = 0;) *)
          scoped_del <- accept (visit expr) ;;
          if shouldBeOnStackAlready (expr_type expr) then
            (* key = dyn_cast<AllocaInst>(expr_); Call-ee freed: scoped_del.disarm() *)
            e <- gets expr_ ;;
            ret (match e with Some (AllocaInst id t) => AllocaInst id t | _ => NullValue end)
          else
            key <- CreateAllocaBPF (ABytes (size (expr_type expr))) (ident +:+ "_key") ;;
            e <- get_expr ;;
            v <- CreateIntCast e 64 (IsSigned (expr_type expr)) ;;
            CreateStore v key ;;;
            scope_exit scoped_del ;;;
            ret key
      | _ =>
          (* Two or more values as a map key (e.g, @[comm, pid] = 1;) *)
          let size_ := fold_left (fun acc e => acc + size (expr_type e)) vargs 0 in
          key <- CreateAllocaBPF (ABytes size_) (ident +:+ "_key") ;;
          getMapKey_loop visit key vargs 0 ;;;
          ret key
      end
  | mkMap ident None _ =>
      (* No map key (e.g., @ = 1;). Use 0 as a key. *)
      key <- CreateAllocaBPF (ASized CreateUInt64) (ident +:+ "_key") ;;
      CreateStore (getInt64 0) key ;;;
      ret key
  end.


(** ** Lowering of statements *)

Definition repeatM (n : nat) (m : M unit) : M unit :=
  Nat.iter n (fun k => m ;;; k) (ret tt).

Definition back {A} (l : list A) : M A :=
  match last l with
  | Some x => ret x
  | None => fatal "back() of an empty loops_"
  end.

Fixpoint visit_stmt (s : Statement) {struct s} : M unit :=
  match s with
  | ExprStatement e =>
      scoped_del <- accept (visit e) ;;
      scope_exit scoped_del
  | AssignMapStatement map e =>
      scoped_del <- accept (visit e) ;;
      cur <- gets expr_ ;;
      match cur with
      | None => (* Some functions do the assignments themselves *)
          scope_exit scoped_del
      | Some expr =>
          key <- getMapKey map ;;
          r <- (if shouldBeOnStackAlready (expr_type e) then
                  ret (expr, false)
                else if IsRecordTy (map_type map) then
                  fatal "record-valued map assignment is not covered by this development"
                else if IsPtrTy (map_type map) then
                  dst <- CreateAllocaBPF (ASized (map_type map)) (map_ident map +:+ "_ptr") ;;
                  CreateStore expr dst ;;;
                  ret (dst, true)
                else
                  expr <- (if IsIntTy (map_type map) then
                             (* Integers are always stored as 64-bit in map values *)
                             CreateIntCast expr 64 (IsSigned (map_type map))
                           else ret expr) ;;
                  val <- CreateAllocaBPF (ASized (map_type map)) (map_ident map +:+ "_val") ;;
                  CreateStore expr val ;;;
                  ret (val, true)) ;;
          let '(val, self_alloca) := r in
          CreateMapUpdateElem (map_ident map) key val ;;;
          CreateLifetimeEnd key ;;;
          (if self_alloca : bool then CreateLifetimeEnd val else ret tt) ;;;
          scope_exit scoped_del
      end
  | AssignVarStatement ident ty e =>
      scoped_del <- accept (visit e) ;;
      vars <- gets variables_ ;;
      (match vars !! ident with
       | None =>
           val <- CreateAllocaBPFInit ty ident ;;
           modify (with_variables (insert ident val))
       | Some _ => ret tt
       end) ;;;
      (if needMemcpy ty then
         dst <- variables_at ident ;;
         src <- get_expr ;;
         CREATE_MEMCPY dst src (size ty)
       else
         v <- get_expr ;;
         dst <- variables_at ident ;;
         CreateStore v dst) ;;;
      scope_exit scoped_del
  | If cond stmts else_stmts =>
      parent <- getParent ;;
      if_true <- BasicBlock_Create "if_body" parent ;;
      if_end <- BasicBlock_Create "if_end" parent ;;
      scoped_del <- accept (visit cond) ;;
      e <- get_expr ;;
      let zero_value := GetIntSameSize 0 (getType e) in
      c <- CreateICmp ICMP_NE e zero_value "true_cond" ;;
      match else_stmts with
      | Some else_stmts =>
          (* LLVM doesn't accept empty basic block, only create when needed *)
          if_else <- BasicBlock_Create "else_body" parent ;;
          CreateCondBr c if_true if_else ;;;
          SetInsertPoint if_true ;;;
          forM (fun stmt => d <- accept (visit_stmt stmt) ;; scope_exit d) stmts ;;;
          CreateBr if_end ;;;
          SetInsertPoint if_end ;;;
          SetInsertPoint if_else ;;;
          forM (fun stmt => d <- accept (visit_stmt stmt) ;; scope_exit d) else_stmts ;;;
          CreateBr if_end ;;;
          SetInsertPoint if_end ;;;
          scope_exit scoped_del
      | None =>
          CreateCondBr c if_true if_end ;;;
          SetInsertPoint if_true ;;;
          forM (fun stmt => d <- accept (visit_stmt stmt) ;; scope_exit d) stmts ;;;
          CreateBr if_end ;;;
          SetInsertPoint if_end ;;;
          scope_exit scoped_del
      end
  | Unroll var stmts =>
      repeatM (Z.to_nat var)
        (forM (fun stmt => d <- accept (visit_stmt stmt) ;; scope_exit d) stmts)
  | Jump ident =>
      (match ident with
       | RETURN =>
           (* return can be used outside of loops *)
           CreateRet (ConstantInt 64 0)
       | BREAK =>
           l <- gets loops_ ;; tgt <- back l ;; CreateBr (snd tgt)
       | CONTINUE =>
           l <- gets loops_ ;; tgt <- back l ;; CreateBr (fst tgt)
       end) ;;;
      (* LLVM doesn't like having instructions after an unconditional branch *)
      parent <- getParent ;;
      unreach <- BasicBlock_Create "unreach" parent ;;
      SetInsertPoint unreach
  | While cond stmts =>
      parent <- getParent ;;
      while_cond <- BasicBlock_Create "while_cond" parent ;;
      while_body <- BasicBlock_Create "while_body" parent ;;
      while_end <- BasicBlock_Create "while_end" parent ;;
      modify (with_loops (fun l => l ++ [(while_cond, while_end)])) ;;;
      CreateBr while_cond ;;;
      SetInsertPoint while_cond ;;;
      scoped_del <- accept (visit cond) ;;
      e <- get_expr ;;
      let zero_value := GetIntSameSize 0 (getType e) in
      c <- CreateICmp ICMP_NE e zero_value "true_cond" ;;
      CreateCondBr c while_body while_end ;;;
      SetInsertPoint while_body ;;;
      forM (fun stmt => d <- accept (visit_stmt stmt) ;; scope_exit d) stmts ;;;
      CreateBr while_cond ;;;
      SetInsertPoint while_end ;;;
      modify (with_loops (fun l => removelast l)) ;;;
      scope_exit scoped_del
  end.

(** [visit(Predicate&)] *)
Definition visit_Predicate (pred_expr : Expression) : M unit :=
  parent <- getParent ;;
  pred_false_block <- BasicBlock_Create "pred_false" parent ;;
  pred_true_block <- BasicBlock_Create "pred_true" parent ;;
  scoped_del <- accept (visit pred_expr) ;;
  (* allow unop casts in predicates: *)
  e <- get_expr ;;
  e <- CreateIntCast e 64 false ;;
  c <- CreateICmp ICMP_EQ e (getInt64 0) "predcond" ;;
  set_expr (Some c) ;;;
  CreateCondBr c pred_false_block pred_true_block ;;;
  SetInsertPoint pred_false_block ;;;
  CreateRet (ConstantInt 64 0) ;;;
  SetInsertPoint pred_true_block ;;;
  scope_exit scoped_del.

(** ** The probe driver *)

Definition getNextIndexForProbe (probe_name : string) : M Z :=
  modify (with_next_probe_index
            (fun m => match m !! probe_name with
                      | None => <[probe_name := 1]> m
                      | Some _ => m
                      end)) ;;;
  m <- gets next_probe_index_ ;;
  let index := default 0 (m !! probe_name) in
  modify (with_next_probe_index (<[probe_name := index + 1]>)) ;;;
  ret index.

Definition getSectionNameForProbe (probe_name : string) (index : Z) : string :=
  "s_" +:+ probe_name +:+ "_" +:+ pretty index.

Definition ProbeType_eqb (a b : ProbeType) : bool :=
  match a, b with
  | PT_invalid, PT_invalid | PT_kprobe, PT_kprobe | PT_uprobe, PT_uprobe
  | PT_uretprobe, PT_uretprobe | PT_usdt, PT_usdt
  | PT_tracepoint, PT_tracepoint | PT_other, PT_other => true
  | _, _ => false
  end.

(** [generateProbe].  The writes [set_index] makes to the AST are read by the
    runtime only and are left out. *)
Definition generateProbe (probe : Probe) (full_func_id section_name : string)
    (expansion : bool) : M unit :=
  cap <- gets current_attach_point_ ;;
  (match cap with
   | None => fatal "null current_attach_point_"
   | Some ap =>
       if ProbeType_eqb (probetype bpftrace_ (provider ap)) PT_tracepoint then
         modify (with_tracepoint_struct (get_struct_name bpftrace_ full_func_id))
       else ret tt
   end) ;;;
  index <- getNextIndexForProbe (Probe_name bpftrace_ probe) ;;
  func <- Function_Create [TPtr] ExternalLinkage section_name ;;
  setSection func (getSectionNameForProbe section_name index) ;;;
  entry <- BasicBlock_Create "entry" func ;;
  SetInsertPoint entry ;;;
  (* check: do the following 8 lines need to be in the wildcard loop? *)
  modify (with_ctx (Argument 0 TPtr)) ;;;
  (match pred probe with
   | Some p => d <- accept (visit_Predicate p) ;; scope_exit d
   | None => ret tt
   end) ;;;
  modify (with_variables (fun _ => ∅)) ;;;
  forM (fun stmt => d <- accept (visit_stmt stmt) ;; scope_exit d) (stmts probe) ;;;
  CreateRet (ConstantInt 64 0).

Definition set_need_expansion (b : bool) (p : Probe) : Probe :=
  mkProbe (attach_points p) (pred p) (stmts p) b.
Definition set_attach_point (k : nat) (ap : AttachPoint) (p : Probe) : Probe :=
  mkProbe (<[k := ap]> (attach_points p)) (pred p) (stmts p) (need_expansion p).
Definition set_target_ns (t n : string) (ap : AttachPoint) : AttachPoint :=
  mkAttachPoint (provider ap) t n (func ap) (usdt_num_locations ap).
Definition set_usdt (n : Z) (ap : AttachPoint) : AttachPoint :=
  mkAttachPoint (provider ap) (target ap) (ns ap) (func ap) n.

(** The [reset_ids] closure of [visit(Probe&)], given the eight saved values. *)
Definition reset_ids (starting_printf_id starting_cat_id starting_system_id
    starting_time_id starting_strftime_id starting_join_id
    starting_helper_error_id starting_non_map_print_id : Z) : M unit :=
  modify (with_ids (fun _ =>
    mkIds starting_printf_id starting_cat_id starting_system_id starting_time_id
      starting_strftime_id starting_join_id starting_helper_error_id
      starting_non_map_print_id)).

(** The loop over the locations of one USDT match. *)
Fixpoint usdt_locations (reset : M unit) (probe : Probe) (match_ : string)
    (n : nat) (i : Z) {struct n} : M unit :=
  match n with
  | O => ret tt
  | S n' =>
      reset ;;;
      let loc_suffix := "_loc" +:+ pretty i in
      let full_func_id := match_ +:+ loc_suffix in
      probefull <- gets probefull_ ;;
      let section_name := probefull +:+ loc_suffix in
      generateProbe probe full_func_id section_name true ;;;
      loc <- gets current_usdt_location_index_ ;;
      modify (with_usdt_location_index (loc + 1)) ;;;
      usdt_locations reset probe match_ n' (i + 1)
  end.

(** The body of the loop over the matches of attach point number [k]; the
    probe is threaded because the loop edits its attach point in place. *)
Definition visit_match (reset : M unit) (k : nat) (probe : Probe) (match_ : string)
  : M Probe :=
  reset ;;;
  attach_point <- at_ (attach_points probe) k ;;
  if ProbeType_eqb (probetype bpftrace_ (provider attach_point)) PT_usdt then
    let func_id := match_ in
    let '(target_, func_id) := erase_prefix bpftrace_ func_id in
    let '(ns_, func_id) := erase_prefix bpftrace_ func_id in
    let orig_target := target attach_point in
    let orig_ns := ns attach_point in
    (* Ensure that the full probe name used is the resolved one for this probe. *)
    let attach_point := set_target_ns target_ ns_ attach_point in
    modify (with_probefull (AttachPoint_name bpftrace_ attach_point func_id)) ;;;
    match USDTHelper_find bpftrace_ (pid bpftrace_) target_ ns_ func_id with
    | None => fatal "Failed to find usdt probe"
    | Some num_locations =>
        let attach_point := set_usdt num_locations attach_point in
        let probe := set_attach_point k attach_point probe in
        modify (with_usdt_location_index 0) ;;;
        usdt_locations reset probe match_ (Z.to_nat num_locations) 0 ;;;
        (* Propagate the originally specified target and namespace in case
           they contain a wildcard. *)
        ret (set_attach_point k (set_target_ns orig_target orig_ns attach_point) probe)
    end
  else
    (if String.eqb (provider attach_point) "BEGIN" || String.eqb (provider attach_point) "END" then
       modify (with_probefull (provider attach_point))
     else
       match probetype bpftrace_ (provider attach_point) with
       | PT_tracepoint | PT_uprobe | PT_uretprobe =>
           (* Tracepoint and uprobe probes must specify both a target
              (tracepoint category) and a function name *)
           let '(category, func_) := erase_prefix bpftrace_ match_ in
           modify (with_probefull (AttachPoint_name2 bpftrace_ attach_point category func_))
       | _ =>
           modify (with_probefull (AttachPoint_name bpftrace_ attach_point match_))
       end) ;;;
    probefull <- gets probefull_ ;;
    generateProbe probe match_ probefull true ;;;
    ret probe.

Fixpoint visit_matches (reset : M unit) (k : nat) (probe : Probe)
    (matches : list string) {struct matches} : M Probe :=
  match matches with
  | [] => ret probe
  | match_ :: rest =>
      probe <- visit_match reset k probe match_ ;;
      visit_matches reset k probe rest
  end.

(** The loop over the attach points, [n] of them left, starting at number [k]. *)
Fixpoint visit_attach_points (reset : M unit) (probe : Probe) (n k : nat)
    {struct n} : M Probe :=
  match n with
  | O => ret probe
  | S n' =>
      attach_point <- at_ (attach_points probe) k ;;
      modify (with_current_attach_point (Some attach_point)) ;;;
      let matches :=
        if String.eqb (provider attach_point) "BEGIN" || String.eqb (provider attach_point) "END"
        then [provider attach_point]
        else find_wildcard_matches bpftrace_ attach_point in
      modify (with_tracepoint_struct "") ;;;
      probe <- visit_matches reset k probe matches ;;
      visit_attach_points reset probe n' (S k)
  end.

(** [visit(Probe&)]; the call [bpftrace_.add_probe(probe)] hands the probe to
    the runtime and leaves the generator unchanged. *)
Definition visit_Probe (probe : Probe) : M Probe :=
  (* Probe has at least one attach point (required by the parser) *)
  attach_point <- at_ (attach_points probe) 0 ;;
  (* All usdt probes need expansion to be able to read arguments *)
  let probe :=
    if ProbeType_eqb (probetype bpftrace_ (provider attach_point)) PT_usdt
    then set_need_expansion true probe else probe in
  modify (with_current_attach_point (Some attach_point)) ;;;
  probe <- (if negb (need_expansion probe) then
              (* build a single BPF program pre-wildcards *)
              modify (with_probefull (Probe_name bpftrace_ probe)) ;;;
              probefull <- gets probefull_ ;;
              generateProbe probe probefull probefull false ;;;
              ret probe
            else
              ids <- gets ids_ ;;
              let reset :=
                reset_ids (printf_id_ ids) (cat_id_ ids) (system_id_ ids) (time_id_ ids)
                  (strftime_id_ ids) (join_id_ ids) (helper_error_id_ ids)
                  (non_map_print_id_ ids) in
              visit_attach_points reset probe (length (attach_points probe)) 0) ;;
  modify (with_current_attach_point None) ;;;
  ret probe.


(** ** The synthesized helper [linear] *)

Definition createLinearFunction : M nat :=
  ip <- saveIP ;;
  (* inlined function initialization *)
  linear_func <- Function_Create [getInt64Ty; getInt64Ty; getInt64Ty; getInt64Ty]
                   InternalLinkage "linear" ;;
  addFnAttr_AlwaysInline linear_func ;;;
  setSection linear_func "helpers" ;;;
  entry <- BasicBlock_Create "entry" linear_func ;;
  SetInsertPoint entry ;;;
  (* pull in arguments *)
  value_alloc <- CreateAllocaBPF (ASized CreateUInt64) "" ;;
  min_alloc <- CreateAllocaBPF (ASized CreateUInt64) "" ;;
  max_alloc <- CreateAllocaBPF (ASized CreateUInt64) "" ;;
  step_alloc <- CreateAllocaBPF (ASized CreateUInt64) "" ;;
  result_alloc <- CreateAllocaBPF (ASized CreateUInt64) "" ;;
  CreateStore (Argument 0 getInt64Ty) value_alloc ;;;
  CreateStore (Argument 1 getInt64Ty) min_alloc ;;;
  CreateStore (Argument 2 getInt64Ty) max_alloc ;;;
  CreateStore (Argument 3 getInt64Ty) step_alloc ;;;
  (* algorithm *)
  min <- CreateLoad min_alloc ;;
  val <- CreateLoad value_alloc ;;
  cmp <- CreateICmp ICMP_SLT val min "" ;;
  lt_min <- BasicBlock_Create "lhist.lt_min" linear_func ;;
  ge_min <- BasicBlock_Create "lhist.ge_min" linear_func ;;
  CreateCondBr cmp lt_min ge_min ;;;
  SetInsertPoint lt_min ;;;
  CreateRet (getInt64 0) ;;;
  SetInsertPoint ge_min ;;;
  max <- CreateLoad max_alloc ;;
  val <- CreateLoad value_alloc ;;
  cmp <- CreateICmp ICMP_SGT val max "" ;;
  le_max <- BasicBlock_Create "lhist.le_max" linear_func ;;
  gt_max <- BasicBlock_Create "lhist.gt_max" linear_func ;;
  CreateCondBr cmp gt_max le_max ;;;
  SetInsertPoint gt_max ;;;
  step <- CreateLoad step_alloc ;;
  min <- CreateLoad min_alloc ;;
  max <- CreateLoad max_alloc ;;
  d <- CreateSub max min ;;
  div <- CreateUDiv d step ;;
  r <- CreateAdd div (getInt64 1) ;;
  CreateStore r result_alloc ;;;
  r <- CreateLoad result_alloc ;;
  CreateRet r ;;;
  SetInsertPoint le_max ;;;
  step <- CreateLoad step_alloc ;;
  min <- CreateLoad min_alloc ;;
  val <- CreateLoad value_alloc ;;
  d <- CreateSub val min ;;
  div3 <- CreateUDiv d step ;;
  r <- CreateAdd div3 (getInt64 1) ;;
  CreateStore r result_alloc ;;;
  r <- CreateLoad result_alloc ;;
  CreateRet r ;;;
  restoreIP ip ;;;
  ret linear_func.

End Lowering.

(** * Properties *)

(** ** What a sequence of builder calls does to a function

    The module after a run of builder calls on function [f] is the module
    before it, changed by a list of events; what each block gains is read
    off the list. *)

Inductive MEvent :=
| MInstr (l : nat) (i : Instr)
| MNew (name : string).

Definition mrun_event (f : nat) (m : list Function) (e : MEvent) : list Function :=
  match e with
  | MInstr l i => minsert f l i m
  | MNew name => mnew f name m
  end.
Definition mrun (f : nat) (evs : list MEvent) (m : list Function) : list Function :=
  fold_left (mrun_event f) evs m.

Fixpoint mcollect (evs : list MEvent) (l : nat) : list Instr :=
  match evs with
  | [] => []
  | MInstr l' i :: r => (if Nat.eqb l' l then [i] else []) ++ mcollect r l
  | MNew _ :: r => mcollect r l
  end.
Fixpoint mcount (evs : list MEvent) : nat :=
  match evs with
  | [] => O
  | MNew _ :: r => S (mcount r)
  | MInstr _ _ :: r => mcount r
  end.
(** Instructions only go to blocks that exist; [n] blocks to start with. *)
Fixpoint mvalid (n : nat) (evs : list MEvent) : Prop :=
  match evs with
  | [] => True
  | MInstr l _ :: r => (l < n)%nat /\ mvalid n r
  | MNew _ :: r => mvalid (S n) r
  end.

Lemma alter_snoc {A} (g : A -> A) (l : list A) (x : A) :
  alter g (length l) (l ++ [x]) = l ++ [g x].
Proof.
  induction l as [|a l IH]; simpl; [reflexivity|].
  f_equal. exact IH.
Qed.

Lemma lookup_snoc {A} (l : list A) (x : A) : (l ++ [x]) !! length l = Some x.
Proof. induction l; simpl; auto. Qed.

Lemma num_blocks_snoc m fn : num_blocks (m ++ [fn]) (length m) = length (fn_blocks fn).
Proof. unfold num_blocks. rewrite lookup_snoc. reflexivity. Qed.

Lemma block_instrs_snoc m fn l : block_instrs (m ++ [fn]) (length m) l = fn_code fn l.
Proof. unfold block_instrs, fn_code. rewrite lookup_snoc. reflexivity. Qed.

Lemma minsert_blocks m f l i l' :
  (f < length m)%nat -> (l < num_blocks m f)%nat ->
  block_instrs (minsert f l i m) f l'
  = block_instrs m f l' ++ (if Nat.eqb l l' then [i] else []).
Proof.
  intros Hf Hlt. unfold minsert, block_instrs, num_blocks in *.
  rewrite list_lookup_alter_eq.
  destruct (m !! f) as [fn|] eqn:E; cbn [fmap option_fmap option_map set_fn_blocks fn_blocks].
  2:{ apply lookup_ge_None in E. lia. }
  destruct (Nat.eqb_spec l l') as [->|Hne].
  - rewrite list_lookup_alter_eq.
    destruct (fn_blocks fn !! l') as [bb|] eqn:E2; simpl; [reflexivity|].
    apply lookup_ge_None in E2. lia.
  - rewrite list_lookup_alter_ne by exact Hne.
    destruct (fn_blocks fn !! l'); simpl; rewrite ?app_nil_r; reflexivity.
Qed.

Lemma minsert_num_blocks m f l i f' : num_blocks (minsert f l i m) f' = num_blocks m f'.
Proof.
  unfold minsert, num_blocks.
  destruct (decide (f = f')) as [<-|Hne].
  - rewrite list_lookup_alter_eq. destruct (m !! _); simpl; [|reflexivity].
    apply length_alter.
  - rewrite list_lookup_alter_ne by exact Hne. reflexivity.
Qed.

Lemma minsert_other m f l i f' : f' <> f -> minsert f l i m !! f' = m !! f'.
Proof. intros Hne. unfold minsert. apply list_lookup_alter_ne. congruence. Qed.

Lemma minsert_length m f l i : length (minsert f l i m) = length m.
Proof. unfold minsert. apply length_alter. Qed.

Lemma mnew_blocks m f name l : block_instrs (mnew f name m) f l = block_instrs m f l.
Proof.
  unfold mnew, block_instrs. rewrite list_lookup_alter_eq.
  destruct (m !! f) as [fn|]; simpl; [|reflexivity].
  destruct (decide (l < length (fn_blocks fn))%nat).
  - rewrite lookup_app_l by assumption. reflexivity.
  - rewrite (proj2 (lookup_ge_None (fn_blocks fn) l)) by lia.
    destruct (decide (l = length (fn_blocks fn))) as [->|].
    + rewrite lookup_snoc. reflexivity.
    + rewrite (proj2 (lookup_ge_None _ l)); [reflexivity|].
      rewrite length_app. simpl. lia.
Qed.

Lemma mnew_num_blocks m f name :
  (f < length m)%nat -> num_blocks (mnew f name m) f = S (num_blocks m f).
Proof.
  intros Hf. unfold mnew, num_blocks. rewrite list_lookup_alter_eq.
  destruct (m !! f) as [fn|] eqn:E; simpl.
  - rewrite length_app. simpl. lia.
  - apply lookup_ge_None in E. lia.
Qed.

Lemma mnew_other m f name f' : f' <> f -> mnew f name m !! f' = m !! f'.
Proof. intros Hne. unfold mnew. apply list_lookup_alter_ne. congruence. Qed.

Lemma mnew_length m f name : length (mnew f name m) = length m.
Proof. unfold mnew. apply length_alter. Qed.

Lemma mrun_spec f evs : forall m,
  (f < length m)%nat ->
  mvalid (num_blocks m f) evs ->
  length (mrun f evs m) = length m
  /\ num_blocks (mrun f evs m) f = (mcount evs + num_blocks m f)%nat
  /\ (forall l, block_instrs (mrun f evs m) f l = block_instrs m f l ++ mcollect evs l)
  /\ (forall f', f' <> f -> mrun f evs m !! f' = m !! f').
Proof.
  induction evs as [|e evs IH]; intros m Hf Hok.
  - simpl. repeat split; auto. intros l. rewrite app_nil_r. reflexivity.
  - destruct e as [l i|name]; simpl in Hok |- *.
    + destruct Hok as [Hlt Hok].
      specialize (IH (minsert f l i m)).
      rewrite minsert_length, minsert_num_blocks in IH.
      destruct (IH Hf Hok) as (H1 & H2 & H3 & H4).
      split; [exact H1|]. split; [exact H2|]. split.
      * intros l'. rewrite H3. rewrite (minsert_blocks m f l i l' Hf Hlt).
        rewrite <- app_assoc. reflexivity.
      * intros f' Hne. rewrite H4 by exact Hne. apply minsert_other. exact Hne.
    + specialize (IH (mnew f name m)).
      rewrite mnew_length, (mnew_num_blocks m f name Hf) in IH.
      destruct (IH Hf Hok) as (H1 & H2 & H3 & H4).
      split; [exact H1|]. split; [lia|]. split.
      * intros l'. rewrite H3. rewrite mnew_blocks. reflexivity.
      * intros f' Hne. rewrite H4 by exact Hne. apply mnew_other. exact Hne.
Qed.

(** The generator as constructed by [CodegenLLVM::CodegenLLVM]: an empty
    module, no variables, all counters at their initial values. *)
Definition CodegenLLVM_init : CodegenLLVM :=
  mkCodegen (mkBuilder [] (O, O) O) None None ∅ (mkIds 0 0 0 0 0 0 0 0) ∅ "" "" 0
    NullValue [] None.

(** A machine about to run a function on the given arguments. *)
Definition machine_init (args : list RVal) (helpers : nat -> Z) : Machine :=
  mkMachine (fun _ => None) (fun n => args !! n) (fun _ _ => None) helpers [].

Definition result_of (o : list (nat * nat) * Outcome) : option RVal :=
  match snd o with
  | Returned v _ => Some v
  | _ => None
  end.

(** ** Tactics for walking through the lowering and through the machine *)

Lemma Ok_pair_inv {A S} (a a' : A) (s s' : S) :
  Ok (a, s) = Ok (a', s') -> a = a' /\ s = s'.
Proof. intros H. injection H. auto. Qed.

Lemma upd_eq {A} (f : nat -> A) k v : upd f k v k = v.
Proof. unfold upd. rewrite Nat.eqb_refl. reflexivity. Qed.
Lemma upd_ne {A} (f : nat -> A) k v k' : k <> k' -> upd f k v k' = f k'.
Proof. intros H. unfold upd. apply Nat.eqb_neq in H. rewrite H. reflexivity. Qed.
Lemma upd_mem_eq f c k v : upd_mem f c k v c k = v.
Proof. unfold upd_mem. rewrite Nat.eqb_refl, Z.eqb_refl. reflexivity. Qed.
Lemma upd_mem_ne f c k v c' k' : c <> c' -> upd_mem f c k v c' k' = f c' k'.
Proof. intros H. unfold upd_mem. apply Nat.eqb_neq in H. rewrite H. reflexivity. Qed.
Lemma upd_mem_ne_field f c k v k' : k <> k' -> upd_mem f c k v c k' = f c k'.
Proof.
  intros H. unfold upd_mem. apply Z.eqb_neq in H. rewrite H, andb_false_r. reflexivity.
Qed.
Lemma upd_cell_eq f c g k : upd_cell f c g c k = g k.
Proof. unfold upd_cell. rewrite Nat.eqb_refl. reflexivity. Qed.
Lemma upd_cell_ne f c g c' k : c <> c' -> upd_cell f c g c' k = f c' k.
Proof. intros H. unfold upd_cell. apply Nat.eqb_neq in H. rewrite H. reflexivity. Qed.

Lemma run_ext fuel : forall code code' pc m,
  (forall l, code l = code' l) -> run fuel code pc m = run fuel code' pc m.
Proof.
  induction fuel as [|fuel IH]; intros code code' pc m Hext; [reflexivity|].
  cbn [run]. unfold step. rewrite Hext.
  destruct (code' (fst pc) !! snd pc) as [i|]; [|reflexivity].
  destruct i; try (destruct (exec _ m); [rewrite (IH _ _ _ _ Hext)|]; reflexivity).
  - rewrite (IH _ _ _ _ Hext). reflexivity.
  - destruct (eval m cond) as [[]|]; try reflexivity. rewrite (IH _ _ _ _ Hext). reflexivity.
  - destruct (eval m v); reflexivity.
Qed.

Ltac eqb_simpl :=
  repeat match goal with
    | |- context [Nat.eqb ?a ?b] =>
        first [ replace (Nat.eqb a b) with true by (symmetry; apply Nat.eqb_eq; lia)
              | replace (Nat.eqb a b) with false by (symmetry; apply Nat.eqb_neq; lia) ]
    end.

(** Unfolding the builder facade in a hypothesis about a lowering whose
    states are in constructor form. *)
Ltac facade H :=
  cbv beta iota zeta delta
    [bind ret fatal gets modify emit fresh set_expr get_expr getParent scope_exit accept
     CreateAllocaBPF CreateAllocaBPFInit CreateLifetimeEnd CreateStore CreateLoad CreateGEP
     CreateBinOp CreateAdd CreateSub CreateMul CreateUDiv CreateURem CreateShl CreateLShr
     CreateAnd CreateOr CreateXor CreateICmp CREATE_MEMCPY CREATE_MEMSET
     GetInsertBlock SetInsertPoint saveIP restoreIP BasicBlock_Create Function_Create
     setSection addFnAttr_AlwaysInline CreateBr CreateCondBr CreateRet CreateHelperCall
     CreateMapUpdateElem CreateMapDeleteElem CreatePerfEventOutput CreateStrcmp CreateStrncmp
     variables_at front at_ back
     b_ expr_ expr_deleter_ variables_ ids_ next_probe_index_ probefull_ tracepoint_struct_
     current_usdt_location_index_ ctx_ loops_ current_attach_point_
     with_b with_expr with_expr_deleter with_variables with_ids with_next_probe_index
     with_probefull with_tracepoint_struct with_usdt_location_index with_ctx with_loops
     with_current_attach_point module_
     next_value insert_block add_instr new_block set_insert_block bump set_module
     set_next_value fst snd getInt64Ty] in H.

Ltac reify_m f M base :=
  lazymatch M with
  | base => constr:(@nil MEvent)
  | minsert f ?l ?i ?M' => let r := reify_m f M' base in constr:(r ++ [MInstr l i])
  | mnew f ?name ?M' => let r := reify_m f M' base in constr:(r ++ [MNew name])
  end.

Ltac len_solver :=
  repeat first [rewrite minsert_length | rewrite mnew_length];
  rewrite ?length_app; simpl; lia.

Ltac norm_num_blocks :=
  repeat first [ rewrite minsert_num_blocks
               | rewrite mnew_num_blocks by len_solver
               | rewrite num_blocks_snoc ].

(* an innermost [num_blocks M f] of term T that is not yet in normal form *)
Ltac find_label T k :=
  match T with
  | context [num_blocks ?M ?f] =>
      lazymatch M with
      | context [num_blocks _ _] => find_label M k
      | _ => lazymatch M with
             | context [minsert] => k M f
             | context [mnew] => k M f
             | context [app] => k M f
             end
      end
  end.

Ltac norm_labels H :=
  repeat (let T := type of H in
          find_label T ltac:(fun M f =>
            let E := fresh "E" in
            eassert (E : num_blocks M f = _);
            [ norm_num_blocks; reflexivity
            | rewrite E in H; clear E ])).

Ltac exec_cbn :=
  cbn [run step exec eval deref set_reg set_mem add_effect regs mem fargs effects
       helper_result pointee IsIntTy type size machine_init gep_offset
       fst snd lookup list_lookup mcollect app is_terminator result_of
       getInt64 Nat.eqb fn_code fn_blocks set_fn_section set_fn_always_inline eval_binop].

Ltac upd_simpl :=
  repeat first [ rewrite upd_eq | rewrite upd_ne by lia
               | rewrite upd_mem_eq | rewrite upd_mem_ne by lia
               | rewrite upd_cell_eq | rewrite upd_cell_ne by lia ].

Ltac zeqb_simpl :=
  repeat match goal with
    | |- context [Z.eqb ?a 0] =>
        replace (Z.eqb a 0) with false by (symmetry; apply Z.eqb_neq; lia)
    | |- context [Z.ltb ?a ?b] =>
        replace (Z.ltb a b) with true by (symmetry; apply Z.ltb_lt; lia)
    end.

Ltac exec_go := repeat (progress (exec_cbn; eqb_simpl; upd_simpl; zeqb_simpl)).

Ltac icmp_split :=
  match goal with
  | |- context [if eval_icmp ?p ?b ?x ?y then _ else _] =>
      let E := fresh "Ecmp" in
      destruct (eval_icmp p b x y) eqn:E; cbn [Z.eqb]
  end.

(** ** Paths through the emitted code *)

Fixpoint exec_list (ins : list Instr) (m : Machine) : option Machine :=
  match ins with
  | [] => Some m
  | i :: r => match exec i m with
              | Some m' => exec_list r m'
              | None => None
              end
  end.

(** The positions [k, k+1, ..., k+n-1] of block [l]. *)
Fixpoint positions (l k n : nat) : list (nat * nat) :=
  match n with
  | O => []
  | S n' => (l, k) :: positions l (S k) n'
  end.

(** [reaches code pc m p o]: from position [pc] and machine [m] the machine
    executes the positions [p], in this order, and ins then in state [o]. *)
Inductive reaches (code : nat -> list Instr)
  : nat * nat -> Machine -> list (nat * nat) -> Outcome -> Prop :=
| reaches_here pc m : reaches code pc m [] (Running pc m)
| reaches_step pc m pc' m' p o :
    step code pc m = Running pc' m' ->
    reaches code pc' m' p o ->
    reaches code pc m (pc :: p) o
| reaches_return pc m v m' :
    step code pc m = Returned v m' ->
    reaches code pc m [pc] (Returned v m').

Lemma reaches_run code pc m p o :
  reaches code pc m p o ->
  match o with
  | Running _ _ => run (length p) code pc m = (p, o)
  | _ => forall fuel, (length p <= fuel)%nat -> run fuel code pc m = (p, o)
  end.
Proof.
  induction 1 as [pc m|pc m pc' m' p o Hs Hr IH|pc m v m' Hs].
  - reflexivity.
  - destruct o as [pc2 m2| |].
    + cbn [length run]. rewrite Hs, IH. reflexivity.
    + intros fuel Hf. destruct fuel as [|fuel]; [simpl in Hf; lia|].
      cbn [run]. rewrite Hs, IH by (simpl in Hf; lia). reflexivity.
    + intros fuel Hf. destruct fuel as [|fuel]; [simpl in Hf; lia|].
      cbn [run]. rewrite Hs, IH by (simpl in Hf; lia). reflexivity.
  - intros fuel Hf. destruct fuel as [|fuel]; [simpl in Hf; lia|].
    cbn [run]. rewrite Hs. reflexivity.
Qed.

Lemma reaches_trans code pc m p pc' m' p' o :
  reaches code pc m p (Running pc' m') ->
  reaches code pc' m' p' o ->
  reaches code pc m (p ++ p') o.
Proof.
  intros H. remember (Running pc' m') as o1 eqn:E. revert E.
  induction H as [pc m|pc m pc2 m2 p o1 Hs Hr IH|pc m v m2 Hs]; intros E H2.
  - injection E as -> ->. exact H2.
  - simpl. eapply reaches_step; [exact Hs|]. apply IH; assumption.
  - discriminate E.
Qed.

(** A straight run of non-terminators inside one block. *)
Lemma reaches_seq code l ins : forall k m m' pre rest,
  code l = pre ++ ins ++ rest ->
  length pre = k ->
  forallb (fun i => negb (is_terminator i)) ins = true ->
  exec_list ins m = Some m' ->
  reaches code (l, k) m (positions l k (length ins)) (Running (l, (k + length ins)%nat) m').
Proof.
  induction ins as [|i ins IH]; intros k m m' pre rest Hc Hk Hnt Hex.
  - simpl in *. injection Hex as <-. rewrite Nat.add_0_r. constructor.
  - simpl in Hnt, Hex. apply andb_true_iff in Hnt. destruct Hnt as [Hi Hnt].
    destruct (exec i m) as [m1|] eqn:E1; [|discriminate].
    cbn [length positions].
    eapply reaches_step.
    + unfold step. cbn [fst snd]. rewrite Hc.
      rewrite lookup_app_r by lia. rewrite Hk, Nat.sub_diag. cbn [app lookup list_lookup].
      destruct i; try discriminate Hi; rewrite E1; reflexivity.
    + replace (k + S (length ins))%nat with (S k + length ins)%nat by lia.
      apply (IH (S k) m1 m' (pre ++ [i]) rest); auto.
      * rewrite Hc, <- app_assoc. reflexivity.
      * rewrite length_app. simpl. lia.
Qed.

Lemma step_at (code : nat -> list Instr) l k pre i rest :
  code l = pre ++ i :: rest -> length pre = k ->
  code (fst (l, k)) !! snd (l, k) = Some i.
Proof.
  intros Hc Hk. cbn [fst snd]. rewrite Hc, lookup_app_r by lia.
  rewrite Hk, Nat.sub_diag. reflexivity.
Qed.

Lemma reaches_br code l k m pre d rest p o :
  code l = pre ++ Br d :: rest -> length pre = k ->
  reaches code (d, O) m p o ->
  reaches code (l, k) m ((l, k) :: p) o.
Proof.
  intros Hc Hk Hr. eapply reaches_step; [|exact Hr].
  unfold step. rewrite (step_at code l k pre _ rest Hc Hk). reflexivity.
Qed.

Lemma reaches_condbr code l k m pre c t f rest b n p o :
  code l = pre ++ CondBr c t f :: rest -> length pre = k ->
  eval m c = Some (RInt b n) ->
  reaches code (if n =? 0 then f else t, O) m p o ->
  reaches code (l, k) m ((l, k) :: p) o.
Proof.
  intros Hc Hk He Hr. eapply reaches_step; [|exact Hr].
  unfold step. rewrite (step_at code l k pre _ rest Hc Hk), He. reflexivity.
Qed.

Lemma reaches_ret code l k m pre v rest x :
  code l = pre ++ Ret v :: rest -> length pre = k ->
  eval m v = Some x ->
  reaches code (l, k) m [(l, k)] (Returned x m).
Proof.
  intros Hc Hk He. eapply reaches_return.
  unfold step. rewrite (step_at code l k pre _ rest Hc Hk), He. reflexivity.
Qed.

(** Evaluating straight-line code on a symbolic machine. *)
Ltac machine_cbn :=
  cbn [exec_list exec eval deref set_reg set_mem add_effect regs mem fargs effects
       helper_result pointee IsIntTy type size machine_init gep_offset
       fst snd lookup list_lookup getInt64 eval_binop].
Ltac machine_go :=
  repeat (progress (machine_cbn; upd_simpl; zeqb_simpl)).

Definition nonterm (ins : list Instr) : bool :=
  forallb (fun i => negb (is_terminator i)) ins.

Lemma reaches_block_br code l k m pre ins d rest m' p o :
  code l = pre ++ ins ++ Br d :: rest ->
  length pre = k -> nonterm ins = true ->
  exec_list ins m = Some m' ->
  reaches code (d, O) m' p o ->
  reaches code (l, k) m (positions l k (length ins) ++ (l, (k + length ins)%nat) :: p) o.
Proof.
  intros Hc Hk Hnt Hex Hr.
  eapply reaches_trans.
  - eapply reaches_seq; eauto.
  - eapply (reaches_br code l _ m' (pre ++ ins)); eauto.
    + rewrite <- app_assoc. exact Hc.
    + rewrite length_app. lia.
Qed.

Lemma reaches_block_condbr code l k m pre ins c t f rest m' b n p o :
  code l = pre ++ ins ++ CondBr c t f :: rest ->
  length pre = k -> nonterm ins = true ->
  exec_list ins m = Some m' ->
  eval m' c = Some (RInt b n) ->
  reaches code (if n =? 0 then f else t, O) m' p o ->
  reaches code (l, k) m (positions l k (length ins) ++ (l, (k + length ins)%nat) :: p) o.
Proof.
  intros Hc Hk Hnt Hex He Hr.
  eapply reaches_trans.
  - eapply reaches_seq; eauto.
  - eapply (reaches_condbr code l _ m' (pre ++ ins)); eauto.
    + rewrite <- app_assoc. exact Hc.
    + rewrite length_app. lia.
Qed.

Lemma reaches_block_ret code l k m pre ins v rest m' x :
  code l = pre ++ ins ++ Ret v :: rest ->
  length pre = k -> nonterm ins = true ->
  exec_list ins m = Some m' ->
  eval m' v = Some x ->
  reaches code (l, k) m (positions l k (length ins) ++ [(l, (k + length ins)%nat)])
    (Returned x m').
Proof.
  intros Hc Hk Hnt Hex He.
  eapply reaches_trans.
  - eapply reaches_seq; eauto.
  - eapply (reaches_ret code l _ m' (pre ++ ins)); eauto.
    + rewrite <- app_assoc. exact Hc.
    + rewrite length_app. lia.
Qed.

Lemma result_of_reaches code pc m p v m' fuel :
  reaches code pc m p (Returned v m') ->
  (length p <= fuel)%nat ->
  result_of (run fuel code pc m) = Some v.
Proof.
  intros H Hf. apply reaches_run in H. rewrite (H fuel Hf). reflexivity.
Qed.

(* the instructions of [body] up to its first terminator *)
Ltac split_body body k :=
  lazymatch body with
  | ?i :: ?r =>
      lazymatch i with
      | Br _ => k (@nil Instr) body
      | CondBr _ _ _ => k (@nil Instr) body
      | Ret _ => k (@nil Instr) body
      | _ => split_body r ltac:(fun ins rest => k (i :: ins) rest)
      end
  | _ => k (@nil Instr) body
  end.

(* run the block described by [H : code l = pre ++ body] from its position
   [length pre] up to and including its terminator *)
Ltac go_block_at H code l pre body :=
  split_body body ltac:(fun ins rest =>
    lazymatch rest with
    | Br ?d :: ?rest' =>
        eapply (reaches_block_br code l _ _ pre ins d rest');
        [ exact H | try reflexivity | reflexivity | machine_go; reflexivity | ]
    | CondBr ?c ?t ?f :: ?rest' =>
        eapply (reaches_block_condbr code l _ _ pre ins c t f rest');
        [ exact H | try reflexivity | reflexivity | machine_go; reflexivity
        | machine_go; reflexivity | ]
    | Ret ?v :: ?rest' =>
        eapply (reaches_block_ret code l _ _ pre ins v rest');
        [ exact H | try reflexivity | reflexivity | machine_go; reflexivity
        | machine_go; reflexivity ]
    end).
Ltac go_block H :=
  lazymatch type of H with
  | ?code ?l = ?pre ++ ?body => go_block_at H code l pre body
  | ?code ?l = ?body => go_block_at H code l (@nil Instr) body
  end.

(** ** The linear-bucket helper (createLinearFunction) *)

(** What the helper computes on 64-bit arguments, given as unsigned
    representatives: the two range tests are signed comparisons (ICmpSLT,
    ICmpSGT), the subtraction and the increment wrap at 64 bits and the
    division is unsigned. *)
Definition linear_result (value min max step_ : Z) : Z :=
  if to_signed 64 value <? to_signed 64 min then 0
  else if to_signed 64 max <? to_signed 64 value
       then (((max - min) mod 2 ^ 64) / step_ + 1) mod 2 ^ 64
       else (((value - min) mod 2 ^ 64) / step_ + 1) mod 2 ^ 64.

(** The reading in which the two range tests are unsigned as well. *)
Definition linear_all_unsigned (value min max step_ : Z) : Z :=
  if value <? min then 0
  else if max <? value
       then (((max - min) mod 2 ^ 64) / step_ + 1) mod 2 ^ 64
       else (((value - min) mod 2 ^ 64) / step_ + 1) mod 2 ^ 64.

(** Running the helper emitted from generator state [st] on four arguments. *)
Definition run_linear (st : CodegenLLVM) (value min max step_ : Z) (hr : nat -> Z)
  : option RVal :=
  match createLinearFunction st with
  | Ok (f, st') =>
      result_of (run 40 (block_instrs (module_ (b_ st')) f) (O, O)
                   (machine_init [RInt 64 value; RInt 64 min; RInt 64 max; RInt 64 step_] hr))
  | Fatal _ => None
  end.

(** C3 (as amended): from any generator state the helper is emitted without
    error and, on 64-bit arguments with a non-zero step, returns 0 when
    value < min as signed numbers, 1 + (max - min) / step when value > max as
    signed numbers, and 1 + (value - min) / step otherwise, where the
    subtraction, the unsigned division and the increment are 64-bit
    operations. *)
Theorem C3_linear_signed_range_tests st value min max step_ hr :
  0 <= value < 2 ^ 64 -> 0 <= min < 2 ^ 64 -> 0 <= max < 2 ^ 64 ->
  0 < step_ < 2 ^ 64 ->
  run_linear st value min max step_ hr = Some (RInt 64 (linear_result value min max step_)).
Proof.
  intros Hv Hmin Hmax Hstep. unfold run_linear.
  destruct (createLinearFunction st) as [[f st']|msg] eqn:H.
  2:{ destruct st as [[m ip n] e d v ids npi pf ts ul cx lp cap].
      unfold createLinearFunction in H. facade H. discriminate H. }
  destruct st as [[m ip n] e d v ids npi pf ts ul cx lp cap].
  unfold createLinearFunction in H.
  facade H.
  rewrite !alter_snoc in H.
  norm_labels H.
  cbn [fn_blocks set_fn_section set_fn_always_inline length] in H.
  apply Ok_pair_inv in H.
  destruct H as [<- <-].
  cbn [b_ module_].
  match goal with
  | |- context [block_instrs ?M (length m)] =>
      match M with
      | context [ ?a ++ [?fn] ] =>
          let r := reify_m (length m) M (a ++ [fn]) in
          let r' := eval cbn [app] in r in
          change M with (mrun (length m) r' (a ++ [fn]));
          destruct (mrun_spec (length m) r' (a ++ [fn])) as (_ & _ & Hcode & _);
          [| | set (code := block_instrs (mrun (length m) r' (a ++ [fn])) (length m)) in * ]
      end
  end.
  { rewrite length_app. simpl. lia. }
  { rewrite num_blocks_snoc. cbn. repeat split; lia. }
  pose proof (Hcode 0%nat) as H0. pose proof (Hcode 1%nat) as H1.
  pose proof (Hcode 2%nat) as H2. pose proof (Hcode 3%nat) as H3.
  pose proof (Hcode 4%nat) as H4.
  clear Hcode.
  rewrite block_instrs_snoc in H0, H1, H2, H3, H4.
  cbn [mcollect Nat.eqb app fn_code fn_blocks set_fn_section set_fn_always_inline
       lookup list_lookup] in H0, H1, H2, H3, H4.
  unfold linear_result.
  destruct (to_signed 64 value <? to_signed 64 min) eqn:E1;
    [| destruct (to_signed 64 max <? to_signed 64 value) eqn:E2 ].
  - eapply result_of_reaches.
    + go_block H0. cbn [eval_icmp]. rewrite E1. cbn [Z.eqb].
      go_block H1.
    + cbn. lia.
  - eapply result_of_reaches.
    + go_block H0. cbn [eval_icmp]. rewrite E1. cbn [Z.eqb].
      go_block H2. cbn [eval_icmp]. rewrite E2. cbn [Z.eqb].
      go_block H4.
    + cbn. lia.
  - eapply result_of_reaches.
    + go_block H0. cbn [eval_icmp]. rewrite E1. cbn [Z.eqb].
      go_block H2. cbn [eval_icmp]. rewrite E2. cbn [Z.eqb].
      go_block H3.
    + cbn. lia.
Qed.

Lemma C3_linear_witness :
  run_linear CodegenLLVM_init 25 10 100 10 (fun _ => 0) = Some (RInt 64 2).
Proof.
  apply (C3_linear_signed_range_tests CodegenLLVM_init 25 10 100 10 (fun _ => 0)); lia.
Defined.

(** The claim read with unsigned range tests fails: a value with the top bit
    set is below [min = 0] for the helper, which returns bucket 0, while the
    unsigned reading puts it above [max]. *)
Lemma C3_linear_counterexample :
  run_linear CodegenLLVM_init (2 ^ 63) 0 100 10 (fun _ => 0) = Some (RInt 64 0)
  /\ linear_all_unsigned (2 ^ 63) 0 100 10 = 11.
Proof. split; vm_compute; reflexivity. Qed.

(** * What every lowering keeps: locality of the emitted code *)

(** Induction over expressions and maps, through the argument lists. *)
Section Expression_induction.
Variable P : Expression -> Prop.
Variable Q : Map -> Prop.
Hypothesis HInteger : forall n ty, P (Integer n ty).
Hypothesis HString : forall str ty, P (String str ty).
Hypothesis HBuiltin : forall ident ty, P (Builtin ident ty).
Hypothesis HVariable : forall ident ty, P (Variable_ ident ty).
Hypothesis HMapExpr : forall m, Q m -> P (MapExpr m).
Hypothesis HBinop : forall l op r ty, P l -> P r -> P (Binop l op r ty).
Hypothesis HCall : forall func map vargs ty,
  from_option Q True map -> Forall P vargs -> P (Call func map vargs ty).
Hypothesis HMap : forall ident vargs ty,
  from_option (Forall P) True vargs -> Q (mkMap ident vargs ty).

Fixpoint Expression_Map_ind (e : Expression) : P e :=
  match e with
  | Integer n ty => HInteger n ty
  | String str ty => HString str ty
  | Builtin ident ty => HBuiltin ident ty
  | Variable_ ident ty => HVariable ident ty
  | MapExpr m => HMapExpr m (Map_Expression_ind m)
  | Binop l op r ty => HBinop l op r ty (Expression_Map_ind l) (Expression_Map_ind r)
  | Call func map vargs ty =>
      HCall func map vargs ty
        (match map return from_option Q True map with
         | Some m0 => Map_Expression_ind m0
         | None => I
         end)
        ((fix go (l : list Expression) : Forall P l :=
            match l with
            | [] => @List.Forall_nil _ P
            | x :: r => @List.Forall_cons _ P x r (Expression_Map_ind x) (go r)
            end) vargs)
  end
with Map_Expression_ind (m : Map) : Q m :=
  match m with
  | mkMap ident vargs ty =>
      HMap ident vargs ty
        (match vargs return from_option (Forall P) True vargs with
         | Some l0 =>
             (fix go (l : list Expression) : Forall P l :=
                match l with
                | [] => @List.Forall_nil _ P
                | x :: r => @List.Forall_cons _ P x r (Expression_Map_ind x) (go r)
                end) l0
         | None => I
         end)
  end.
End Expression_induction.

Section Statement_induction.
Variable P : Statement -> Prop.
Hypothesis HExpr : forall e, P (ExprStatement e).
Hypothesis HAssignMap : forall m e, P (AssignMapStatement m e).
Hypothesis HAssignVar : forall x ty e, P (AssignVarStatement x ty e).
Hypothesis HIf : forall c ss es,
  Forall P ss -> from_option (Forall P) True es -> P (If c ss es).
Hypothesis HUnroll : forall n ss, Forall P ss -> P (Unroll n ss).
Hypothesis HJump : forall j, P (Jump j).
Hypothesis HWhile : forall c ss, Forall P ss -> P (While c ss).

Fixpoint Statement_list_ind (s : Statement) : P s :=
  let go := fix go (l : list Statement) : Forall P l :=
              match l with
              | [] => @List.Forall_nil _ P
              | x :: r => @List.Forall_cons _ P x r (Statement_list_ind x) (go r)
              end in
  match s with
  | ExprStatement e => HExpr e
  | AssignMapStatement m e => HAssignMap m e
  | AssignVarStatement x ty e => HAssignVar x ty e
  | If c ss es =>
      HIf c ss es (go ss)
        (match es return from_option (Forall P) True es with
         | Some l => go l
         | None => I
         end)
  | Unroll n ss => HUnroll n ss (go ss)
  | Jump j => HJump j
  | While c ss => HWhile c ss (go ss)
  end.
End Statement_induction.

(** ** Local growth of the module during a lowering *)

Definition cur_fn (s : CodegenLLVM) : nat := fst (insert_block (b_ s)).
Definition cur_bb (s : CodegenLLVM) : nat := snd (insert_block (b_ s)).
Definition nblocks (s : CodegenLLVM) : nat := num_blocks (module_ (b_ s)) (cur_fn s).

(** The insertion point names a block that exists. *)
Definition wf (s : CodegenLLVM) : Prop :=
  (cur_fn s < length (module_ (b_ s)))%nat /\ (cur_bb s < nblocks s)%nat.

Definition targets (i : Instr) : list nat :=
  match i with
  | Br d => [d]
  | CondBr _ t f => [t; f]
  | _ => []
  end.

(** Events of a lowering that started at block [l0] of a function with [n0]
    blocks, [n] being the number of blocks now: instructions go to [l0] or to
    blocks created since, and branches go to blocks created since (and
    before the branch) or to the targets [T] known at the start. *)
Fixpoint evs_ok (T : nat -> Prop) (l0 n0 n : nat) (evs : list MEvent) : Prop :=
  match evs with
  | [] => True
  | MInstr l i :: r =>
      ((l = l0 \/ n0 <= l) /\ l < n
       /\ Forall (fun t => (n0 <= t /\ t < n) \/ T t) (targets i))%nat
      /\ evs_ok T l0 n0 n r
  | MNew _ :: r => evs_ok T l0 n0 (S n) r
  end.

(** Bindings of script variables are only ever added, and what is added is
    either the null entry of [operator[]] or a cell numbered in [a, b). *)
Definition var_grows (a b : nat) (V V' : gmap string Value) : Prop :=
  V ⊆ V' /\
  forall x v, V' !! x = Some v -> V !! x = None ->
    v = NullValue \/ exists id t, v = AllocaInst id t /\ (a <= id < b)%nat.

Record Rev (T : nat -> Prop) (evs : list MEvent) (s0 s : CodegenLLVM) : Prop := mkRev {
  rev_module : module_ (b_ s) = mrun (cur_fn s0) evs (module_ (b_ s0));
  rev_ok : evs_ok T (cur_bb s0) (nblocks s0) (nblocks s0) evs;
  rev_fn : cur_fn s = cur_fn s0;
  rev_bb : (cur_bb s = cur_bb s0 \/ nblocks s0 <= cur_bb s)%nat
           /\ (cur_bb s < nblocks s0 + mcount evs)%nat;
  rev_nv : (next_value (b_ s0) <= next_value (b_ s))%nat;
  rev_ctx : ctx_ s = ctx_ s0;
  rev_npi : next_probe_index_ s = next_probe_index_ s0;
  rev_probefull : probefull_ s = probefull_ s0;
  rev_tp : tracepoint_struct_ s = tracepoint_struct_ s0;
  rev_usdt : current_usdt_location_index_ s = current_usdt_location_index_ s0;
  rev_cap : current_attach_point_ s = current_attach_point_ s0;
  rev_vars : var_grows (next_value (b_ s0)) (next_value (b_ s)) (variables_ s0) (variables_ s)
}.

Definition R (T : nat -> Prop) (s0 s : CodegenLLVM) : Prop := exists evs, Rev T evs s0 s.

Lemma evs_ok_mvalid T l0 n0 evs : forall n, evs_ok T l0 n0 n evs -> mvalid n evs.
Proof.
  induction evs as [|[l i|name] evs IH]; intros n H; simpl in *; auto.
  destruct H as [(_ & Hl & _) H]. split; auto.
Qed.

Lemma evs_ok_app T l0 n0 a : forall n b,
  evs_ok T l0 n0 n (a ++ b) <-> evs_ok T l0 n0 n a /\ evs_ok T l0 n0 (n + mcount a) b.
Proof.
  induction a as [|[l i|name] a IH]; intros n b; simpl.
  - rewrite Nat.add_0_r. tauto.
  - rewrite IH. tauto.
  - rewrite IH. replace (S n + mcount a)%nat with (n + S (mcount a))%nat by lia. tauto.
Qed.

Lemma evs_ok_mono_T T l0 n0 evs : forall n (T' : nat -> Prop),
  (forall t, T' t -> T t) -> evs_ok T' l0 n0 n evs -> evs_ok T l0 n0 n evs.
Proof.
  induction evs as [|[l i|name] evs IH]; intros n T' HT H; simpl in *; eauto.
  destruct H as [(Hl' & Hlt & Ht) H]. split; [|eauto].
  split; [exact Hl'|]. split; [exact Hlt|].
  eapply Forall_impl; [exact Ht|]. simpl. intros t [Ht'|Ht']; auto.
Qed.

Lemma evs_ok_weaken T T' l0 n0 l1 n1 evs : forall n,
  (l1 = l0 \/ n0 <= l1)%nat -> (n0 <= n1)%nat ->
  (forall t, T' t -> (n0 <= t /\ t < n)%nat \/ T t) ->
  evs_ok T' l1 n1 n evs -> evs_ok T l0 n0 n evs.
Proof.
  intros n Hl Hn. revert n.
  induction evs as [|[l i|name] evs IH]; intros n HT H; simpl in *; auto.
  - destruct H as [(Hl' & Hlt & Ht) H]. split; [|auto].
    split; [lia|]. split; [exact Hlt|].
    eapply Forall_impl; [exact Ht|]. simpl. intros t [Ht'|Ht']; [left; lia|].
    destruct (HT t Ht'); auto.
  - apply IH; [|exact H]. intros t Ht. destruct (HT t Ht); [left; lia|auto].
Qed.

Lemma mcount_app a b : mcount (a ++ b) = (mcount a + mcount b)%nat.
Proof. induction a as [|[l i|name] a IH]; simpl; auto. Qed.

Lemma mcollect_app a b l : mcollect (a ++ b) l = mcollect a l ++ mcollect b l.
Proof.
  induction a as [|[l' i|name] a IH]; simpl; auto.
  rewrite IH, app_assoc. reflexivity.
Qed.

Lemma mrun_app f a b m : mrun f (a ++ b) m = mrun f b (mrun f a m).
Proof. unfold mrun. apply fold_left_app. Qed.

Lemma var_grows_refl a b V : var_grows a b V V.
Proof. split; [reflexivity|]. intros x v H1 H2. congruence. Qed.

Lemma var_grows_trans a b c V1 V2 V3 :
  (a <= b <= c)%nat -> var_grows a b V1 V2 -> var_grows b c V2 V3 -> var_grows a c V1 V3.
Proof.
  intros Habc [S1 N1] [S2 N2]. split; [etrans; eauto|].
  intros x v H3 H1.
  destruct (V2 !! x) as [v2|] eqn:E2.
  - assert (V3 !! x = Some v2) as E3 by (eapply lookup_weaken; eauto).
    rewrite E3 in H3. injection H3 as <-.
    destruct (N1 x v2 E2 H1) as [?|(id & t & -> & ?)]; [auto|].
    right. exists id, t. split; [reflexivity|lia].
  - destruct (N2 x v H3 E2) as [?|(id & t & -> & ?)]; [auto|].
    right. exists id, t. split; [reflexivity|lia].
Qed.

(** What [Rev] says about the blocks, given a well-formed start. *)
Lemma Rev_spec T evs s0 s :
  wf s0 -> Rev T evs s0 s ->
  length (module_ (b_ s)) = length (module_ (b_ s0))
  /\ nblocks s = (nblocks s0 + mcount evs)%nat
  /\ (forall l, block_instrs (module_ (b_ s)) (cur_fn s0) l
                = block_instrs (module_ (b_ s0)) (cur_fn s0) l ++ mcollect evs l)
  /\ (forall f', f' <> cur_fn s0 -> module_ (b_ s) !! f' = module_ (b_ s0) !! f')
  /\ wf s.
Proof.
  intros [Hf Hl] H.
  destruct (mrun_spec (cur_fn s0) evs (module_ (b_ s0)) Hf) as (H1 & H2 & H3 & H4).
  { eapply evs_ok_mvalid. exact (rev_ok _ _ _ _ H). }
  rewrite <- (rev_module _ _ _ _ H) in *.
  assert (nblocks s = (nblocks s0 + mcount evs)%nat) as Hn.
  { unfold nblocks at 1. rewrite (rev_fn _ _ _ _ H). unfold nblocks. lia. }
  split; [exact H1|]. split; [exact Hn|]. split; [exact H3|]. split; [exact H4|].
  split.
  - rewrite (rev_fn _ _ _ _ H), H1. exact Hf.
  - rewrite Hn. exact (proj2 (rev_bb _ _ _ _ H)).
Qed.

Lemma R_wf T s0 s : wf s0 -> R T s0 s -> wf s.
Proof. intros Hwf [evs H]. apply (Rev_spec T evs s0 s Hwf H). Qed.

Lemma Rev_refl T s : wf s -> Rev T [] s s.
Proof.
  intros [Hf Hl]. constructor; simpl; auto.
  - split; [left; reflexivity|lia].
  - apply var_grows_refl.
Qed.

Lemma R_refl T s : wf s -> R T s s.
Proof. intros H. exists []. apply Rev_refl. exact H. Qed.

Lemma Rev_trans T T' evs1 evs2 s0 s1 s2 :
  wf s0 ->
  (forall t, T' t -> (nblocks s0 <= t /\ t < nblocks s1)%nat \/ T t) ->
  Rev T evs1 s0 s1 -> Rev T' evs2 s1 s2 -> Rev T (evs1 ++ evs2) s0 s2.
Proof.
  intros Hwf HT H1 H2.
  destruct (Rev_spec _ _ _ _ Hwf H1) as (L1 & N1 & B1 & O1 & Hwf1).
  destruct H1 as [M1 K1 F1 [BB1 BB1'] V1 C1 P1 PF1 TP1 U1 CA1 VA1].
  destruct H2 as [M2 K2 F2 [BB2 BB2'] V2 C2 P2 PF2 TP2 U2 CA2 VA2].
  constructor; try congruence.
  - rewrite M2, M1, F1, mrun_app. reflexivity.
  - apply evs_ok_app. split; [exact K1|].
    rewrite <- N1. eapply evs_ok_weaken; [| | |exact K2]; auto. lia.
  - rewrite mcount_app. split; lia.
  - lia.
  - eapply var_grows_trans; [|exact VA1|exact VA2]. lia.
Qed.

Lemma R_trans T T' s0 s1 s2 :
  wf s0 ->
  (forall t, T' t -> (nblocks s0 <= t /\ t < nblocks s1)%nat \/ T t) ->
  R T s0 s1 -> R T' s1 s2 -> R T s0 s2.
Proof.
  intros Hwf HT [e1 H1] [e2 H2]. exists (e1 ++ e2). eapply Rev_trans; eauto.
Qed.

Lemma var_grows_insert_null a b V x :
  V !! x = None -> var_grows a b V (<[x := NullValue]> V).
Proof.
  intros Hx. split.
  - apply insert_subseteq. exact Hx.
  - intros y v Hy Hn. destruct (decide (x = y)) as [->|Hne].
    + rewrite lookup_insert_eq in Hy. injection Hy as <-. auto.
    + rewrite lookup_insert_ne in Hy by exact Hne. congruence.
Qed.

Lemma var_grows_insert_alloca a b V x id t :
  V !! x = None -> (a <= id < b)%nat -> var_grows a b V (<[x := AllocaInst id t]> V).
Proof.
  intros Hx Hid. split.
  - apply insert_subseteq. exact Hx.
  - intros y v Hy Hn. destruct (decide (x = y)) as [->|Hne].
    + rewrite lookup_insert_eq in Hy. injection Hy as <-. right. exists id, t. auto.
    + rewrite lookup_insert_ne in Hy by exact Hne. congruence.
Qed.

Lemma bind_inv {A B} (m : M A) (k : A -> M B) s r :
  bind m k s = Ok r -> exists a s1, m s = Ok (a, s1) /\ k a s1 = Ok r.
Proof.
  unfold bind. destruct (m s) as [[a s1]|]; [|discriminate].
  intros H. exists a, s1. auto.
Qed.

Lemma Rev_extend T evs evs2 s0 s1 s2 :
  wf s0 -> Rev T evs s0 s1 ->
  module_ (b_ s2) = mrun (cur_fn s0) evs2 (module_ (b_ s1)) ->
  evs_ok T (cur_bb s0) (nblocks s0) (nblocks s1) evs2 ->
  cur_fn s2 = cur_fn s0 ->
  ((cur_bb s2 = cur_bb s0 \/ nblocks s0 <= cur_bb s2)
   /\ cur_bb s2 < nblocks s1 + mcount evs2)%nat ->
  (next_value (b_ s1) <= next_value (b_ s2))%nat ->
  ctx_ s2 = ctx_ s1 ->
  next_probe_index_ s2 = next_probe_index_ s1 ->
  probefull_ s2 = probefull_ s1 ->
  tracepoint_struct_ s2 = tracepoint_struct_ s1 ->
  current_usdt_location_index_ s2 = current_usdt_location_index_ s1 ->
  current_attach_point_ s2 = current_attach_point_ s1 ->
  var_grows (next_value (b_ s1)) (next_value (b_ s2)) (variables_ s1) (variables_ s2) ->
  Rev T (evs ++ evs2) s0 s2.
Proof.
  intros Hwf H1 HM HK HF HB HN HC HP HPF HTP HU HCA HV.
  destruct (Rev_spec _ _ _ _ Hwf H1) as (L1 & N1 & B1 & O1 & Hwf1).
  destruct H1 as [M1 K1 F1 [BB1 BB1'] V1 C1 P1 PF1 TP1 U1 CA1 VA1].
  constructor; try congruence.
  - rewrite HM, M1, mrun_app. reflexivity.
  - apply evs_ok_app. split; [exact K1|]. rewrite <- N1. exact HK.
  - rewrite mcount_app. split; [tauto|lia].
  - lia.
  - eapply var_grows_trans; [|exact VA1|exact HV]. lia.
Qed.

(** What a lowering guarantees: local growth, the loop stack as before, and a
    pending deleter, when there is one, for a stack cell. *)
Definition Post (T : nat -> Prop) (s s' : CodegenLLVM) : Prop :=
  R T s s'
  /\ loops_ s' = loops_ s
  /\ (expr_deleter_ s' = expr_deleter_ s \/ expr_deleter_ s' = None
      \/ exists id t, expr_deleter_ s' = Some (AllocaInst id t)).

Ltac find_label2 T k :=
  match T with
  | context [num_blocks ?M ?f] =>
      lazymatch M with
      | minsert _ _ _ _ => idtac
      | mnew _ _ _ => idtac
      | _ ++ _ => idtac
      end;
      first [ find_label2 M k | k M f ]
  end.

Ltac norm_labels2 H :=
  repeat (let T := type of H in
          find_label2 T ltac:(fun M f =>
            let E := fresh "E" in
            eassert (E : num_blocks M f = _);
            [ norm_num_blocks; reflexivity
            | rewrite E in H; clear E ])).

Ltac facade' H :=
  cbv beta iota zeta delta
    [bind ret fatal gets modify emit fresh set_expr get_expr getParent scope_exit accept
     CreateAllocaBPF CreateAllocaBPFInit CreateLifetimeEnd CreateStore CreateLoad CreateGEP
     CreateBinOp CreateAdd CreateSub CreateMul CreateUDiv CreateURem CreateShl CreateLShr
     CreateAnd CreateOr CreateXor CreateICmp CREATE_MEMCPY CREATE_MEMSET
     GetInsertBlock SetInsertPoint saveIP restoreIP BasicBlock_Create Function_Create
     setSection addFnAttr_AlwaysInline CreateBr CreateCondBr CreateRet CreateHelperCall
     CreateMapUpdateElem CreateMapDeleteElem CreatePerfEventOutput CreateStrcmp CreateStrncmp
     CreateIntCast CreateMapLookupElem
     variables_at front at_ back deref_map
     b_ expr_ expr_deleter_ variables_ ids_ next_probe_index_ probefull_ tracepoint_struct_
     current_usdt_location_index_ ctx_ loops_ current_attach_point_
     with_b with_expr with_expr_deleter with_variables with_ids with_next_probe_index
     with_probefull with_tracepoint_struct with_usdt_location_index with_ctx with_loops
     with_current_attach_point module_
     next_value insert_block add_instr new_block set_insert_block bump set_module
     set_next_value fst snd getInt64Ty] in H.

(* the scrutinee on which a stuck computation waits *)
Ltac stuck_on t k :=
  lazymatch t with
  | match ?x with _ => _ end => stuck_on x k
  | if ?x then _ else _ => stuck_on x k
  | (match ?x with _ => _ end) _ => stuck_on x k
  | (if ?x then _ else _) _ => stuck_on x k
  | _ => k t
  end.

Ltac res_cases H :=
  repeat lazymatch type of H with
    | Ok _ = Ok _ => fail
    | Fatal _ = Ok _ => discriminate H
    | ?lhs = Ok _ =>
        stuck_on lhs ltac:(fun x =>
          first [ match goal with E : x = _ |- _ => rewrite E in H end
                | progress (rewrite lookup_insert_eq in H)
                | destruct x eqn:? ]);
        facade' H
    end.

Ltac ok_inv H :=
  apply Ok_pair_inv in H;
  let Ha := fresh "Ha" in let Hs := fresh "Hs" in
  destruct H as [Ha Hs];
  (lazymatch type of Ha with
   | _ = ?a => first [is_var a; subst a | clear Ha | idtac]
   end);
  (lazymatch type of Hs with
   | _ = ?s => first [is_var s; subst s | idtac]
   end).

Ltac prim H :=
  facade' H; try norm_labels2 H; try rewrite lookup_insert_eq in H; res_cases H; ok_inv H.

(** The branch targets that the loop stack offers to [break] and [continue]. *)
Definition looptargets (L : list (BB * BB)) (t : nat) : Prop :=
  exists p, In p L /\ (snd (fst p) = t \/ snd (snd p) = t).

Lemma looptargets_snoc L p t :
  looptargets (L ++ [p]) t -> looptargets L t \/ t = snd (fst p) \/ t = snd (snd p).
Proof.
  intros (q & Hin & Hq). apply in_app_or in Hin. destruct Hin as [Hin|[<-|[]]].
  - left. exists q. auto.
  - right. destruct Hq; auto.
Qed.

Lemma looptargets_back L p t :
  last L = Some p -> (snd (fst p) = t \/ snd (snd p) = t) -> looptargets L t.
Proof.
  intros Hl Ht. exists p. split; [|exact Ht].
  apply last_Some in Hl. destruct Hl as [l' ->]. apply in_or_app. right. left. reflexivity.
Qed.

Ltac has_post_hyp m :=
  match goal with
  | IH : (forall T s s', wf s -> m s = Ok (tt, s') -> Post T s s') |- _ => idtac
  | IH : (forall T s a s', wf s -> m s = Ok (a, s') -> Post T s s') |- _ => idtac
  | IH : (forall s s', wf s -> m s = Ok (tt, s') -> Post (looptargets (loops_ s)) s s')
    |- _ => idtac
  end.

Ltac minv hook H :=
  lazymatch type of H with
  | bind ?m ?k ?S = Ok ?r =>
      let a := fresh "a" in let s1 := fresh "s" in
      let H1 := fresh "Hm" in let H2 := fresh "Hk" in
      apply bind_inv in H; destruct H as (a & s1 & H1 & H2);
      minv hook H1; cbv beta in H2; minv hook H2
  | accept _ _ = _ => unfold accept in H; minv hook H
  | visit _ _ _ = _ => hook H
  | visit_stmt _ _ _ = _ => hook H
  | repeatM _ _ _ = _ => hook H
  | getMapKey _ _ _ = _ => hook H
  | getMapKey_loop _ _ _ _ _ = _ => hook H
  | createLogicalAnd _ _ _ _ = _ => hook H
  | createLogicalOr _ _ _ _ = _ => hook H
  | CreateIntCast _ _ _ _ = _ => hook H
  | scope_exit _ _ = _ => hook H
  | binop_int _ _ _ _ _ = _ => hook H
  | forM _ _ _ = _ => hook H
  | (if ?b then _ else _) _ = _ => destruct b eqn:?; minv hook H
  | (match ?x with _ => _ end) _ = _ => destruct x eqn:?; minv hook H
  | ?m _ = _ => first [has_post_hyp m; hook H | is_var m; hook H | prim H]
  end.


Ltac proj_cbn :=
  unfold nblocks, cur_fn, cur_bb;
  cbn [cur_fn cur_bb nblocks b_ expr_ expr_deleter_ variables_ ids_ next_probe_index_
       probefull_ tracepoint_struct_ current_usdt_location_index_ ctx_ loops_
       current_attach_point_ module_ insert_block next_value fst snd].
Ltac proj_cbn_in H :=
  unfold nblocks, cur_fn, cur_bb in H;
  cbn [cur_fn cur_bb nblocks b_ expr_ expr_deleter_ variables_ ids_ next_probe_index_
       probefull_ tracepoint_struct_ current_usdt_location_index_ ctx_ loops_
       current_attach_point_ module_ insert_block next_value fst snd] in H.

Ltac norm_labels_goal :=
  repeat (lazymatch goal with
          | |- ?G =>
              find_label2 G ltac:(fun M f =>
                let E := fresh "E" in
                eassert (E : num_blocks M f = _);
                [ norm_num_blocks; reflexivity
                | rewrite E; clear E ])
          end).

Ltac solve_targets :=
  repeat first [ apply Forall_nil_2
               | apply Forall_cons_2; [first [left; lia | right; assumption | right; solve [eauto using looptargets_back]]|] ].

Ltac seg_side :=
  proj_cbn; cbn [evs_ok targets mcount];
  first
    [ reflexivity
    | apply var_grows_refl
    | apply var_grows_insert_null; assumption
    | apply var_grows_insert_alloca; [assumption | lia]
    | lia
    | (split; [lia | lia])
    | (norm_labels_goal;
       repeat lazymatch goal with
         | |- _ /\ _ => split
         | |- True => exact I
         | |- Forall _ _ => solve_targets
         | |- _ => lia
         end) ].

(* extend [HR : Rev T evs S0 sigma] by the builder calls that lead from
   [sigma] to the explicit state [S'] *)
Ltac seg_extend HR Hwf0 S' :=
  lazymatch type of HR with
  | Rev ?T ?evs ?S0 ?sg =>
      let f := eval cbv beta iota delta [cur_fn fst insert_block b_] in (cur_fn S0) in
      let Msg := eval cbv beta iota delta [module_ b_] in (module_ (b_ sg)) in
      let M' := eval cbv beta iota delta [module_ b_] in (module_ (b_ S')) in
      let r := reify_m f M' Msg in
      let r' := eval cbn [app] in r in
      let HR' := fresh "HR" in
      assert (HR' : Rev T (evs ++ r') S0 S');
      [ apply (Rev_extend T evs r' S0 sg S' Hwf0 HR);
        solve [seg_side]
      | clear HR; rename HR' into HR ]
  end.


Lemma Post_facts T T' evs s0 sp s1 :
  wf s0 -> Rev T evs s0 sp -> Post T' sp s1 ->
  (forall t, T' t -> (nblocks s0 <= t /\ t < nblocks sp)%nat \/ T t) ->
  exists evs1,
    Rev T evs1 s0 s1
    /\ wf s1
    /\ nblocks s1 = (nblocks s0 + mcount evs1)%nat
    /\ (nblocks sp <= nblocks s1)%nat
    /\ cur_fn s1 = cur_fn sp
    /\ (cur_bb s1 = cur_bb sp \/ nblocks sp <= cur_bb s1)%nat
    /\ (next_value (b_ sp) <= next_value (b_ s1))%nat
    /\ ctx_ s1 = ctx_ sp
    /\ next_probe_index_ s1 = next_probe_index_ sp
    /\ probefull_ s1 = probefull_ sp
    /\ tracepoint_struct_ s1 = tracepoint_struct_ sp
    /\ current_usdt_location_index_ s1 = current_usdt_location_index_ sp
    /\ current_attach_point_ s1 = current_attach_point_ sp
    /\ loops_ s1 = loops_ sp
    /\ var_grows (next_value (b_ sp)) (next_value (b_ s1)) (variables_ sp) (variables_ s1)
    /\ (expr_deleter_ s1 = expr_deleter_ sp \/ expr_deleter_ s1 = None
        \/ exists id t, expr_deleter_ s1 = Some (AllocaInst id t)).
Proof.
  intros Hwf HR ((evv & Hv) & HL & HD) HT.
  destruct (Rev_spec _ _ _ _ Hwf HR) as (_ & _ & _ & _ & Hwfp).
  pose proof (Rev_trans T T' evs evv s0 sp s1 Hwf HT HR Hv) as HR1.
  destruct (Rev_spec _ _ _ _ Hwf HR1) as (_ & N1 & _ & _ & Hwf1).
  destruct (Rev_spec _ _ _ _ Hwfp Hv) as (_ & N2 & _ & _ & _).
  exists (evs ++ evv).
  destruct Hv as [M1 K1 F1 [BB1 BB1'] V1 C1 P1 PF1 TP1 U1 CA1 VA1].
  repeat (split; [first [assumption | lia]|]). exact HD.
Qed.

Ltac solve_T :=
  proj_cbn; norm_labels_goal;
  let t := fresh "t" in let Ht := fresh "Ht" in
  intros t Ht;
  first [ right; exact Ht
        | apply looptargets_snoc in Ht; cbn [fst snd] in Ht;
          destruct Ht as [Ht|[Ht|Ht]]; [right; exact Ht | left; lia | left; lia] ].

Ltac inv_Forall :=
  repeat match goal with
    | HF : Forall _ (_ :: _) |- _ =>
        let H1 := fresh "IHhd" in let H2 := fresh "IHtl" in
        apply Forall_cons_1 in HF; destruct HF as [H1 H2]; cbv beta in H1
    end.

(* the postcondition of the sub-lowering [H : m Spre = Ok (a, s1)], from a
   hypothesis about [m] *)
Ltac find_post_hyp T Spre s1 Hwfp H :=
  lazymatch type of H with
  | ?m Spre = Ok (?a, s1) =>
      match goal with
      | IH : (forall T s s', wf s -> m s = Ok (tt, s') -> Post T s s') |- _ =>
          exact (IH T Spre s1 Hwfp H)
      | IH : (forall T s a s', wf s -> m s = Ok (a, s') -> Post T s s') |- _ =>
          exact (IH T Spre a s1 Hwfp H)
      | IH : (forall k T o s s', wf s -> getMapKey_loop ?v k ?es o s = Ok (tt, s') -> Post T s s')
        |- _ =>
          lazymatch m with
          | getMapKey_loop v ?k es ?o => exact (IH k T o Spre s1 Hwfp H)
          end
      | IH : (forall T o s s', wf s -> getMapKey_loop ?v ?k ?es o s = Ok (tt, s') -> Post T s s')
        |- _ =>
          lazymatch m with
          | getMapKey_loop v k es ?o => exact (IH T o Spre s1 Hwfp H)
          end
      end
  end.
Ltac find_post T Spre s1 Hwfp H := find_post_hyp T Spre s1 Hwfp H.
Ltac find_post0 T Spre s1 Hwfp H := fail.
(* for statements: the postcondition relative to the loop stack [L] *)
Ltac find_post_stmt L Spre s1 Hwfp H :=
  lazymatch type of H with
  | ?m Spre = Ok (?a, s1) =>
      match goal with
      | IH : (forall s s', wf s -> m s = Ok (tt, s') -> Post (looptargets (loops_ s)) s s') |- _ =>
          exact (IH Spre s1 Hwfp H)
      end
  end.


(* [H : m Spre = Ok (a, s1)] for a sub-lowering [m], with
   [HR : Rev T evs S0 sigma] and [Hwf0 : wf S0] in the context *)
Ltac sub_hook HR Hwf0 H :=
  lazymatch type of H with
  | _ ?Spre = Ok (?a, ?s1) =>
      try (is_var a; lazymatch type of a with unit => destruct a end);
      seg_extend HR Hwf0 Spre;
      inv_Forall;
      let HP := fresh "HP" in
      let HP0 := fresh "HP" in
      let Hdel := fresh "Hdel" in
      let Hd := fresh "Hd" in
      let HT := fresh "HT" in
      let Hwfp := fresh "Hwfp" in
      lazymatch type of HR with
      | Rev ?T _ ?S0 _ =>
          assert (Hwfp : wf Spre) by exact (R_wf T _ _ Hwf0 (ex_intro _ _ HR));
          first
            [ assert (HP0 : Post T Spre s1 /\ expr_deleter_ s1 = expr_deleter_ Spre)
                by (find_post0 T Spre s1 Hwfp H);
              destruct HP0 as [HP Hdel];
              pose proof (fun (t : nat) (Ht : T t) =>
                            @or_intror (nblocks S0 <= t /\ t < nblocks Spre)%nat _ Ht) as HT
            | assert (HP : Post T Spre s1) by (find_post T Spre s1 Hwfp H);
              pose proof I as Hdel;
              pose proof (fun (t : nat) (Ht : T t) =>
                            @or_intror (nblocks S0 <= t /\ t < nblocks Spre)%nat _ Ht) as HT
            | match goal with
              | IH : forall T s k s', wf s -> getMapKey _ _ s = Ok (k, s') -> _ |- _ =>
                  let Hkey := fresh "Hkey" in
                  destruct (IH T _ _ _ Hwfp H) as [HP Hkey]
              end;
              pose proof I as Hdel;
              pose proof (fun (t : nat) (Ht : T t) =>
                            @or_intror (nblocks S0 <= t /\ t < nblocks Spre)%nat _ Ht) as HT
            | let L := eval cbv beta iota delta [loops_] in (loops_ Spre) in
              assert (HP : Post (looptargets L) Spre s1)
                by (find_post_stmt L Spre s1 Hwfp H);
              pose proof I as Hdel;
              assert (HT : forall t, looptargets L t ->
                                     (nblocks S0 <= t /\ t < nblocks Spre)%nat \/ T t)
                by (solve [solve_T]) ]
      end;
      clear Hwfp;
      let evs1 := fresh "evs" in
      let HR1 := fresh "HR" in
      destruct (Post_facts _ _ _ _ _ _ Hwf0 HR HP HT)
        as (evs1 & HR1 & [? ?] & ? & ? & ? & ? & ? & ? & ? & ? & ? & ? & ? & ? & ? & Hd);
      clear HP HR HT; rename HR1 into HR;
      lazymatch type of Hdel with
      | True => clear Hdel
      | _ => clear Hd
      end;
      let m1 := fresh "m" in let f1 := fresh "f" in let l1 := fresh "l" in
      let n1 := fresh "n" in let e1 := fresh "e" in let d1 := fresh "d" in
      let v1 := fresh "v" in let i1 := fresh "ids" in let np1 := fresh "npi" in
      let pf1 := fresh "pf" in let ts1 := fresh "ts" in let ul1 := fresh "ul" in
      let cx1 := fresh "cx" in let lp1 := fresh "lp" in let cap1 := fresh "cap" in
      destruct s1 as [[m1 [f1 l1] n1] e1 d1 v1 i1 np1 pf1 ts1 ul1 cx1 lp1 cap1];
      repeat match goal with
        | Hx : _ |- _ =>
            lazymatch type of Hx with
            | Rev _ _ _ _ => fail
            | _ = Ok _ => fail
            | _ => progress (proj_cbn_in Hx)
            end
        end;
      repeat match goal with
        | Hx : context [num_blocks (minsert _ _ _ _) _] |- _ =>
            lazymatch type of Hx with
            | _ = Ok _ => fail
            | _ => progress (norm_labels2 Hx)
            end
        | Hx : context [num_blocks (mnew _ _ _) _] |- _ =>
            lazymatch type of Hx with
            | _ = Ok _ => fail
            | _ => progress (norm_labels2 Hx)
            end
        end;
      subst
  end.

Ltac solve_deleter :=
  proj_cbn;
  try solve [ left; reflexivity
            | right; left; reflexivity
            | right; right; eexists _, _; reflexivity ];
  repeat match goal with
    | Hd : _ \/ _ \/ (exists id t, _ = Some (AllocaInst id t)) |- _ =>
        destruct Hd as [Hd|[Hd|(? & ? & Hd)]]
    end;
  repeat match goal with
    | Hd : ?x = _ |- context [?x] => is_var x; rewrite Hd
    end;
  first [ left; congruence
        | right; left; congruence
        | right; right; eexists _, _; first [reflexivity | eassumption | congruence] ].

Ltac finish_post HR Hwf :=
  split; [|split];
  [ eexists;
    lazymatch goal with |- Rev _ _ _ ?S' => seg_extend HR Hwf S' end;
    exact HR
  | proj_cbn; rewrite ?removelast_last; reflexivity
  | solve_deleter ].


(* start of a proof of [Post T s s'] from [H : m s = Ok (a, s')] *)
Ltac post_start s Hwf HR :=
  destruct s as [[?m [?f ?l] ?n] ?e ?d ?v ?ids ?npi ?pf ?ts ?ul ?cx ?lp ?cap];
  lazymatch goal with
  | |- Post ?T _ _ => pose proof (Rev_refl T _ Hwf) as HR
  | |- Post ?T _ _ /\ _ => pose proof (Rev_refl T _ Hwf) as HR
  end;
  let Hlen := fresh "Hlen" in let Hl0 := fresh "Hl0" in
  pose proof Hwf as [Hlen Hl0]; proj_cbn_in Hlen; proj_cbn_in Hl0.

Ltac post_go Hwf HR H :=
  minv ltac:(fun H => sub_hook HR Hwf H) H; finish_post HR Hwf.

Ltac post0_go Hwf HR H :=
  minv ltac:(fun H => sub_hook HR Hwf H) H; (split; [finish_post HR Hwf | reflexivity]).

Lemma CreateIntCast_post T v b sg s r s' :
  wf s -> CreateIntCast v b sg s = Ok (r, s') ->
  Post T s s' /\ expr_deleter_ s' = expr_deleter_ s.
Proof.
  intros Hwf H. post_start s Hwf HR. unfold CreateIntCast in H.
  destruct (decide _); post0_go Hwf HR H.
Qed.

Lemma scope_exit_post T d s r s' :
  wf s -> scope_exit d s = Ok (r, s') ->
  Post T s s' /\ expr_deleter_ s' = expr_deleter_ s.
Proof.
  intros Hwf H. post_start s Hwf HR. destruct d; cbn [scope_exit] in H; post0_go Hwf HR H.
Qed.

Lemma binop_int_post T op sg a b s r s' :
  wf s -> binop_int op sg a b s = Ok (r, s') ->
  Post T s s' /\ expr_deleter_ s' = expr_deleter_ s.
Proof.
  intros Hwf H. post_start s Hwf HR. destruct op; cbn [binop_int] in H; post0_go Hwf HR H.
Qed.

Ltac find_post0 T Spre s1 Hwfp H ::=
  lazymatch type of H with
  | CreateIntCast _ _ _ _ = _ => exact (CreateIntCast_post T _ _ _ _ _ _ Hwfp H)
  | scope_exit _ _ = _ => exact (scope_exit_post T _ _ _ _ Hwfp H)
  | binop_int _ _ _ _ _ = _ => exact (binop_int_post T _ _ _ _ _ _ _ Hwfp H)
  end.

Section VisitPost.
Variable bpftrace_ : BPFtrace.

Definition visit_ok (e : Expression) : Prop :=
  forall T s s', wf s -> visit bpftrace_ e s = Ok (tt, s') -> Post T s s'.
Definition key_shape (k : Value) : Prop :=
  k = NullValue \/ exists id t, k = AllocaInst id t.
Definition getMapKey_ok (m : Map) : Prop :=
  forall T s k s', wf s -> getMapKey bpftrace_ m s = Ok (k, s') -> Post T s s' /\ key_shape k.

Lemma createLogicalAnd_post l r :
  visit_ok l -> visit_ok r ->
  forall T s v s', wf s -> createLogicalAnd (visit bpftrace_) l r s = Ok (v, s') -> Post T s s'.
Proof.
  unfold visit_ok. intros IHl IHr T s v s' Hwf H. post_start s Hwf HR.
  unfold createLogicalAnd in H. post_go Hwf HR H.
Qed.

Lemma createLogicalOr_post l r :
  visit_ok l -> visit_ok r ->
  forall T s v s', wf s -> createLogicalOr (visit bpftrace_) l r s = Ok (v, s') -> Post T s s'.
Proof.
  unfold visit_ok. intros IHl IHr T s v s' Hwf H. post_start s Hwf HR.
  unfold createLogicalOr in H. post_go Hwf HR H.
Qed.

Lemma visit_Integer_ok n ty : visit_ok (Integer n ty).
Proof.
  intros T s s' Hwf H. post_start s Hwf HR. cbn [visit] in H. post_go Hwf HR H.
Qed.

Lemma visit_String_ok str ty : visit_ok (String str ty).
Proof.
  intros T s s' Hwf H. post_start s Hwf HR. cbn [visit] in H. post_go Hwf HR H.
Qed.

Lemma visit_Builtin_ok ident ty : visit_ok (Builtin ident ty).
Proof.
  intros T s s' Hwf H. post_start s Hwf HR. cbn [visit] in H. post_go Hwf HR H.
Qed.

Lemma visit_Variable_ok ident ty : visit_ok (Variable_ ident ty).
Proof.
  intros T s s' Hwf H. post_start s Hwf HR. cbn [visit] in H. post_go Hwf HR H.
Qed.

Lemma getMapKey_loop_post key es :
  Forall visit_ok es ->
  forall T offset s s', wf s -> getMapKey_loop (visit bpftrace_) key es offset s = Ok (tt, s') ->
  Post T s s'.
Proof.
  unfold visit_ok.
  induction es as [|e es IH]; intros HF T offset s s' Hwf H.
  - post_start s Hwf HR. cbn [getMapKey_loop] in H. post_go Hwf HR H.
  - apply Forall_cons_1 in HF. destruct HF as [He HF]. specialize (IH HF).
    post_start s Hwf HR. cbn [getMapKey_loop] in H. post_go Hwf HR H.
Qed.

Ltac solve_key_shape :=
  unfold key_shape;
  repeat match goal with
    | |- context [match ?x with _ => _ end] => destruct x
    end;
  eauto.

Lemma getMapKey_ok_intro ident vargs ty :
  from_option (Forall visit_ok) True vargs -> getMapKey_ok (mkMap ident vargs ty).
Proof.
  intros HF T s k s' Hwf H.
  destruct vargs as [vargs|]; cbn [from_option] in HF.
  - destruct vargs as [|e1 [|e2 es]]; cbn [getMapKey] in H.
    + post_start s Hwf HR.
      pose proof (fun key => getMapKey_loop_post key [] HF) as Hloop.
      minv ltac:(fun H => sub_hook HR Hwf H) H.
      all: (split; [finish_post HR Hwf | solve_key_shape]).
    + post_start s Hwf HR. apply Forall_cons_1 in HF. destruct HF as [He _].
      unfold visit_ok in He.
      minv ltac:(fun H => sub_hook HR Hwf H) H.
      all: (split; [finish_post HR Hwf | solve_key_shape]).
    + post_start s Hwf HR.
      pose proof (fun key => getMapKey_loop_post key (e1 :: e2 :: es) HF) as Hloop.
      minv ltac:(fun H => sub_hook HR Hwf H) H.
      all: (split; [finish_post HR Hwf | solve_key_shape]).
  - post_start s Hwf HR. cbn [getMapKey] in H.
    minv ltac:(fun H => sub_hook HR Hwf H) H.
    all: (split; [finish_post HR Hwf | solve_key_shape]).
Qed.

Lemma visit_MapExpr_ok m : getMapKey_ok m -> visit_ok (MapExpr m).
Proof.
  unfold getMapKey_ok. intros IH T s s' Hwf H. post_start s Hwf HR.
  cbn [visit] in H. post_go Hwf HR H.
Qed.

Lemma visit_Call_ok func map vargs ty :
  from_option getMapKey_ok True map -> Forall visit_ok vargs ->
  visit_ok (Call func map vargs ty).
Proof.
  unfold visit_ok, getMapKey_ok. intros IHm IHv T s s' Hwf H.
  post_start s Hwf HR. cbn [visit] in H.
  destruct map as [map|]; cbn [from_option] in IHm; post_go Hwf HR H.
Qed.


Lemma visit_Binop_ok l op r ty : visit_ok l -> visit_ok r -> visit_ok (Binop l op r ty).
Proof.
  intros IHl IHr T s s' Hwf H.
  pose proof (createLogicalAnd_post l r IHl IHr) as Hand.
  pose proof (createLogicalOr_post l r IHl IHr) as Hor.
  unfold visit_ok in IHl, IHr.
  post_start s Hwf HR. cbn [visit] in H. post_go Hwf HR H.
Qed.

Theorem visit_post : forall e, visit_ok e.
Proof.
  apply (Expression_Map_ind visit_ok getMapKey_ok).
  - apply visit_Integer_ok.
  - apply visit_String_ok.
  - apply visit_Builtin_ok.
  - apply visit_Variable_ok.
  - apply visit_MapExpr_ok.
  - apply visit_Binop_ok.
  - apply visit_Call_ok.
  - apply getMapKey_ok_intro.
Qed.

Theorem getMapKey_post : forall m, getMapKey_ok m.
Proof.
  apply (Map_Expression_ind visit_ok getMapKey_ok).
  - apply visit_Integer_ok.
  - apply visit_String_ok.
  - apply visit_Builtin_ok.
  - apply visit_Variable_ok.
  - apply visit_MapExpr_ok.
  - apply visit_Binop_ok.
  - apply visit_Call_ok.
  - apply getMapKey_ok_intro.
Qed.
End VisitPost.

Ltac find_post T Spre s1 Hwfp H ::=
  lazymatch type of H with
  | visit ?bpftrace_ ?e _ = _ => exact (visit_post bpftrace_ e T _ _ Hwfp H)
  | _ => find_post_hyp T Spre s1 Hwfp H
  end.

Lemma forM_nil {A} (f : A -> M unit) : forM f [] = ret tt.
Proof. reflexivity. Qed.
Lemma forM_cons {A} (f : A -> M unit) x r : forM f (x :: r) = (f x ;;; forM f r).
Proof. reflexivity. Qed.

Lemma repeatM_0 (m : M unit) : repeatM 0 m = ret tt.
Proof. reflexivity. Qed.
Lemma repeatM_S (m : M unit) n : repeatM (S n) m = (m ;;; repeatM n m).
Proof. reflexivity. Qed.

Section StmtPost.
Variable bpftrace_ : BPFtrace.

Definition stmt_ok (st : Statement) : Prop :=
  forall s s', wf s -> visit_stmt bpftrace_ st s = Ok (tt, s') -> Post (looptargets (loops_ s)) s s'.

(** The lowering of a statement list, as the bodies of probes, branches and
    loops do it. *)
Definition visit_stmts (stmts : list Statement) : M unit :=
  forM (fun stmt => d <- accept (visit_stmt bpftrace_ stmt) ;; scope_exit d) stmts.

Lemma visit_stmts_post stmts :
  Forall stmt_ok stmts ->
  forall s s', wf s -> visit_stmts stmts s = Ok (tt, s') -> Post (looptargets (loops_ s)) s s'.
Proof.
  unfold stmt_ok, visit_stmts.
  induction stmts as [|st stmts IH]; intros HF s s' Hwf H.
  - post_start s Hwf HR. rewrite forM_nil in H. post_go Hwf HR H.
  - apply Forall_cons_1 in HF. destruct HF as [Hst HF]. specialize (IH HF).
    post_start s Hwf HR. rewrite forM_cons in H. post_go Hwf HR H.
Qed.

Lemma repeatM_post (m : M unit) n :
  (forall s s', wf s -> m s = Ok (tt, s') -> Post (looptargets (loops_ s)) s s') ->
  forall s s', wf s -> repeatM n m s = Ok (tt, s') -> Post (looptargets (loops_ s)) s s'.
Proof.
  intros Hm. induction n as [|n IH]; intros s s' Hwf H.
  - post_start s Hwf HR. rewrite repeatM_0 in H. post_go Hwf HR H.
  - post_start s Hwf HR. rewrite repeatM_S in H. post_go Hwf HR H.
Qed.

Lemma visit_stmt_Expr e : stmt_ok (ExprStatement e).
Proof.
  intros s s' Hwf H. post_start s Hwf HR. cbn [visit_stmt] in H. post_go Hwf HR H.
Qed.

Lemma visit_stmt_AssignMap m e : stmt_ok (AssignMapStatement m e).
Proof.
  intros s s' Hwf H. pose proof (getMapKey_post bpftrace_ m) as Hkey. unfold getMapKey_ok in Hkey.
  post_start s Hwf HR. cbn [visit_stmt] in H. post_go Hwf HR H.
Qed.

Lemma visit_stmt_AssignVar x ty e : stmt_ok (AssignVarStatement x ty e).
Proof.
  intros s s' Hwf H. post_start s Hwf HR. cbn [visit_stmt] in H. post_go Hwf HR H.
Qed.

Lemma visit_stmt_If c ss es :
  Forall stmt_ok ss -> from_option (Forall stmt_ok) True es -> stmt_ok (If c ss es).
Proof.
  intros Hss Hes s s' Hwf H.
  pose proof (visit_stmts_post ss Hss) as Hbody. unfold visit_stmts in Hbody.
  destruct es as [es|]; cbn [from_option] in Hes.
  - pose proof (visit_stmts_post es Hes) as Helse. unfold visit_stmts in Helse.
    post_start s Hwf HR. cbn [visit_stmt] in H. post_go Hwf HR H.
  - post_start s Hwf HR. cbn [visit_stmt] in H. post_go Hwf HR H.
Qed.

Lemma visit_stmt_Unroll n ss : Forall stmt_ok ss -> stmt_ok (Unroll n ss).
Proof.
  intros Hss s s' Hwf H.
  pose proof (visit_stmts_post ss Hss) as Hbody. unfold visit_stmts in Hbody.
  pose proof (fun k => repeatM_post _ k Hbody) as Hrep.
  post_start s Hwf HR. cbn [visit_stmt] in H.
  exact (Hrep _ _ _ Hwf H).
Qed.

Lemma visit_stmt_Jump j : stmt_ok (Jump j).
Proof.
  intros s s' Hwf H. post_start s Hwf HR. cbn [visit_stmt] in H.
  destruct j; post_go Hwf HR H.
Qed.

Lemma visit_stmt_While c ss : Forall stmt_ok ss -> stmt_ok (While c ss).
Proof.
  intros Hss s s' Hwf H.
  pose proof (visit_stmts_post ss Hss) as Hbody. unfold visit_stmts in Hbody.
  post_start s Hwf HR. cbn [visit_stmt] in H. post_go Hwf HR H.
Qed.

Theorem visit_stmt_post : forall st, stmt_ok st.
Proof.
  apply Statement_list_ind.
  - apply visit_stmt_Expr.
  - apply visit_stmt_AssignMap.
  - apply visit_stmt_AssignVar.
  - apply visit_stmt_If.
  - apply visit_stmt_Unroll.
  - apply visit_stmt_Jump.
  - apply visit_stmt_While.
Qed.
End StmtPost.


(* one step of a straight-line prefix: [H : (x <- m ;; k x) S = Ok r] becomes
   [H : k a S' = Ok r] *)
Ltac mstep H :=
  let a := fresh "a" in let s1 := fresh "s" in
  let H1 := fresh "Hm" in
  apply bind_inv in H; destruct H as (a & s1 & H1 & H);
  prim H1; cbv beta in H.

Lemma set_fn_blocks_compose g1 g2 fn :
  set_fn_blocks g1 (set_fn_blocks g2 fn) = set_fn_blocks (g1 ∘ g2) fn.
Proof. reflexivity. Qed.

(** A run of builder calls on function [f] only changes the blocks of [f]. *)
Lemma mrun_alter f evs : forall m,
  exists g, mrun f evs m = alter (set_fn_blocks g) f m.
Proof.
  induction evs as [|e evs IH]; intros m.
  - exists id. simpl. symmetry. apply list_alter_id. intros [? ? ? ? ? ?]. reflexivity.
  - simpl. destruct (IH (mrun_event f m e)) as [g Hg]. unfold mrun in Hg |- *. rewrite Hg.
    destruct e as [l i|name]; cbn [mrun_event]; unfold minsert, mnew;
      rewrite list_alter_alter_eq; eexists;
      (apply list_alter_ext; [|reflexivity]); intros; apply set_fn_blocks_compose.
Qed.

Lemma mrun_snoc evs m fn :
  exists g, mrun (length m) evs (m ++ [fn]) = m ++ [set_fn_blocks g fn].
Proof.
  destruct (mrun_alter (length m) evs (m ++ [fn])) as [g Hg].
  exists g. rewrite Hg. apply alter_snoc.
Qed.

Section Driver.
Variable bpftrace_ : BPFtrace.

Lemma visit_Predicate_post p T s s' :
  wf s -> visit_Predicate bpftrace_ p s = Ok (tt, s') -> Post T s s'.
Proof.
  intros Hwf H. post_start s Hwf HR. unfold visit_Predicate in H. post_go Hwf HR H.
Qed.

Lemma Rev_clear_variables T evs s0 s :
  Rev T evs s0 s ->
  Rev T evs (with_variables (fun _ => ∅) s0) (with_variables (fun _ => ∅) s).
Proof.
  intros [M1 K1 F1 [BB1 BB1'] V1 C1 P1 PF1 TP1 U1 CA1 VA1].
  constructor; try assumption.
  - split; assumption.
  - apply var_grows_refl.
Qed.

Lemma next_index_eq (npi : gmap string Z) p :
  let npi' := match npi !! p with None => <[p := 1]> npi | Some _ => npi end in
  default 0 (npi' !! p) = default 1 (npi !! p)
  /\ <[p := default 0 (npi' !! p) + 1]> npi' = <[p := default 1 (npi !! p) + 1]> npi.
Proof.
  destruct (npi !! p) as [i|] eqn:E; cbn zeta.
  - rewrite E. auto.
  - rewrite lookup_insert_eq. cbn [default]. split; [reflexivity|]. apply insert_insert_eq.
Qed.

Lemma pred_part_post (p : option Expression) T s a s' :
  wf s ->
  match p with
  | Some p => d <- accept (visit_Predicate bpftrace_ p) ;; scope_exit d
  | None => ret tt
  end s = Ok (a, s') ->
  Post T s s'.
Proof.
  intros Hwf H. pose proof (visit_Predicate_post) as Hp.
  post_start s Hwf HR. destruct p as [p|].
  - specialize (Hp p). post_go Hwf HR H.
  - post_go Hwf HR H.
Qed.

Lemma probe_body_post stmts s a s' :
  wf s ->
  (forM (fun stmt => d <- accept (visit_stmt bpftrace_ stmt) ;; scope_exit d) stmts ;;;
   CreateRet (ConstantInt 64 0)) s = Ok (a, s') ->
  Post (looptargets (loops_ s)) s s'.
Proof.
  intros Hwf H.
  pose proof (visit_stmts_post bpftrace_ stmts) as Hb. unfold visit_stmts in Hb.
  assert (HF : Forall (stmt_ok bpftrace_) stmts).
  { apply Forall_forall. intros st _. apply visit_stmt_post. }
  specialize (Hb HF).
  post_start s Hwf HR. post_go Hwf HR H.
Qed.

(** The program that [generateProbe] appends to the module. *)
Record generated (s s' : CodegenLLVM) (sec : string) (pname : string)
    (body : list Statement) (fn : Function) : Prop := {
  gen_module : module_ (b_ s') = module_ (b_ s) ++ [fn];
  gen_name : fn_name fn = sec;
  gen_linkage : fn_linkage fn = ExternalLinkage;
  gen_params : fn_params fn = [TPtr];
  gen_section :
    fn_section fn = getSectionNameForProbe sec (default 1 (next_probe_index_ s !! pname));
  gen_npi :
    next_probe_index_ s'
    = <[pname := default 1 (next_probe_index_ s !! pname) + 1]> (next_probe_index_ s);
  gen_probefull : probefull_ s' = probefull_ s;
  gen_cap : current_attach_point_ s' = current_attach_point_ s;
  gen_usdt : current_usdt_location_index_ s' = current_usdt_location_index_ s;
  gen_loops : loops_ s' = loops_ s;
  gen_nv : (next_value (b_ s) <= next_value (b_ s'))%nat;
  gen_vars : var_grows (next_value (b_ s)) (next_value (b_ s')) ∅ (variables_ s');
  gen_body :
    exists sb,
      variables_ sb = ∅
      /\ (next_value (b_ s) <= next_value (b_ sb))%nat
      /\ (visit_stmts bpftrace_ body ;;; CreateRet (ConstantInt 64 0)) sb = Ok (tt, s')
}.

Lemma generateProbe_spec probe ffid sec exp s s' :
  generateProbe bpftrace_ probe ffid sec exp s = Ok (tt, s') ->
  exists fn, generated s s' sec (Probe_name bpftrace_ probe) (stmts probe) fn.
Proof.
  intros H. unfold generateProbe in H.
  destruct s as [[m [f l] n] e d v ids npi pf ts ul cx lp cap].
  mstep H.
  apply bind_inv in H. destruct H as (a & s1 & H1 & H).
  assert (exists ts', s1 = mkCodegen (mkBuilder m (f, l) n) e d v ids npi pf ts' ul cx lp cap)
    as [ts' ->].
  { destruct cap as [ap|]; [|discriminate H1].
    destruct (ProbeType_eqb _ _); prim H1; eauto. }
  clear H1. cbv beta in H.
  unfold getNextIndexForProbe in H.
  mstep H.
  destruct (next_index_eq npi (Probe_name bpftrace_ probe)) as [Ei En].
  cbv zeta in Ei, En. rewrite En in H. rewrite Ei in H. clear Ei En.
  set (index := default 1 (npi !! Probe_name bpftrace_ probe)) in *.
  do 2 mstep H.
  rewrite alter_snoc in H. cbn [set_fn_section fn_name fn_linkage fn_params fn_always_inline fn_blocks] in H.
  mstep H. rewrite ?num_blocks_snoc in H. cbn [fn_blocks length] in H.
  do 2 mstep H.
  match type of H with _ ?S = _ => set (Sa := S) in * end.
  assert (Hwf : wf Sa).
  { split; unfold Sa; proj_cbn.
    - rewrite mnew_length, length_app. simpl. lia.
    - rewrite mnew_num_blocks by (rewrite length_app; simpl; lia).
      rewrite num_blocks_snoc. simpl. lia. }
  apply bind_inv in H. destruct H as (a1 & s2 & Hp & H).
  pose proof (pred_part_post _ (looptargets lp) _ _ _ Hwf Hp) as ((e1 & HR1) & HL1 & _).
  apply bind_inv in H. destruct H as (a2 & s3 & Hc & H).
  unfold modify in Hc. apply Ok_pair_inv in Hc. destruct Hc as [_ <-].
  apply Rev_clear_variables in HR1.
  assert (Hwfc : wf (with_variables (fun _ => ∅) Sa)) by exact Hwf.
  pose proof (R_wf _ _ _ Hwfc (ex_intro _ _ HR1)) as Hwf3.
  pose proof (probe_body_post _ _ _ _ Hwf3 H) as ((e2 & HR2) & HL2 & _).
  assert (HT : forall t, looptargets (loops_ (with_variables (fun _ => ∅) s2)) t ->
                         (nblocks (with_variables (fun _ => ∅) Sa) <= t
                          /\ t < nblocks (with_variables (fun _ => ∅) s2))%nat
                         \/ looptargets lp t).
  { intros t Ht. right. cbn [loops_ with_variables] in Ht. rewrite HL1 in Ht. exact Ht. }
  pose proof (Rev_trans _ _ _ _ _ _ _ Hwfc HT HR1 HR2) as HR.
  assert (Hnv : (n <= next_value (b_ s2))%nat) by exact (rev_nv _ _ _ _ HR1).
  destruct HR as [M1 K1 F1 [BB1 BB1'] V1 C1 P1 PF1 TP1 U1 CA1 VA1].
  unfold Sa in *. proj_cbn_in M1. cbn [with_variables b_ module_ insert_block fst] in M1.
  change (mnew (length m) "entry" ?M) with (mrun (length m) [MNew "entry"] M) in M1.
  rewrite <- mrun_app in M1.
  match type of M1 with
  | _ = mrun _ ?evs (_ ++ [?fn]) => destruct (mrun_snoc evs m fn) as [g Hg]
  end.
  rewrite Hg in M1.
  eexists. constructor; try exact M1; try reflexivity; try assumption.
  all: first [ exact VA1
             | rewrite HL2; cbn [loops_ with_variables]; exact HL1
             | exists (with_variables (fun _ => ∅) s2);
               split; [reflexivity | split; [exact Hnv | exact H]] ].
Qed.
End Driver.

(** * A small instance of the collaborators, for the examples

    Attach point names are [provider:target:ns:func] without the empty parts,
    as [AttachPoint::name] builds them; a probe is named after its attach
    points; every USDT probe has two locations. *)

Fixpoint erase_prefix_example (s : string) : string * string :=
  match s with
  | EmptyString => (EmptyString, EmptyString)
  | String.String c r =>
      if Ascii.eqb c (Ascii.ascii_of_nat 58) then (EmptyString, r)
      else let '(p, rest) := erase_prefix_example r in (String.String c p, rest)
  end.

Definition name_part (s : string) : string :=
  if String.eqb s "" then "" else ":" +:+ s.

Definition AttachPoint_name_example (ap : AttachPoint) (f : string) : string :=
  provider ap +:+ name_part (target ap) +:+ name_part (ns ap) +:+ name_part f.

Definition probetype_example (p : string) : ProbeType :=
  if String.eqb p "usdt" then PT_usdt
  else if String.eqb p "kprobe" then PT_kprobe
  else if String.eqb p "uprobe" then PT_uprobe
  else if String.eqb p "tracepoint" then PT_tracepoint
  else PT_other.

Definition bpftrace_example : BPFtrace :=
  mkBPFtrace true
    (fun a => match a with
              | AA_printf => 0 | AA_syscall => 10000 | AA_cat => 20000 | AA_exit => 30000
              | AA_print => 30001 | AA_clear => 30002 | AA_zero => 30003 | AA_time => 30004
              | AA_join => 30005 | AA_helper_error => 30006 | AA_print_non_map => 30007
              end)
    [TInt 64; TInt 64] [TInt 64; TInt 64] 0
    (fun ap => [target ap +:+ ":" +:+ ns ap +:+ ":" +:+ func ap])
    (fun _ _ _ _ => Some 2)
    probetype_example
    erase_prefix_example
    AttachPoint_name_example
    (fun ap c f => provider ap +:+ name_part c +:+ name_part f)
    (fun p => match attach_points p with
              | ap :: _ => AttachPoint_name_example ap (func ap)
              | [] => ""
              end)
    (fun s => "struct _tracepoint_" +:+ s).

(** The final state of a run of the generator. *)
Definition state_of {A} (r : Res (A * CodegenLLVM)) : CodegenLLVM :=
  match r with
  | Ok (_, s) => s
  | Fatal _ => CodegenLLVM_init
  end.

Definition no_type : SizedType := mkSizedType none 0 false.

(** [usdt:libfoo:probe1 { @ = count(); }] and [kprobe:f { @ = count(); }] *)
Definition count_stmt : Statement :=
  ExprStatement (Call "count" (Some (mkMap "@" None CreateUInt64)) [] no_type).
Definition probe_usdt : Probe :=
  mkProbe [mkAttachPoint "usdt" "libfoo" "" "probe1" 0] None [count_stmt] false.
Definition probe_kprobe : Probe :=
  mkProbe [mkAttachPoint "kprobe" "" "" "f" 0] None [count_stmt] false.

Definition state_in_entry : CodegenLLVM :=
  state_of ((func <- Function_Create [TPtr] ExternalLinkage "f" ;;
             entry <- BasicBlock_Create "entry" func ;;
             SetInsertPoint entry) CodegenLLVM_init).

(** * The probe driver: section names, counters, variables *)

Section DriverClaims.
Variable bpftrace_ : BPFtrace.

(** The section names of the programs that the loop over the locations of a
    USDT match emits. *)
Lemma usdt_locations_spec a b c d e f g h probe match_ n : forall i s s',
  usdt_locations bpftrace_ (reset_ids a b c d e f g h) probe match_ n i s = Ok (tt, s') ->
  let pname := Probe_name bpftrace_ probe in
  let idx := default 1 (next_probe_index_ s !! pname) in
  exists fns,
    module_ (b_ s') = module_ (b_ s) ++ fns
    /\ length fns = n
    /\ probefull_ s' = probefull_ s
    /\ (forall k fn, fns !! k = Some fn ->
          fn_section fn
          = getSectionNameForProbe (probefull_ s +:+ "_loc" +:+ pretty (i + Z.of_nat k))
              (idx + Z.of_nat k))
    /\ (n <> O -> next_probe_index_ s'
                  = <[pname := idx + Z.of_nat n]> (next_probe_index_ s))
    /\ (n = O -> next_probe_index_ s' = next_probe_index_ s).
Proof.
  induction n as [|n IH]; intros i s s' H pname idx.
  - cbn [usdt_locations] in H. apply Ok_pair_inv in H. destruct H as [_ <-].
    exists []. rewrite app_nil_r. repeat split; auto.
    + intros k fn Hk. discriminate Hk.
    + intros Hn. congruence.
  - cbn [usdt_locations] in H.
    destruct s as [[m ip nv] ex dl v ids npi pf ts ul cx lp cap].
    unfold reset_ids in H at 1.
    mstep H. mstep H.
    apply bind_inv in H. destruct H as ([] & s1 & Hg & H).
    apply generateProbe_spec in Hg. destruct Hg as [fn G].
    destruct G as [GM GN GL GP GS GNPI GPF GC GU GLP GNV GV GB].
    destruct s1 as [[m1 ip1 nv1] ex1 dl1 v1 ids1 npi1 pf1 ts1 ul1 cx1 lp1 cap1].
    cbn [b_ module_ next_probe_index_ probefull_ current_attach_point_
         current_usdt_location_index_ loops_ next_value variables_] in *.
    subst m1 npi1 pf1 cap1 ul1 lp1.
    mstep H. mstep H.
    apply IH in H. cbv zeta in H. destruct H as (fns & HM & HL & HPF & HS & HN1 & HN0).
    cbn [b_ module_ next_probe_index_ probefull_] in *.
    exists (fn :: fns).
    split; [rewrite HM, <- app_assoc; reflexivity|].
    split; [simpl; lia|].
    split; [exact HPF|].
    assert (Hidx : default 1 (<[pname := idx + 1]> npi !! pname) = idx + 1).
    { rewrite lookup_insert_eq. reflexivity. }
    fold pname in GS, HS, HN1, HN0. fold idx in GS, HS, HN1, HN0.
    rewrite Hidx in HS, HN1.
    split; [|split].
    + intros [|k] fn' Hk; cbn [lookup list_lookup] in Hk.
      * injection Hk as <-. rewrite GS. rewrite !Z.add_0_r. reflexivity.
      * rewrite (HS k fn' Hk).
        replace (i + 1 + Z.of_nat k) with (i + Z.of_nat (S k)) by lia.
        replace (idx + 1 + Z.of_nat k) with (idx + Z.of_nat (S k)) by lia.
        reflexivity.
    + intros _. destruct n as [|n].
      * rewrite (HN0 eq_refl). f_equal; lia.
      * rewrite HN1 by discriminate. rewrite insert_insert_eq. f_equal; lia.
    + discriminate.
Qed.

End DriverClaims.



(** ** The programs that a probe stands for

    One pair per program, in the order of generation: the name of the probe
    at that moment (the key of the index counter) and the resolved full name
    of the program, which for a location of a USDT match ends in ["_loc"] and
    the number of the location. *)

(** How often [x] occurs in [l]. *)
Definition occurrences (x : string) (l : list string) : nat :=
  count_occ String.string_dec l x.

(** [indexed npi progs fns npi']: the programs [fns] carry the names [progs]
    and lie in the sections that the counters [npi] give them; [npi'] are the
    counters afterwards. *)
Fixpoint indexed (npi : gmap string Z) (progs : list (string * string))
    (fns : list Function) (npi' : gmap string Z) : Prop :=
  match progs, fns with
  | [], [] => npi' = npi
  | (pname, name) :: progs', fn :: fns' =>
      let index := default 1 (npi !! pname) in
      fn_name fn = name
      /\ fn_section fn = "s_" +:+ name +:+ "_" +:+ pretty index
      /\ indexed (<[pname := index + 1]> npi) progs' fns' npi'
  | _, _ => False
  end.

Lemma indexed_app p1 : forall npi f1 npi1 p2 f2 npi2,
  indexed npi p1 f1 npi1 -> indexed npi1 p2 f2 npi2 ->
  indexed npi (p1 ++ p2) (f1 ++ f2) npi2.
Proof.
  induction p1 as [|[pn nm] p1 IH]; intros npi f1 npi1 p2 f2 npi2 H1 H2.
  - destruct f1; [|contradiction]. simpl in H1. subst npi1. exact H2.
  - destruct f1 as [|fn f1]; [contradiction|].
    destruct H1 as (Hn & Hs & H1). cbn [app indexed]. eauto.
Qed.

Lemma indexed_length p : forall npi f npi',
  indexed npi p f npi' -> length f = length p.
Proof.
  induction p as [|[pn nm] p IH]; intros npi [|fn f] npi' H; try contradiction.
  - reflexivity.
  - destruct H as (_ & _ & H). simpl. f_equal. eauto.
Qed.

(** The closed form: the index of a program is the counter of its probe
    name at the start (1 when there is none) plus the number of programs
    generated under that name before it. *)
Lemma indexed_nth p : forall npi f npi' k pname name fn,
  indexed npi p f npi' ->
  p !! k = Some (pname, name) -> f !! k = Some fn ->
  fn_name fn = name
  /\ fn_section fn
     = "s_" +:+ name +:+ "_"
       +:+ pretty (default 1 (npi !! pname)
                   + Z.of_nat (occurrences pname (take k (map fst p)))).
Proof.
  induction p as [|[pn nm] p IH]; intros npi [|fn0 f] npi' k pname name fn H Hp Hf;
    try contradiction; try discriminate.
  destruct H as (Hn & Hs & H).
  destruct k as [|k]; cbn [lookup list_lookup] in Hp, Hf.
  - injection Hp as -> ->. injection Hf as ->.
    split; [exact Hn|]. rewrite Hs. cbn [take map]. unfold occurrences. cbn [count_occ].
    rewrite Z.add_0_r. reflexivity.
  - destruct (IH _ _ _ _ _ _ _ H Hp Hf) as [Hn' Hs']. split; [exact Hn'|].
    rewrite Hs'. cbn [map take fst]. unfold occurrences. cbn [count_occ].
    destruct (String.string_dec pn pname) as [->|Hne].
    + rewrite lookup_insert_eq.
      change (default 1 (Some ?x)) with x.
      rewrite Nat2Z.inj_succ, <- Z.add_1_l, Z.add_assoc. reflexivity.
    + rewrite lookup_insert_ne by exact Hne. reflexivity.
Qed.

Lemma indexed_final p : forall npi f npi' pname,
  indexed npi p f npi' ->
  npi' !! pname
  = match occurrences pname (map fst p) with
    | O => npi !! pname
    | S c => Some (default 1 (npi !! pname) + Z.of_nat (S c))
    end.
Proof.
  induction p as [|[pn nm] p IH]; intros npi [|fn0 f] npi' pname H; try contradiction.
  - simpl in H. subst. reflexivity.
  - destruct H as (_ & _ & H). rewrite (IH _ _ _ pname H).
    cbn [map fst]. unfold occurrences. cbn [count_occ].
    destruct (String.string_dec pn pname) as [->|Hne].
    + rewrite lookup_insert_eq. change (default 1 (Some ?x)) with x.
      destruct (count_occ String.string_dec (map fst p) pname); f_equal; lia.
    + rewrite lookup_insert_ne by exact Hne. reflexivity.
Qed.

Section SectionNames.
Variable bpftrace_ : BPFtrace.

(** The resolved full name of the match [match_] of an attach point. *)
Definition resolved_name (ap : AttachPoint) (match_ : string) : string :=
  if ProbeType_eqb (probetype bpftrace_ (provider ap)) PT_usdt then
    let '(target_, func_id) := erase_prefix bpftrace_ match_ in
    let '(ns_, func_id) := erase_prefix bpftrace_ func_id in
    AttachPoint_name bpftrace_ (set_target_ns target_ ns_ ap) func_id
  else if String.eqb (provider ap) "BEGIN" || String.eqb (provider ap) "END" then
    provider ap
  else
    match probetype bpftrace_ (provider ap) with
    | PT_tracepoint | PT_uprobe | PT_uretprobe =>
        let '(category, func_) := erase_prefix bpftrace_ match_ in
        AttachPoint_name2 bpftrace_ ap category func_
    | _ => AttachPoint_name bpftrace_ ap match_
    end.

(** The names of the programs for the locations [a, a+1, ..., a+n-1]. *)
Definition location_programs (pname full : string) (a n : nat) : list (string * string) :=
  map (fun j => (pname, full +:+ "_loc" +:+ pretty (Z.of_nat j))) (seq a n).

(** The programs of one match of attach point number [k], and the probe as
    the loop leaves it: a USDT match has one program for each of its
    locations, generated under the name of the probe with the resolved
    target and namespace; any other match has one program. *)
Definition match_programs (k : nat) (probe : Probe) (match_ : string)
  : option (list (string * string) * Probe) :=
  match attach_points probe !! k with
  | None => None
  | Some ap =>
      if ProbeType_eqb (probetype bpftrace_ (provider ap)) PT_usdt then
        let '(target_, func_id) := erase_prefix bpftrace_ match_ in
        let '(ns_, func_id) := erase_prefix bpftrace_ func_id in
        match USDTHelper_find bpftrace_ (pid bpftrace_) target_ ns_ func_id with
        | None => None
        | Some num =>
            let ap' := set_usdt num (set_target_ns target_ ns_ ap) in
            let probe' := set_attach_point k ap' probe in
            Some (location_programs (Probe_name bpftrace_ probe') (resolved_name ap match_)
                    0 (Z.to_nat num),
                  set_attach_point k (set_target_ns (target ap) (ns ap) ap') probe')
        end
      else Some ([(Probe_name bpftrace_ probe, resolved_name ap match_)], probe)
  end.

Fixpoint matches_programs (k : nat) (probe : Probe) (matches : list string)
  : option (list (string * string) * Probe) :=
  match matches with
  | [] => Some ([], probe)
  | match_ :: rest =>
      match match_programs k probe match_ with
      | None => None
      | Some (l1, probe1) =>
          match matches_programs k probe1 rest with
          | None => None
          | Some (l2, probe2) => Some (l1 ++ l2, probe2)
          end
      end
  end.

Fixpoint attach_points_programs (probe : Probe) (n k : nat)
  : option (list (string * string) * Probe) :=
  match n with
  | O => Some ([], probe)
  | S n' =>
      match attach_points probe !! k with
      | None => None
      | Some ap =>
          let matches :=
            if String.eqb (provider ap) "BEGIN" || String.eqb (provider ap) "END"
            then [provider ap]
            else find_wildcard_matches bpftrace_ ap in
          match matches_programs k probe matches with
          | None => None
          | Some (l1, probe1) =>
              match attach_points_programs probe1 n' (S k) with
              | None => None
              | Some (l2, probe2) => Some (l1 ++ l2, probe2)
              end
          end
      end
  end.

(** A probe that needs no expansion is one program, named as the probe; a
    probe that needs expansion (every USDT probe does) is the programs of
    the matches of its attach points. *)
Definition probe_programs (probe : Probe) : option (list (string * string) * Probe) :=
  match attach_points probe !! O with
  | None => None
  | Some ap =>
      let probe :=
        if ProbeType_eqb (probetype bpftrace_ (provider ap)) PT_usdt
        then set_need_expansion true probe else probe in
      if negb (need_expansion probe)
      then Some ([(Probe_name bpftrace_ probe, Probe_name bpftrace_ probe)], probe)
      else attach_points_programs probe (length (attach_points probe)) 0
  end.

Lemma generateProbe_indexed probe ffid sec exp s s' :
  generateProbe bpftrace_ probe ffid sec exp s = Ok (tt, s') ->
  exists fn,
    module_ (b_ s') = module_ (b_ s) ++ [fn]
    /\ probefull_ s' = probefull_ s
    /\ indexed (next_probe_index_ s) [(Probe_name bpftrace_ probe, sec)] [fn]
         (next_probe_index_ s').
Proof.
  intros H. destruct (generateProbe_spec _ _ _ _ _ _ _ H) as [fn G].
  exists fn. split; [exact (gen_module _ _ _ _ _ _ _ G)|].
  split; [exact (gen_probefull _ _ _ _ _ _ _ G)|].
  cbn [indexed]. split; [exact (gen_name _ _ _ _ _ _ _ G)|].
  split; [exact (gen_section _ _ _ _ _ _ _ G)|exact (gen_npi _ _ _ _ _ _ _ G)].
Qed.

Lemma usdt_locations_indexed a b c d e f g h probe match_ n : forall i s s',
  usdt_locations bpftrace_ (reset_ids a b c d e f g h) probe match_ n (Z.of_nat i) s
  = Ok (tt, s') ->
  exists fns,
    module_ (b_ s') = module_ (b_ s) ++ fns
    /\ indexed (next_probe_index_ s)
         (location_programs (Probe_name bpftrace_ probe) (probefull_ s) i n) fns
         (next_probe_index_ s').
Proof.
  induction n as [|n IH]; intros i s s' H.
  - cbn [usdt_locations] in H. apply Ok_pair_inv in H. destruct H as [_ <-].
    exists []. rewrite app_nil_r. split; reflexivity.
  - cbn [usdt_locations] in H.
    destruct s as [[m ip nv] ex dl v ids npi pf ts ul cx lp cap].
    unfold reset_ids in H at 1.
    mstep H. mstep H.
    apply bind_inv in H. destruct H as ([] & s1 & Hg & H).
    apply generateProbe_indexed in Hg. destruct Hg as (fn & GM & GP & GI).
    destruct s1 as [[m1 ip1 nv1] ex1 dl1 v1 ids1 npi1 pf1 ts1 ul1 cx1 lp1 cap1].
    cbn [b_ module_ next_probe_index_ probefull_] in *.
    subst m1 pf1.
    mstep H. mstep H.
    replace (Z.of_nat i + 1) with (Z.of_nat (S i)) in H by lia.
    apply IH in H. destruct H as (fns & HM & HI).
    cbn [b_ module_ next_probe_index_ probefull_] in *.
    exists ([fn] ++ fns).
    split; [rewrite HM, <- app_assoc; reflexivity|].
    unfold location_programs. cbn [seq map].
    change (?x :: ?l) with ([x] ++ l) at 1.
    eapply indexed_app; [exact GI|exact HI].
Qed.

Lemma visit_match_indexed a b c d e f g h k probe match_ s probe' s' :
  visit_match bpftrace_ (reset_ids a b c d e f g h) k probe match_ s = Ok (probe', s') ->
  exists progs fns,
    match_programs k probe match_ = Some (progs, probe')
    /\ module_ (b_ s') = module_ (b_ s) ++ fns
    /\ indexed (next_probe_index_ s) progs fns (next_probe_index_ s').
Proof.
  intros H. unfold visit_match in H. unfold match_programs, resolved_name.
  destruct s as [[m ip nv] ex dl v ids npi pf ts ul cx lp cap].
  unfold reset_ids in H at 1.
  mstep H. mstep H.
  destruct (ProbeType_eqb _ _).
  - destruct (erase_prefix bpftrace_ match_) as [target_ func_id].
    destruct (erase_prefix bpftrace_ func_id) as [ns_ func_id'].
    mstep H.
    destruct (USDTHelper_find _ _ _ _ _) as [num|]; [|discriminate H].
    mstep H.
    apply bind_inv in H. destruct H as ([] & s1 & Hu & H).
    apply (usdt_locations_indexed _ _ _ _ _ _ _ _ _ _ _ O) in Hu.
    destruct Hu as (fns & HM & HI).
    apply Ok_pair_inv in H. destruct H as [<- <-].
    eexists. exists fns. split; [reflexivity|]. split; [exact HM|exact HI].
  - apply bind_inv in H. destruct H as ([] & s1 & Hp & H).
    match goal with |- context [Some ([(_, ?nm)], _)] =>
      assert (s1 = mkCodegen (mkBuilder m ip nv) ex dl v (mkIds a b c d e f g h)
                     npi nm ts ul cx lp cap) as ->
    end.
    { destruct (_ || _); [prim Hp; reflexivity|].
      destruct (probetype _ _);
        try (destruct (erase_prefix bpftrace_ match_)); prim Hp; reflexivity. }
    mstep H.
    apply bind_inv in H. destruct H as ([] & s2 & Hg & H).
    apply generateProbe_indexed in Hg. destruct Hg as (fn & GM & _ & GI).
    apply Ok_pair_inv in H. destruct H as [<- <-].
    eexists. exists [fn]. split; [reflexivity|]. split; [exact GM|exact GI].
Qed.

Lemma visit_matches_indexed a b c d e f g h k matches : forall probe s probe' s',
  visit_matches bpftrace_ (reset_ids a b c d e f g h) k probe matches s = Ok (probe', s') ->
  exists progs fns,
    matches_programs k probe matches = Some (progs, probe')
    /\ module_ (b_ s') = module_ (b_ s) ++ fns
    /\ indexed (next_probe_index_ s) progs fns (next_probe_index_ s').
Proof.
  induction matches as [|mt matches IH]; intros probe s probe' s' H;
    cbn [visit_matches matches_programs] in *.
  - apply Ok_pair_inv in H. destruct H as [<- <-].
    exists [], []. rewrite app_nil_r. repeat split.
  - apply bind_inv in H. destruct H as (p1 & s1 & H1 & H).
    apply visit_match_indexed in H1. destruct H1 as (l1 & f1 & E1 & M1 & I1).
    apply IH in H. destruct H as (l2 & f2 & E2 & M2 & I2).
    rewrite E1, E2. exists (l1 ++ l2), (f1 ++ f2).
    split; [reflexivity|]. split; [rewrite M2, M1, app_assoc; reflexivity|].
    eapply indexed_app; eauto.
Qed.

Lemma visit_attach_points_indexed a b c d e f g h n : forall probe k s probe' s',
  visit_attach_points bpftrace_ (reset_ids a b c d e f g h) probe n k s = Ok (probe', s') ->
  exists progs fns,
    attach_points_programs probe n k = Some (progs, probe')
    /\ module_ (b_ s') = module_ (b_ s) ++ fns
    /\ indexed (next_probe_index_ s) progs fns (next_probe_index_ s').
Proof.
  induction n as [|n IH]; intros probe k s probe' s' H;
    cbn [visit_attach_points attach_points_programs] in *.
  - apply Ok_pair_inv in H. destruct H as [<- <-].
    exists [], []. rewrite app_nil_r. repeat split.
  - destruct s as [[m ip nv] ex dl v ids npi pf ts ul cx lp cap].
    mstep H. mstep H. mstep H.
    apply bind_inv in H. destruct H as (p1 & s1 & H1 & H).
    apply visit_matches_indexed in H1. destruct H1 as (l1 & f1 & E1 & M1 & I1).
    apply IH in H. destruct H as (l2 & f2 & E2 & M2 & I2).
    rewrite E1, E2. exists (l1 ++ l2), (f1 ++ f2).
    cbn [b_ module_ next_probe_index_] in *.
    split; [reflexivity|]. split; [rewrite M2, M1, app_assoc; reflexivity|].
    eapply indexed_app; eauto.
Qed.

(** C9: the programs that [visit(Probe&)] appends to the module are the
    programs the probe stands for, in order; each is named by its resolved
    full name and lies in section ["s_" + resolved full name + "_" + index],
    where [index] is the counter of the probe's name: its value before the
    probe (1 if the name has no counter yet) plus the number of programs
    generated under this name before this one; and the counter of a name is
    left advanced by the number of programs generated under it. *)
Theorem C9_section_names probe s probe' s' :
  visit_Probe bpftrace_ probe s = Ok (probe', s') ->
  exists progs fns,
    probe_programs probe = Some (progs, probe')
    /\ module_ (b_ s') = module_ (b_ s) ++ fns
    /\ length fns = length progs
    /\ (forall k pname name fn,
          progs !! k = Some (pname, name) -> fns !! k = Some fn ->
          fn_name fn = name
          /\ fn_section fn
             = "s_" +:+ name +:+ "_"
               +:+ pretty (default 1 (next_probe_index_ s !! pname)
                           + Z.of_nat (occurrences pname (take k (map fst progs)))))
    /\ (forall pname,
          next_probe_index_ s' !! pname
          = match occurrences pname (map fst progs) with
            | O => next_probe_index_ s !! pname
            | S c => Some (default 1 (next_probe_index_ s !! pname) + Z.of_nat (S c))
            end).
Proof.
  intros H. unfold visit_Probe in H. unfold probe_programs.
  destruct s as [[m ip nv] ex dl v ids npi pf ts ul cx lp cap].
  mstep H.
  match goal with
  | E : attach_points probe !! _ = Some ?ap |- _ =>
      set (pr := if ProbeType_eqb (probetype bpftrace_ (provider ap)) PT_usdt
                 then set_need_expansion true probe else probe) in *
  end.
  mstep H.
  apply bind_inv in H. destruct H as (p1 & s1 & H1 & H).
  mstep H. apply Ok_pair_inv in H. destruct H as [<- <-].
  cbn [b_ module_ next_probe_index_ with_current_attach_point].
  assert (exists progs fns,
            (if negb (need_expansion pr)
             then Some ([(Probe_name bpftrace_ pr, Probe_name bpftrace_ pr)], pr)
             else attach_points_programs pr (length (attach_points pr)) 0)
            = Some (progs, p1)
            /\ module_ (b_ s1) = m ++ fns
            /\ indexed npi progs fns (next_probe_index_ s1)) as (progs & fns & E & HM & HI).
  { destruct (need_expansion pr); cbn [negb] in *.
    - mstep H1. destruct ids as [a b c d e f g h].
      cbn [printf_id_ cat_id_ system_id_ time_id_ strftime_id_ join_id_ helper_error_id_
           non_map_print_id_] in H1.
      apply visit_attach_points_indexed in H1. exact H1.
    - mstep H1. mstep H1.
      apply bind_inv in H1. destruct H1 as ([] & s2 & Hg & H1).
      apply generateProbe_indexed in Hg. destruct Hg as (fn & GM & _ & GI).
      apply Ok_pair_inv in H1. destruct H1 as [<- <-].
      eexists. exists [fn]. split; [reflexivity|]. split; [exact GM|exact GI]. }
  destruct s1 as [[m1 ip1 nv1] ex1 dl1 v1 ids1 npi1 pf1 ts1 ul1 cx1 lp1 cap1].
  cbn [b_ module_ next_probe_index_] in *.
  exists progs, fns. split; [exact E|]. split; [exact HM|].
  split; [exact (indexed_length _ _ _ _ HI)|]. split.
  - intros k pname name fn Hp Hf. exact (indexed_nth _ _ _ _ _ _ _ _ HI Hp Hf).
  - intros pname. exact (indexed_final _ _ _ _ pname HI).
Qed.
End SectionNames.

Lemma C9_section_names_witness :
  let s' := state_of (visit_Probe bpftrace_example probe_usdt CodegenLLVM_init) in
  let probe' := mkProbe [mkAttachPoint "usdt" "libfoo" "" "probe1" 2] None [count_stmt] true in
  visit_Probe bpftrace_example probe_usdt CodegenLLVM_init = Ok (probe', s')
  /\ probe_programs bpftrace_example probe_usdt
     = Some ([("usdt:libfoo:probe1", "usdt:libfoo:probe1_loc0");
              ("usdt:libfoo:probe1", "usdt:libfoo:probe1_loc1")], probe')
  /\ map fn_section (module_ (b_ s'))
     = ["s_usdt:libfoo:probe1_loc0_1"; "s_usdt:libfoo:probe1_loc1_2"]
  /\ next_probe_index_ s' !! "usdt:libfoo:probe1" = Some 3.
Proof.
  intros s' probe'.
  assert (Hrun : visit_Probe bpftrace_example probe_usdt CodegenLLVM_init = Ok (probe', s'))
    by (vm_compute; reflexivity).
  split; [exact Hrun|].
  destruct (C9_section_names bpftrace_example probe_usdt CodegenLLVM_init probe' s' Hrun)
    as (progs & fns & E & HM & HL & HS & HN).
  split; [vm_compute; reflexivity|].
  split; [vm_compute; reflexivity|].
  rewrite (HN "usdt:libfoo:probe1").
  assert (Ep : progs = [("usdt:libfoo:probe1", "usdt:libfoo:probe1_loc0");
                        ("usdt:libfoo:probe1", "usdt:libfoo:probe1_loc1")]).
  { vm_compute in E. injection E as <-. reflexivity. }
  rewrite Ep. vm_compute. reflexivity.
Defined.

Section Counters.
Variable bpftrace_ : BPFtrace.











End Counters.


Section Variables.
Variable bpftrace_ : BPFtrace.

Lemma accept_visit_post e T s d s' :
  wf s -> accept (visit bpftrace_ e) s = Ok (d, s') -> Post T s s'.
Proof.
  intros Hwf H. post_start s Hwf HR. post_go Hwf HR H.
Qed.

Lemma Post_wf T s s' : wf s -> Post T s s' -> wf s'.
Proof. intros Hwf [HR _]. exact (R_wf T s s' Hwf HR). Qed.

Lemma Post_vars T s s' :
  Post T s s' ->
  var_grows (next_value (b_ s)) (next_value (b_ s')) (variables_ s) (variables_ s').
Proof. intros [[evs HR] _]. exact (rev_vars _ _ _ _ HR). Qed.




End Variables.



Section VariablesLocal.
Variable bpftrace_ : BPFtrace.





End VariablesLocal.




(** * [exit()]: the record, the return and the dead block *)


(** Events of a lowering leave the other old blocks alone. *)
Lemma mcollect_outside T l0 n0 evs l : forall n,
  evs_ok T l0 n0 n evs -> l <> l0 -> (l < n0)%nat -> mcollect evs l = [].
Proof.
  induction evs as [|[l' i|name] evs IH]; intros n H Hne Hlt; simpl in *; auto.
  - destruct H as [(Hl' & _ & _) H].
    destruct (Nat.eqb_spec l' l) as [->|_]; [lia|]. simpl. eauto.
  - eauto.
Qed.

Lemma mcollect_targets T l0 n0 evs l i : forall n,
  evs_ok T l0 n0 n evs -> In i (mcollect evs l) ->
  Forall (fun t => (n0 <= t)%nat \/ T t) (targets i).
Proof.
  induction evs as [|[l' j|name] evs IH]; intros n H Hin; simpl in *.
  - contradiction.
  - destruct H as [(_ & _ & Ht) H]. apply in_app_or in Hin. destruct Hin as [Hin|Hin].
    + destruct (Nat.eqb l' l); [|contradiction]. destruct Hin as [<-|[]].
      eapply Forall_impl; [exact Ht|]. simpl. intros t [[? ?]|?]; auto.
    + eauto.
  - eauto.
Qed.

Lemma block_instrs_ge m f l : (num_blocks m f <= l)%nat -> block_instrs m f l = [].
Proof.
  unfold num_blocks, block_instrs. destruct (m !! f) as [fn|]; [|reflexivity].
  intros H. rewrite (proj2 (lookup_ge_None (fn_blocks fn) l)) by lia. reflexivity.
Qed.

Lemma mcollect_map_same l code : mcollect (map (MInstr l) code) l = code.
Proof.
  induction code as [|i code IH]; simpl; [reflexivity|].
  rewrite Nat.eqb_refl, IH. reflexivity.
Qed.

Lemma mcollect_map_other l l' code : l <> l' -> mcollect (map (MInstr l) code) l' = [].
Proof.
  intros Hne. induction code as [|i code IH]; simpl; [reflexivity|].
  destruct (Nat.eqb_spec l l'); [contradiction|]. exact IH.
Qed.

Lemma mvalid_map n l code : (l < n)%nat -> mvalid n (map (MInstr l) code).
Proof. intros Hl. induction code; simpl; auto. Qed.

Lemma mvalid_app a : forall n b, mvalid n a -> mvalid (n + mcount a) b -> mvalid n (a ++ b).
Proof.
  induction a as [|[l i|name] a IH]; intros n b Ha Hb; simpl in *.
  - rewrite Nat.add_0_r in Hb. exact Hb.
  - destruct Ha. split; auto.
  - apply IH; [exact Ha|]. replace (S n + mcount a)%nat with (n + S (mcount a))%nat by lia.
    exact Hb.
Qed.

Lemma mcount_map l code : mcount (map (MInstr l) code) = O.
Proof. induction code; simpl; auto. Qed.

Section Exit.
Variable bpftrace_ : BPFtrace.

(** The instructions that [exit()] lowers to, given the number of the cell
    and the context pointer. *)
Definition exit_code (id : nat) (ctx : Value) : list Instr :=
  [Alloca id "perfdata" (ATy (TInt 64));
   Store (getInt64 (asyncactionint bpftrace_ AA_exit)) (AllocaInst id (ATy (TInt 64)));
   PerfEventOutput ctx (AllocaInst id (ATy (TInt 64))) 8;
   LifetimeEnd (AllocaInst id (ATy (TInt 64)));
   Ret (ConstantInt 64 0)].

(** All branches of function [f] go to blocks below [n]. *)
Definition targets_below (m : list Function) (f n : nat) : Prop :=
  forall l i t, In i (block_instrs m f l) -> In t (targets i) -> (t < n)%nat.

Lemma exit_lowering cmap vargs ty s s1 :
  wf s ->
  visit bpftrace_ (Call "exit" cmap vargs ty) s = Ok (tt, s1) ->
  module_ (b_ s1)
  = mrun (cur_fn s)
      (map (MInstr (cur_bb s)) (exit_code (next_value (b_ s)) (ctx_ s)) ++ [MNew "deadcode"])
      (module_ (b_ s))
  /\ insert_block (b_ s1) = (cur_fn s, nblocks s)
  /\ expr_ s1 = None
  /\ loops_ s1 = loops_ s
  /\ wf s1.
Proof.
  intros Hwf H. pose proof Hwf as [Hlen Hl0].
  destruct s as [[m [f l0] n] e d v ids npi pf ts ul cx lp cap].
  proj_cbn_in Hlen. proj_cbn_in Hl0.
  cbn [visit String.eqb Ascii.eqb Bool.eqb] in H.
  repeat mstep H. prim H.
  proj_cbn. repeat split; try reflexivity; proj_cbn.
  - rewrite mnew_length, !minsert_length. exact Hlen.
  - rewrite mnew_num_blocks by (rewrite !minsert_length; exact Hlen).
    rewrite !minsert_num_blocks. lia.
Qed.

(** C8: [exit()] lowers to a record of one 64-bit word holding the exit
    action, its output, and [return 0]; the insertion point moves to a new
    block.  Whatever statements are lowered next, nothing is appended after
    the return, no branch of the function goes to the new block, and a run
    that enters the code of [exit()] outputs the record and returns 0 having
    executed these five instructions only. *)
Theorem C8_exit_returns_and_deadcode cmap vargs ty rest s s1 s2 :
  wf s ->
  (forall t, looptargets (loops_ s) t -> (t < nblocks s)%nat) ->
  targets_below (module_ (b_ s)) (cur_fn s) (nblocks s) ->
  visit bpftrace_ (Call "exit" cmap vargs ty) s = Ok (tt, s1) ->
  visit_stmts bpftrace_ rest s1 = Ok (tt, s2) ->
  let f := cur_fn s in
  let old := block_instrs (module_ (b_ s)) f (cur_bb s) in
  let deadcode := nblocks s in
  insert_block (b_ s1) = (f, deadcode)
  /\ block_instrs (module_ (b_ s1)) f deadcode = []
  /\ block_instrs (module_ (b_ s2)) f (cur_bb s)
     = old ++ exit_code (next_value (b_ s)) (ctx_ s)
  /\ (forall l i, In i (block_instrs (module_ (b_ s2)) f l) -> ~ In deadcode (targets i))
  /\ forall m,
       exists m',
         run 5 (block_instrs (module_ (b_ s2)) f) (cur_bb s, length old) m
         = (positions (cur_bb s) (length old) 5, Returned (RInt 64 0) m')
         /\ effects m'
            = effects m
              ++ [EffPerfEvent [Some (RInt 64 (asyncactionint bpftrace_ AA_exit mod 2 ^ 64))]].
Proof.
  intros Hwf HL HT H1 H2 f old deadcode.
  destruct (exit_lowering _ _ _ _ _ Hwf H1) as (HM & HIP & _ & HLo & Hwf1).
  pose proof Hwf as [Hlen Hl0].
  set (code := exit_code (next_value (b_ s)) (ctx_ s)) in *.
  destruct (mrun_spec (cur_fn s) (map (MInstr (cur_bb s)) code ++ [MNew "deadcode"])
              (module_ (b_ s)) Hlen) as (L1 & N1 & B1 & O1).
  { apply mvalid_app; [apply mvalid_map; exact Hl0 | exact I]. }
  rewrite <- HM in L1, N1, B1, O1. fold f in N1, B1.
  rewrite mcount_app, mcount_map in N1. cbn [mcount Nat.add] in N1.
  assert (Hcf : cur_fn s1 = f) by (unfold cur_fn; rewrite HIP; reflexivity).
  assert (Hcb : cur_bb s1 = deadcode) by (unfold cur_bb; rewrite HIP; reflexivity).
  assert (Hnb : nblocks s1 = S deadcode) by (unfold nblocks; rewrite Hcf; exact N1).
  assert (Hlt : (cur_bb s < deadcode)%nat) by exact Hl0.
  assert (HF : Forall (stmt_ok bpftrace_) rest).
  { apply Forall_forall. intros st _. apply visit_stmt_post. }
  destruct (visit_stmts_post bpftrace_ rest HF s1 s2 Hwf1 H2) as ((evs & HR) & _ & _).
  destruct (Rev_spec _ _ _ _ Hwf1 HR) as (L2 & N2 & B2 & O2 & Hwf2).
  rewrite Hcf in B2.
  pose proof (rev_ok _ _ _ _ HR) as Hok. rewrite Hcb, Hnb in Hok.
  assert (Hdead : block_instrs (module_ (b_ s1)) f deadcode = []).
  { rewrite B1, mcollect_app, mcollect_map_other by lia.
    rewrite block_instrs_ge by (unfold deadcode, nblocks; fold f; lia). reflexivity. }
  assert (Hcur : block_instrs (module_ (b_ s2)) f (cur_bb s) = old ++ code).
  { rewrite B2, B1, mcollect_app, mcollect_map_same.
    rewrite (mcollect_outside _ _ _ _ _ _ Hok) by lia.
    cbn [mcollect]. rewrite !app_nil_r. reflexivity. }
  split; [exact HIP|]. split; [exact Hdead|]. split; [exact Hcur|]. split.
  - intros l i Hin Hd. rewrite B2, B1 in Hin.
    rewrite !in_app_iff in Hin. destruct Hin as [[Hin|Hin]|Hin].
    + specialize (HT l i deadcode Hin Hd). unfold deadcode in HT. lia.
    + rewrite mcollect_app in Hin. cbn [mcollect] in Hin. rewrite app_nil_r in Hin.
      destruct (decide (cur_bb s = l)) as [<-|Hne].
      * rewrite mcollect_map_same in Hin. unfold code, exit_code in Hin.
        cbn [In] in Hin.
        repeat (destruct Hin as [<-|Hin]; [cbn [targets In] in Hd; tauto|]).
        contradiction.
      * rewrite mcollect_map_other in Hin by exact Hne. contradiction.
    + pose proof (mcollect_targets _ _ _ _ _ _ _ Hok Hin) as Ht.
      rewrite Forall_forall in Ht.
      destruct (Ht deadcode (proj2 (list_elem_of_In _ _) Hd)) as [Hge|Hlp]; [lia|].
      rewrite HLo in Hlp. specialize (HL _ Hlp). unfold deadcode in HL. lia.
  - intros m0.
    assert (Hc : block_instrs (module_ (b_ s2)) f (cur_bb s) = old ++ code) by exact Hcur.
    unfold code, exit_code in Hc.
    eassert (Hr : reaches (block_instrs (module_ (b_ s2)) f) (cur_bb s, length old) m0 _
                    (Returned (RInt 64 0) _)) by (go_block Hc).
    eexists. split.
    + rewrite (reaches_run _ _ _ _ _ Hr 5%nat) by (simpl; lia).
      f_equal. cbn [positions app length]. repeat f_equal; lia.
    + cbn [effects add_effect set_mem mem upd_mem upd_cell]. cbn [Z.div Z.to_nat].
      change (Z.to_nat (8 / 8)) with 1%nat. cbn [seq map Z.of_nat Z.add].
      rewrite Z.add_0_r. upd_simpl. unfold getInt64. reflexivity.
Qed.
End Exit.

Lemma C8_exit_witness :
  let e := Call "exit" None [] no_type in
  let rest := [AssignVarStatement "$x" CreateInt64 (Integer 1 CreateInt64)] in
  let s := state_in_entry in
  let s1 := state_of (visit bpftrace_example e s) in
  let s2 := state_of (visit_stmts bpftrace_example rest s1) in
  wf s
  /\ visit bpftrace_example e s = Ok (tt, s1)
  /\ visit_stmts bpftrace_example rest s1 = Ok (tt, s2)
  /\ insert_block (b_ s1) = (cur_fn s, nblocks s)
  /\ block_instrs (module_ (b_ s2)) (cur_fn s) (cur_bb s)
     = exit_code bpftrace_example (next_value (b_ s)) (ctx_ s)
  /\ (forall l i, In i (block_instrs (module_ (b_ s2)) (cur_fn s) l) ->
      ~ In (nblocks s) (targets i))
  /\ forall m, exists m',
       run 5 (block_instrs (module_ (b_ s2)) (cur_fn s)) (cur_bb s, O) m
       = (positions (cur_bb s) O 5, Returned (RInt 64 0) m')
       /\ effects m' = effects m ++ [EffPerfEvent [Some (RInt 64 30000)]].
Proof.
  intros e rest s s1 s2.
  assert (Hwf : wf s) by (split; vm_compute; lia).
  assert (H1 : visit bpftrace_example e s = Ok (tt, s1)) by (vm_compute; reflexivity).
  assert (H2 : visit_stmts bpftrace_example rest s1 = Ok (tt, s2)) by (vm_compute; reflexivity).
  assert (HL : forall t, looptargets (loops_ s) t -> (t < nblocks s)%nat).
  { intros t (p & Hin & _). vm_compute in Hin. contradiction. }
  assert (HT : targets_below (module_ (b_ s)) (cur_fn s) (nblocks s)).
  { intros l i t Hin _. destruct l as [|[|l]]; vm_compute in Hin; contradiction. }
  destruct (C8_exit_returns_and_deadcode bpftrace_example None [] no_type rest s s1 s2
              Hwf HL HT H1 H2) as (A & _ & C & D & E).
  split; [exact Hwf|]. split; [exact H1|]. split; [exact H2|]. split; [exact A|].
  split; [exact C|]. split; [exact D|]. exact E.
Defined.

(** * Logical [&&] and [||]: short-circuit control flow *)


(** What the destructor of a [ScopedExprDeleter] emits. *)
Definition deleter_code (d : ScopedExprDeleter) : list Instr :=
  match d with
  | Some v => [LifetimeEnd v]
  | None => []
  end.

(** The test of an operand against zero and the branch on it. *)
Definition cond_code (idc : nat) (v : Value) (name : string) (t f : nat) : list Instr :=
  [ICmp idc ICMP_NE v (GetIntSameSize 0 (getType v)) name; CondBr (Inst idc (TInt 1)) t f].

(** The builder calls of [createLogicalAnd] around the lowering of the two
    operands: [l0] is the block it starts in, [n] the number of the first of
    its four blocks ([n]: lhs_true, [n+1]: true, [n+2]: false, [n+3]: merge),
    [id] the number of the result slot. *)
Definition and_head (l0 id : nat) : list MEvent :=
  [MNew "&&_lhs_true"; MNew "&&_true"; MNew "&&_false"; MNew "&&_merge";
   MInstr l0 (Alloca id "&&_result" (ATy (TInt 64)))].
Definition and_left (n idc : nat) (lhs : Value) : list Instr :=
  cond_code idc lhs "lhs_true_cond" n (n + 2).
Definition and_tail (n id rc idc : nat) (rhs : Value) (dl dr : ScopedExprDeleter)
  : list MEvent :=
  map (MInstr rc) (cond_code idc rhs "rhs_true_cond" (n + 1) (n + 2))
  ++ [MInstr (n + 1) (Store (getInt64 1) (AllocaInst id (ATy (TInt 64))));
      MInstr (n + 1) (Br (n + 3));
      MInstr (n + 2) (Store (getInt64 0) (AllocaInst id (ATy (TInt 64))));
      MInstr (n + 2) (Br (n + 3));
      MInstr (n + 3) (Load (S idc) (TInt 64) (AllocaInst id (ATy (TInt 64))))]
  ++ map (MInstr (n + 3)) (deleter_code dr ++ deleter_code dl).

(** The same for [createLogicalOr] ([n]: lhs_false, [n+1]: false, [n+2]:
    true, [n+3]: merge). *)
Definition or_head (l0 id : nat) : list MEvent :=
  [MNew "||_lhs_false"; MNew "||_false"; MNew "||_true"; MNew "||_merge";
   MInstr l0 (Alloca id "||_result" (ATy (TInt 64)))].
Definition or_left (n idc : nat) (lhs : Value) : list Instr :=
  cond_code idc lhs "lhs_true_cond" (n + 2) n.
Definition or_tail (n id rc idc : nat) (rhs : Value) (dl dr : ScopedExprDeleter)
  : list MEvent :=
  map (MInstr rc) (cond_code idc rhs "rhs_true_cond" (n + 2) (n + 1))
  ++ [MInstr (n + 1) (Store (getInt64 0) (AllocaInst id (ATy (TInt 64))));
      MInstr (n + 1) (Br (n + 3));
      MInstr (n + 2) (Store (getInt64 1) (AllocaInst id (ATy (TInt 64))));
      MInstr (n + 2) (Br (n + 3));
      MInstr (n + 3) (Load (S idc) (TInt 64) (AllocaInst id (ATy (TInt 64))))]
  ++ map (MInstr (n + 3)) (deleter_code dr ++ deleter_code dl).

Section Logical.
Variable bpftrace_ : BPFtrace.

(** The stages of the lowering of a logical operator: the states in which
    the two operands are lowered, and the builder calls between them. *)
Definition stages
    (head : nat -> nat -> list MEvent) (left_code : nat -> nat -> Value -> list Instr)
    (tail : nat -> nat -> nat -> nat -> Value -> ScopedExprDeleter -> ScopedExprDeleter
            -> list MEvent)
    (left_ right_ : Expression) (s : CodegenLLVM) (v : Value) (s' : CodegenLLVM)
    (s0 : CodegenLLVM) (dl : ScopedExprDeleter) (sl : CodegenLLVM) (lhs : Value)
    (s1 : CodegenLLVM) (dr : ScopedExprDeleter) (sr : CodegenLLVM) (rhs : Value) : Prop :=
  let f := cur_fn s in
  let n := nblocks s in
  let id := next_value (b_ s) in
  module_ (b_ s0) = mrun f (head (cur_bb s) id) (module_ (b_ s))
  /\ insert_block (b_ s0) = (f, cur_bb s)
  /\ accept (visit bpftrace_ left_) s0 = Ok (dl, sl)
  /\ expr_ sl = Some lhs
  /\ module_ (b_ s1)
     = mrun f (map (MInstr (cur_bb sl)) (left_code n (next_value (b_ sl)) lhs))
         (module_ (b_ sl))
  /\ insert_block (b_ s1) = (f, n)
  /\ accept (visit bpftrace_ right_) s1 = Ok (dr, sr)
  /\ expr_ sr = Some rhs
  /\ module_ (b_ s')
     = mrun f (tail n id (cur_bb sr) (next_value (b_ sr)) rhs dl dr) (module_ (b_ sr))
  /\ insert_block (b_ s') = (f, n + 3)%nat
  /\ v = Inst (S (next_value (b_ sr))) (TInt 64).

Lemma createLogicalAnd_stages left_ right_ s v s' :
  wf s ->
  createLogicalAnd (visit bpftrace_) left_ right_ s = Ok (v, s') ->
  exists s0 dl sl lhs s1 dr sr rhs,
    stages and_head and_left and_tail left_ right_ s v s' s0 dl sl lhs s1 dr sr rhs.
Proof.
  intros Hwf H. unfold createLogicalAnd in H.
  pose proof Hwf as [Hlen Hl0];
  destruct s as [[m [f l0] nv] e d vs ids npi pf ts ul cx lp cap];
  proj_cbn_in Hlen; proj_cbn_in Hl0; unfold stages; proj_cbn;
  do 7 mstep H;
  apply bind_inv in H; destruct H as (dl & sl & Hl & H);
  match type of Hl with accept _ ?S = _ => set (s0 := S) in * end;
  assert (Hwf0 : wf s0)
    by (split; unfold s0; proj_cbn;
        [ rewrite minsert_length, !mnew_length; exact Hlen
        | rewrite minsert_num_blocks; norm_num_blocks; lia ]);
  destruct (accept_visit_post bpftrace_ _ (fun _ => False) _ _ _ Hwf0 Hl)
    as ((evl & HRl) & _ & _);
  destruct (Rev_spec _ _ _ _ Hwf0 HRl) as (_ & Nl & _ & _ & Hwfl);
  pose proof (rev_fn _ _ _ _ HRl) as Fl;
  destruct sl as [[ml [fl ll] nvl] el dl' vsl idsl npil pfl tsl ull cxl lpl capl];
  unfold s0 in Fl, Nl, Hwfl; proj_cbn_in Fl; proj_cbn_in Nl;
  pose proof Hwfl as [Hlenl Hll]; proj_cbn_in Hlenl; proj_cbn_in Hll;
  subst fl;
  (destruct el as [lhs|];
   [|apply bind_inv in H; destruct H as (? & ? & H1 & _); discriminate H1]);
  do 4 mstep H;
  apply bind_inv in H; destruct H as (dr & sr & Hr & H);
  match type of Hr with accept _ ?S = _ => set (s1 := S) in * end;
  assert (Hwf1 : wf s1)
    by (split; unfold s1; proj_cbn;
        [ rewrite !minsert_length; exact Hlenl
        | rewrite !minsert_num_blocks; revert Nl; norm_num_blocks; lia ]);
  destruct (accept_visit_post bpftrace_ _ (fun _ => False) _ _ _ Hwf1 Hr)
    as ((evr & HRr) & _ & _);
  pose proof (rev_fn _ _ _ _ HRr) as Fr;
  destruct sr as [[mr [fr lr] nvr] er dr' vsr idsr npir pfr tsr ulr cxr lpr capr];
  unfold s1 in Fr; proj_cbn_in Fr;
  subst fr;
  (destruct er as [rhs|];
   [|apply bind_inv in H; destruct H as (? & ? & H1 & _); discriminate H1]);
  clear Hwfl Hwf HRr HRl;
  destruct dl as [vl|], dr as [vr|];
  repeat mstep H; prim H;
  match type of Hl with _ = Ok (?DL, ?SL) =>
    match type of Hr with _ = Ok (?DR, ?SR) =>
      exists s0, DL, SL, lhs, s1, DR, SR, rhs
    end end;
  proj_cbn;
  unfold and_head, and_left, and_tail, or_head, or_left, or_tail, deleter_code, cond_code;
  cbn [mrun fold_left mrun_event map app];
  repeat lazymatch goal with |- _ /\ _ => split end;
  try reflexivity; try assumption;
  rewrite ?Nat.add_succ_r, ?Nat.add_0_r; unfold s1; reflexivity.
Qed.

Lemma createLogicalOr_stages left_ right_ s v s' :
  wf s ->
  createLogicalOr (visit bpftrace_) left_ right_ s = Ok (v, s') ->
  exists s0 dl sl lhs s1 dr sr rhs,
    stages or_head or_left or_tail left_ right_ s v s' s0 dl sl lhs s1 dr sr rhs.
Proof.
  intros Hwf H. unfold createLogicalOr in H.
  pose proof Hwf as [Hlen Hl0];
  destruct s as [[m [f l0] nv] e d vs ids npi pf ts ul cx lp cap];
  proj_cbn_in Hlen; proj_cbn_in Hl0; unfold stages; proj_cbn;
  do 7 mstep H;
  apply bind_inv in H; destruct H as (dl & sl & Hl & H);
  match type of Hl with accept _ ?S = _ => set (s0 := S) in * end;
  assert (Hwf0 : wf s0)
    by (split; unfold s0; proj_cbn;
        [ rewrite minsert_length, !mnew_length; exact Hlen
        | rewrite minsert_num_blocks; norm_num_blocks; lia ]);
  destruct (accept_visit_post bpftrace_ _ (fun _ => False) _ _ _ Hwf0 Hl)
    as ((evl & HRl) & _ & _);
  destruct (Rev_spec _ _ _ _ Hwf0 HRl) as (_ & Nl & _ & _ & Hwfl);
  pose proof (rev_fn _ _ _ _ HRl) as Fl;
  destruct sl as [[ml [fl ll] nvl] el dl' vsl idsl npil pfl tsl ull cxl lpl capl];
  unfold s0 in Fl, Nl, Hwfl; proj_cbn_in Fl; proj_cbn_in Nl;
  pose proof Hwfl as [Hlenl Hll]; proj_cbn_in Hlenl; proj_cbn_in Hll;
  subst fl;
  (destruct el as [lhs|];
   [|apply bind_inv in H; destruct H as (? & ? & H1 & _); discriminate H1]);
  do 4 mstep H;
  apply bind_inv in H; destruct H as (dr & sr & Hr & H);
  match type of Hr with accept _ ?S = _ => set (s1 := S) in * end;
  assert (Hwf1 : wf s1)
    by (split; unfold s1; proj_cbn;
        [ rewrite !minsert_length; exact Hlenl
        | rewrite !minsert_num_blocks; revert Nl; norm_num_blocks; lia ]);
  destruct (accept_visit_post bpftrace_ _ (fun _ => False) _ _ _ Hwf1 Hr)
    as ((evr & HRr) & _ & _);
  pose proof (rev_fn _ _ _ _ HRr) as Fr;
  destruct sr as [[mr [fr lr] nvr] er dr' vsr idsr npir pfr tsr ulr cxr lpr capr];
  unfold s1 in Fr; proj_cbn_in Fr;
  subst fr;
  (destruct er as [rhs|];
   [|apply bind_inv in H; destruct H as (? & ? & H1 & _); discriminate H1]);
  clear Hwfl Hwf HRr HRl;
  destruct dl as [vl|], dr as [vr|];
  repeat mstep H; prim H;
  match type of Hl with _ = Ok (?DL, ?SL) =>
    match type of Hr with _ = Ok (?DR, ?SR) =>
      exists s0, DL, SL, lhs, s1, DR, SR, rhs
    end end;
  proj_cbn;
  unfold and_head, and_left, and_tail, or_head, or_left, or_tail, deleter_code, cond_code;
  cbn [mrun fold_left mrun_event map app];
  repeat lazymatch goal with |- _ /\ _ => split end;
  try reflexivity; try assumption;
  rewrite ?Nat.add_succ_r, ?Nat.add_0_r; unfold s1; reflexivity.
Qed.

Lemma wf_mrun s s0 evs l :
  wf s -> mvalid (nblocks s) evs ->
  module_ (b_ s0) = mrun (cur_fn s) evs (module_ (b_ s)) ->
  insert_block (b_ s0) = (cur_fn s, l) ->
  (l < nblocks s + mcount evs)%nat ->
  wf s0 /\ cur_fn s0 = cur_fn s /\ cur_bb s0 = l
  /\ nblocks s0 = (nblocks s + mcount evs)%nat
  /\ forall l', block_instrs (module_ (b_ s0)) (cur_fn s) l'
                = block_instrs (module_ (b_ s)) (cur_fn s) l' ++ mcollect evs l'.
Proof.
  intros [Hlen Hl0] Hv HM HI Hl.
  destruct (mrun_spec (cur_fn s) evs (module_ (b_ s)) Hlen Hv) as (L & N & B & _).
  rewrite <- HM in L, N, B.
  assert (Hf : cur_fn s0 = cur_fn s) by (unfold cur_fn at 1; rewrite HI; reflexivity).
  assert (Hb : cur_bb s0 = l) by (unfold cur_bb; rewrite HI; reflexivity).
  assert (Hn : nblocks s0 = (nblocks s + mcount evs)%nat).
  { unfold nblocks at 1. rewrite Hf, N. unfold nblocks. lia. }
  split; [|auto].
  split; [rewrite Hf, L; exact Hlen | rewrite Hb, Hn; exact Hl].
Qed.

(** The whole lowering as one list of builder calls: [evl] and [evr] are
    what lowering the operands emits.  The code of an operand goes to the
    block in which its lowering starts and to blocks that this lowering
    creates, and branches only to the latter; for the right operand the
    block in which it starts is block [n]. *)
Definition short_circuit
    (head : nat -> nat -> list MEvent) (left_code : nat -> nat -> Value -> list Instr)
    (tail : nat -> nat -> nat -> nat -> Value -> ScopedExprDeleter -> ScopedExprDeleter
            -> list MEvent)
    (left_ right_ : Expression) (s : CodegenLLVM) (v : Value) (s' : CodegenLLVM) : Prop :=
  let f := cur_fn s in
  let l0 := cur_bb s in
  let n := nblocks s in
  let id := next_value (b_ s) in
  exists s0 dl sl lhs s1 dr sr rhs evl evr,
    stages head left_code tail left_ right_ s v s' s0 dl sl lhs s1 dr sr rhs
    /\ module_ (b_ sl) = mrun f evl (module_ (b_ s0))
    /\ evs_ok (fun _ => False) l0 (n + 4) (n + 4) evl
    /\ (cur_bb sl = l0 \/ n + 4 <= cur_bb sl)%nat
    /\ module_ (b_ sr) = mrun f evr (module_ (b_ s1))
    /\ evs_ok (fun _ => False) n (n + 4 + mcount evl) (n + 4 + mcount evl) evr
    /\ (cur_bb sr = n \/ n + 4 + mcount evl <= cur_bb sr)%nat
    /\ module_ (b_ s')
       = mrun f (head l0 id ++ evl
                 ++ map (MInstr (cur_bb sl)) (left_code n (next_value (b_ sl)) lhs)
                 ++ evr
                 ++ tail n id (cur_bb sr) (next_value (b_ sr)) rhs dl dr)
           (module_ (b_ s)).

Lemma stages_short_circuit head left_code tail left_ right_ s v s' s0 dl sl lhs s1 dr sr rhs :
  wf s ->
  (forall l0 id, mcount (head l0 id) = 4%nat) ->
  (forall l0 id n, (l0 < n)%nat -> mvalid n (head l0 id)) ->
  stages head left_code tail left_ right_ s v s' s0 dl sl lhs s1 dr sr rhs ->
  short_circuit head left_code tail left_ right_ s v s'.
Proof.
  intros Hwf Hc Hv St. pose proof St as St'.
  destruct St' as (HM0 & HI0 & Hl & Hel & HM1 & HI1 & Hr & Her & HM' & HI' & Hv').
  destruct (wf_mrun s s0 _ _ Hwf (Hv _ _ _ (proj2 Hwf)) HM0 HI0) as (Hwf0 & F0 & B0 & N0 & _).
  { destruct Hwf. lia. }
  rewrite Hc in N0.
  destruct (accept_visit_post bpftrace_ _ (fun _ => False) _ _ _ Hwf0 Hl)
    as ((evl & HRl) & _ & _).
  destruct (Rev_spec _ _ _ _ Hwf0 HRl) as (_ & Nl & _ & _ & Hwfl).
  pose proof (rev_fn _ _ _ _ HRl) as Fl. rewrite F0 in Fl.
  pose proof (rev_bb _ _ _ _ HRl) as [BBl _]. rewrite B0, N0 in BBl.
  pose proof (rev_ok _ _ _ _ HRl) as Okl. rewrite B0, N0 in Okl.
  pose proof (rev_module _ _ _ _ HRl) as Ml. rewrite F0 in Ml.
  rewrite <- Fl in HM1, HI1.
  destruct (wf_mrun sl s1 _ _ Hwfl (mvalid_map _ _ _ (proj2 Hwfl)) HM1 HI1)
    as (Hwf1 & F1 & B1 & N1 & _).
  { rewrite mcount_map, Nl, N0. lia. }
  rewrite mcount_map, Nat.add_0_r, Nl, N0 in N1.
  destruct (accept_visit_post bpftrace_ _ (fun _ => False) _ _ _ Hwf1 Hr)
    as ((evr & HRr) & _ & _).
  pose proof (rev_bb _ _ _ _ HRr) as [BBr _]. rewrite B1, N1 in BBr.
  pose proof (rev_ok _ _ _ _ HRr) as Okr. rewrite B1, N1 in Okr.
  pose proof (rev_module _ _ _ _ HRr) as Mr. rewrite F1 in Mr.
  rewrite Fl in HM1, Mr.
  exists s0, dl, sl, lhs, s1, dr, sr, rhs, evl, evr.
  split; [exact St|]. split; [exact Ml|]. split; [exact Okl|]. split; [exact BBl|].
  split; [exact Mr|]. split; [exact Okr|]. split; [exact BBr|].
  rewrite HM', Mr, HM1, Ml, HM0, !mrun_app. reflexivity.
Qed.

(** When the left operand is an integer literal its lowering emits nothing,
    and each block of the function gains the following. *)
Lemma stages_blocks_const head left_code tail k ty right_ s v s' s0 dl sl lhs s1 dr sr rhs :
  wf s ->
  (forall l0 id, mcount (head l0 id) = 4%nat) ->
  (forall l0 id n, (l0 < n)%nat -> mvalid n (head l0 id)) ->
  (forall n id rc idc rhs dl dr N,
      (rc < N)%nat -> (n + 3 < N)%nat -> mvalid N (tail n id rc idc rhs dl dr)) ->
  stages head left_code tail (Integer k ty) right_ s v s' s0 dl sl lhs s1 dr sr rhs ->
  let f := cur_fn s in
  let l0 := cur_bb s in
  let n := nblocks s in
  let id := next_value (b_ s) in
  lhs = getInt64 k /\ dl = None
  /\ exists evr,
       module_ (b_ sr) = mrun f evr (module_ (b_ s1))
       /\ evs_ok (fun _ => False) n (n + 4) (n + 4) evr
       /\ (cur_bb sr = n \/ n + 4 <= cur_bb sr)%nat
       /\ module_ (b_ s')
          = mrun f (head l0 id
                    ++ map (MInstr l0) (left_code n (next_value (b_ sl)) lhs)
                    ++ evr
                    ++ tail n id (cur_bb sr) (next_value (b_ sr)) rhs dl dr)
              (module_ (b_ s))
       /\ forall l,
            block_instrs (module_ (b_ s')) f l
            = block_instrs (module_ (b_ s)) f l
              ++ mcollect (head l0 id) l
              ++ mcollect (map (MInstr l0) (left_code n (next_value (b_ sl)) lhs)) l
              ++ mcollect evr l
              ++ mcollect (tail n id (cur_bb sr) (next_value (b_ sr)) rhs dl dr) l.
Proof.
  intros Hwf Hc Hv Ht St f l0 n id.
  destruct St as (HM0 & HI0 & Hl & Hel & HM1 & HI1 & Hr & Her & HM' & HI' & Hv').
  destruct (wf_mrun s s0 _ _ Hwf (Hv _ _ _ (proj2 Hwf)) HM0 HI0) as (Hwf0 & F0 & B0 & N0 & K0).
  { destruct Hwf. lia. }
  rewrite Hc in N0.
  assert (Hsl : sl = with_expr_deleter None (with_expr (Some (getInt64 k))
                       (with_expr_deleter None s0)) /\ dl = None).
  { clear -Hl. destruct s0 as [[m0 [f0 b0] nv0] e0 d0 vs0 ids0 npi0 pf0 ts0 ul0 cx0 lp0 cap0].
    unfold accept in Hl. cbn [visit] in Hl. prim Hl. split; reflexivity. }
  destruct Hsl as [-> ->].
  assert (Hwfl : wf (with_expr_deleter None (with_expr (Some (getInt64 k))
                       (with_expr_deleter None s0)))) by exact Hwf0.
  cbn [expr_ with_expr with_expr_deleter] in Hel. injection Hel as <-.
  change (cur_bb (with_expr_deleter None (with_expr (Some (getInt64 k))
                    (with_expr_deleter None s0)))) with (cur_bb s0) in HM1.
  change (module_ (b_ (with_expr_deleter None (with_expr (Some (getInt64 k))
                    (with_expr_deleter None s0))))) with (module_ (b_ s0)) in HM1.
  rewrite <- F0 in HM1, HI1.
  destruct (wf_mrun s0 s1 _ _ Hwf0 (mvalid_map _ _ _ (proj2 Hwf0)) HM1 HI1)
    as (Hwf1 & F1 & B1 & N1 & K1).
  { rewrite mcount_map, N0. fold n. lia. }
  rewrite mcount_map, Nat.add_0_r, N0 in N1.
  destruct (accept_visit_post bpftrace_ _ (fun _ => False) _ _ _ Hwf1 Hr)
    as ((evr & HRr) & _ & _).
  destruct (Rev_spec _ _ _ _ Hwf1 HRr) as (_ & Nr & Kr & _ & Hwfr).
  pose proof (rev_bb _ _ _ _ HRr) as [BBr _]. rewrite B1, N1 in BBr.
  pose proof (rev_ok _ _ _ _ HRr) as Okr. rewrite B1, N1 in Okr.
  pose proof (rev_module _ _ _ _ HRr) as Mr. rewrite F1, F0 in Mr.
  pose proof (rev_fn _ _ _ _ HRr) as Fr. rewrite F1, F0 in Fr.
  rewrite F1, F0 in Kr. rewrite F0, B0 in K1.
  split; [reflexivity|]. split; [reflexivity|].
  exists evr. split; [exact Mr|]. split; [exact Okr|]. split; [exact BBr|].
  split.
  { rewrite HM', Mr, HM1, F0, B0, HM0, !mrun_app. reflexivity. }
  intros l.
  destruct Hwfr as [Hlenr Hlr]. rewrite Fr in Hlenr.
  destruct (mrun_spec (cur_fn s) (tail (nblocks s) (next_value (b_ s)) (cur_bb sr)
                                   (next_value (b_ sr)) rhs None dr)
              (module_ (b_ sr)) Hlenr) as (_ & _ & K' & _).
  { apply Ht.
    - unfold nblocks in Hlr. rewrite Fr in Hlr. exact Hlr.
    - unfold nblocks in Nr at 1. rewrite Fr in Nr. rewrite Nr, N1. fold n. lia. }
  rewrite <- HM' in K'.
  unfold f. rewrite K', Kr, K1, K0, <- !app_assoc. reflexivity.
Qed.

(** The run that skips the right operand: from the point where the lowering
    starts, through the block that stores the result, to the load in the
    merge block; [res] is the value of the expression. *)
Definition skips_right
    (head : nat -> nat -> list MEvent) (left_code : nat -> nat -> Value -> list Instr)
    (tail : nat -> nat -> nat -> nat -> Value -> ScopedExprDeleter -> ScopedExprDeleter
            -> list MEvent)
    (right_ : Expression) (s : CodegenLLVM) (v : Value) (s' : CodegenLLVM) (res : Z) : Prop :=
  let f := cur_fn s in
  let l0 := cur_bb s in
  let n := nblocks s in
  let id := next_value (b_ s) in
  let k := length (block_instrs (module_ (b_ s)) f l0) in
  let path := positions l0 k 3 ++ positions (n + 2) 0 2 ++ [((n + 3)%nat, O)] in
  exists lhs idc s1 dr sr rhs evr,
    accept (visit bpftrace_ right_) s1 = Ok (dr, sr)
    /\ module_ (b_ sr) = mrun f evr (module_ (b_ s1))
    /\ module_ (b_ s')
       = mrun f (head l0 id ++ map (MInstr l0) (left_code n idc lhs) ++ evr
                 ++ tail n id (cur_bb sr) (next_value (b_ sr)) rhs None dr)
           (module_ (b_ s))
    /\ Forall (fun pc => mcollect evr (fst pc) = []) path
    /\ forall m, exists m',
         run 6 (block_instrs (module_ (b_ s')) f) (l0, k) m
         = (path, Running ((n + 3)%nat, 1%nat) m')
         /\ eval m' v = Some (RInt 64 res).

Lemma and_tail_valid n id rc idc rhs dl dr N :
  (rc < N)%nat -> (n + 3 < N)%nat -> mvalid N (and_tail n id rc idc rhs dl dr).
Proof.
  intros H1 H2. unfold and_tail, cond_code. cbn [map app mvalid].
  repeat (split; [lia|]). apply mvalid_map. exact H2.
Qed.

Lemma or_tail_valid n id rc idc rhs dl dr N :
  (rc < N)%nat -> (n + 3 < N)%nat -> mvalid N (or_tail n id rc idc rhs dl dr).
Proof.
  intros H1 H2. unfold or_tail, cond_code. cbn [map app mvalid].
  repeat (split; [lia|]). apply mvalid_map. exact H2.
Qed.

Lemma and_head_valid l0 id n : (l0 < n)%nat -> mvalid n (and_head l0 id).
Proof. intros H. cbn. split; [lia|exact I]. Qed.
Lemma or_head_valid l0 id n : (l0 < n)%nat -> mvalid n (or_head l0 id).
Proof. intros H. cbn. split; [lia|exact I]. Qed.

Lemma createLogicalAnd_zero ty right_ s v s' :
  wf s ->
  createLogicalAnd (visit bpftrace_) (Integer 0 ty) right_ s = Ok (v, s') ->
  skips_right and_head and_left and_tail right_ s v s' 0.
Proof.
  intros Hwf H.
  destruct (createLogicalAnd_stages _ _ _ _ _ Hwf H)
    as (s0 & dl & sl & lhs & s1 & dr & sr & rhs & St).
  pose proof St as (_ & _ & _ & _ & _ & _ & Hr & _ & _ & _ & Hv).
  destruct (stages_blocks_const and_head and_left and_tail _ _ _ _ _ _ _ _ _ _ _ _ _ _ Hwf
              (fun _ _ => eq_refl) and_head_valid and_tail_valid St)
    as (-> & -> & evr & Mr & Okr & BBr & HM & HB).
  pose proof Hwf as [Hlen Hl0]. fold (nblocks s) in Hl0.
  exists (getInt64 0), (next_value (b_ sl)), s1, dr, sr, rhs, evr.
  split; [exact Hr|]. split; [exact Mr|]. split; [exact HM|].
  assert (Ho : forall l, l <> nblocks s -> (l < nblocks s + 4)%nat -> mcollect evr l = []).
  { intros l H1 H2. exact (mcollect_outside _ _ _ _ _ _ Okr H1 H2). }
  split.
  { cbn [positions app]. repeat (apply Forall_cons_2; [cbn [fst]; apply Ho; lia|]).
    apply Forall_nil_2. }
  set (old := block_instrs (module_ (b_ s)) (cur_fn s) (cur_bb s)).
  assert (Hn : forall l, (nblocks s <= l)%nat ->
                 block_instrs (module_ (b_ s)) (cur_fn s) l = []).
  { intros l Hl. apply block_instrs_ge. exact Hl. }
  eassert (Hc0 : block_instrs (module_ (b_ s')) (cur_fn s) (cur_bb s) = old ++ _).
  { rewrite HB. fold old.
    unfold and_head, and_left, and_tail, cond_code, deleter_code.
    rewrite app_nil_r, !mcollect_app, Ho by lia.
    rewrite !mcollect_map_same, !mcollect_map_other by lia.
    cbn [mcollect map app]. eqb_simpl. cbn [app]. reflexivity. }
  eassert (Hc2 : block_instrs (module_ (b_ s')) (cur_fn s) (nblocks s + 2) = _).
  { rewrite HB, Hn by lia.
    unfold and_head, and_left, and_tail, cond_code, deleter_code.
    rewrite app_nil_r, !mcollect_app, Ho by lia.
    rewrite !mcollect_map_other by lia.
    cbn [mcollect map app]. eqb_simpl. cbn [app]. reflexivity. }
  eassert (Hc3 : block_instrs (module_ (b_ s')) (cur_fn s) (nblocks s + 3) = [] ++ [_] ++ _).
  { rewrite HB, Hn by lia.
    unfold and_head, and_left, and_tail, cond_code.
    rewrite !mcollect_app, Ho by lia.
    rewrite !mcollect_map_same, !mcollect_map_other by lia.
    cbn [mcollect map app]. eqb_simpl. cbn [app]. reflexivity. }
  intros m.
  change (GetIntSameSize 0 (getType (getInt64 0))) with (ConstantInt 64 0) in Hc0.
  change (getInt64 0) with (ConstantInt 64 0) in Hc0, Hc2.
  eassert (Hrun : reaches (block_instrs (module_ (b_ s')) (cur_fn s))
                    (cur_bb s, length old) m _ (Running ((nblocks s + 3)%nat, 1%nat) _)).
  { go_block Hc0. cbn [eval_icmp Z.eqb negb]. go_block Hc2.
    eapply (reaches_seq _ _ _ O _ _ [] _ Hc3);
      [reflexivity | reflexivity | machine_go; reflexivity]. }
  match type of Hrun with
  | reaches _ _ _ ?p _ =>
      assert (Hp : p = positions (cur_bb s) (length old) 3
                       ++ positions (nblocks s + 2) 0 2 ++ [((nblocks s + 3)%nat, O)])
        by (cbn [positions app length Nat.add]; repeat f_equal; lia)
  end.
  rewrite Hp in Hrun. apply reaches_run in Hrun.
  eexists. split; [exact Hrun|].
  rewrite Hv. machine_go. reflexivity.
Qed.
Lemma createLogicalOr_one ty right_ s v s' :
  wf s ->
  createLogicalOr (visit bpftrace_) (Integer 1 ty) right_ s = Ok (v, s') ->
  skips_right or_head or_left or_tail right_ s v s' 1.
Proof.
  intros Hwf H.
  destruct (createLogicalOr_stages _ _ _ _ _ Hwf H)
    as (s0 & dl & sl & lhs & s1 & dr & sr & rhs & St).
  pose proof St as (_ & _ & _ & _ & _ & _ & Hr & _ & _ & _ & Hv).
  destruct (stages_blocks_const or_head or_left or_tail _ _ _ _ _ _ _ _ _ _ _ _ _ _ Hwf
              (fun _ _ => eq_refl) or_head_valid or_tail_valid St)
    as (-> & -> & evr & Mr & Okr & BBr & HM & HB).
  pose proof Hwf as [Hlen Hl0]. fold (nblocks s) in Hl0.
  exists (getInt64 1), (next_value (b_ sl)), s1, dr, sr, rhs, evr.
  split; [exact Hr|]. split; [exact Mr|]. split; [exact HM|].
  assert (Ho : forall l, l <> nblocks s -> (l < nblocks s + 4)%nat -> mcollect evr l = []).
  { intros l H1 H2. exact (mcollect_outside _ _ _ _ _ _ Okr H1 H2). }
  split.
  { cbn [positions app]. repeat (apply Forall_cons_2; [cbn [fst]; apply Ho; lia|]).
    apply Forall_nil_2. }
  set (old := block_instrs (module_ (b_ s)) (cur_fn s) (cur_bb s)).
  assert (Hn : forall l, (nblocks s <= l)%nat ->
                 block_instrs (module_ (b_ s)) (cur_fn s) l = []).
  { intros l Hl. apply block_instrs_ge. exact Hl. }
  eassert (Hc0 : block_instrs (module_ (b_ s')) (cur_fn s) (cur_bb s) = old ++ _).
  { rewrite HB. fold old.
    unfold or_head, or_left, or_tail, cond_code, deleter_code.
    rewrite app_nil_r, !mcollect_app, Ho by lia.
    rewrite !mcollect_map_same, !mcollect_map_other by lia.
    cbn [mcollect map app]. eqb_simpl. cbn [app]. reflexivity. }
  eassert (Hc2 : block_instrs (module_ (b_ s')) (cur_fn s) (nblocks s + 2) = _).
  { rewrite HB, Hn by lia.
    unfold or_head, or_left, or_tail, cond_code, deleter_code.
    rewrite app_nil_r, !mcollect_app, Ho by lia.
    rewrite !mcollect_map_other by lia.
    cbn [mcollect map app]. eqb_simpl. cbn [app]. reflexivity. }
  eassert (Hc3 : block_instrs (module_ (b_ s')) (cur_fn s) (nblocks s + 3) = [] ++ [_] ++ _).
  { rewrite HB, Hn by lia.
    unfold or_head, or_left, or_tail, cond_code.
    rewrite !mcollect_app, Ho by lia.
    rewrite !mcollect_map_same, !mcollect_map_other by lia.
    cbn [mcollect map app]. eqb_simpl. cbn [app]. reflexivity. }
  intros m.
  change (GetIntSameSize 0 (getType (getInt64 1))) with (ConstantInt 64 0) in Hc0.
  change (getInt64 1) with (ConstantInt 64 1) in Hc0, Hc2.
  eassert (Hrun : reaches (block_instrs (module_ (b_ s')) (cur_fn s))
                    (cur_bb s, length old) m _ (Running ((nblocks s + 3)%nat, 1%nat) _)).
  { go_block Hc0. cbn [eval_icmp Z.eqb negb]. go_block Hc2.
    eapply (reaches_seq _ _ _ O _ _ [] _ Hc3);
      [reflexivity | reflexivity | machine_go; reflexivity]. }
  match type of Hrun with
  | reaches _ _ _ ?p _ =>
      assert (Hp : p = positions (cur_bb s) (length old) 3
                       ++ positions (nblocks s + 2) 0 2 ++ [((nblocks s + 3)%nat, O)])
        by (cbn [positions app length Nat.add]; repeat f_equal; lia)
  end.
  rewrite Hp in Hrun. apply reaches_run in Hrun.
  eexists. split; [exact Hrun|].
  rewrite Hv. machine_go. reflexivity.
Qed.

(** C7: [createLogicalAnd] and [createLogicalOr] lower to a result slot, a
    test of the left operand that branches to the block holding the code of
    the right operand or past it, a test of the right operand, two blocks
    that store 1 or 0 into the slot, and a merge block that loads it.  The
    code of the right operand is in the block that the first branch enters
    when the left operand is nonzero (for [&&]) or zero (for [||]), and in
    blocks that its own lowering creates.  For [0 && e] and [1 || e] the run
    goes through the start block, the storing block and the merge block,
    none of which holds an instruction lowered from [e], and the value is 0
    and 1. *)
Theorem C7_logical_short_circuit left_ right_ ty s v s' :
  wf s ->
  (createLogicalAnd (visit bpftrace_) left_ right_ s = Ok (v, s') ->
   short_circuit and_head and_left and_tail left_ right_ s v s')
  /\ (createLogicalOr (visit bpftrace_) left_ right_ s = Ok (v, s') ->
      short_circuit or_head or_left or_tail left_ right_ s v s')
  /\ (createLogicalAnd (visit bpftrace_) (Integer 0 ty) right_ s = Ok (v, s') ->
      skips_right and_head and_left and_tail right_ s v s' 0)
  /\ (createLogicalOr (visit bpftrace_) (Integer 1 ty) right_ s = Ok (v, s') ->
      skips_right or_head or_left or_tail right_ s v s' 1).
Proof.
  intros Hwf. split; [|split; [|split]]; intros H.
  - destruct (createLogicalAnd_stages _ _ _ _ _ Hwf H)
      as (s0 & dl & sl & lhs & s1 & dr & sr & rhs & St).
    exact (stages_short_circuit and_head _ _ _ _ _ _ _ _ _ _ _ _ _ _ _ Hwf
             (fun _ _ => eq_refl) and_head_valid St).
  - destruct (createLogicalOr_stages _ _ _ _ _ Hwf H)
      as (s0 & dl & sl & lhs & s1 & dr & sr & rhs & St).
    exact (stages_short_circuit or_head _ _ _ _ _ _ _ _ _ _ _ _ _ _ _ Hwf
             (fun _ _ => eq_refl) or_head_valid St).
  - exact (createLogicalAnd_zero _ _ _ _ _ Hwf H).
  - exact (createLogicalOr_one _ _ _ _ _ Hwf H).
Qed.
End Logical.

Lemma C7_logical_witness :
  let e := Binop (Integer 1 CreateInt64) PLUS (Integer 2 CreateInt64) CreateInt64 in
  let v := Inst 4 (TInt 64) in
  let s_and := state_of (createLogicalAnd (visit bpftrace_example) (Integer 0 CreateInt64) e
                           state_in_entry) in
  let s_or := state_of (createLogicalOr (visit bpftrace_example) (Integer 1 CreateInt64) e
                          state_in_entry) in
  wf state_in_entry
  /\ createLogicalAnd (visit bpftrace_example) (Integer 0 CreateInt64) e state_in_entry
     = Ok (v, s_and)
  /\ skips_right bpftrace_example and_head and_left and_tail e state_in_entry v s_and 0
  /\ createLogicalOr (visit bpftrace_example) (Integer 1 CreateInt64) e state_in_entry
     = Ok (v, s_or)
  /\ skips_right bpftrace_example or_head or_left or_tail e state_in_entry v s_or 1.
Proof.
  intros e v s_and s_or.
  assert (Hwf : wf state_in_entry) by (split; vm_compute; lia).
  assert (Ha : createLogicalAnd (visit bpftrace_example) (Integer 0 CreateInt64) e
                 state_in_entry = Ok (v, s_and)) by (vm_compute; reflexivity).
  assert (Ho : createLogicalOr (visit bpftrace_example) (Integer 1 CreateInt64) e
                 state_in_entry = Ok (v, s_or)) by (vm_compute; reflexivity).
  split; [exact Hwf|]. split; [exact Ha|]. split.
  - exact (proj1 (proj2 (proj2 (C7_logical_short_circuit bpftrace_example
             (Integer 0 CreateInt64) e CreateInt64 state_in_entry v s_and Hwf))) Ha).
  - split; [exact Ho|].
    exact (proj2 (proj2 (proj2 (C7_logical_short_circuit bpftrace_example
             (Integer 1 CreateInt64) e CreateInt64 state_in_entry v s_or Hwf))) Ho).
Defined.

(** * The [min] aggregation *)


(** What [CreateIntCast] emits and yields, given the next free number. *)
Definition cast_code (id : nat) (e : Value) (bits : Z) (sg : bool) : list Instr :=
  if decide (getType e = TInt bits) then [] else [IntCast id e bits sg].
Definition cast_val (id : nat) (e : Value) (bits : Z) : Value :=
  if decide (getType e = TInt bits) then e else Inst id (TInt bits).
Definition cast_next (id : nat) (e : Value) (bits : Z) : nat :=
  if decide (getType e = TInt bits) then id else S id.

(** The code of the [min] branch after the lowering of its argument [e]:
    the inverted value and the test in the current block, the storing block
    [ge] and the block [lt] in which both paths meet. *)
Definition min_invert (id : nat) (e : Value) (sg : bool) : list Instr :=
  cast_code id e 64 sg
  ++ [BinaryOp (cast_next id e 64) Sub (getInt64 4294967295) (cast_val id e 64)].
Definition min_test (lt ge i : nat) (oldval : Value) : list Instr :=
  [ICmp (S i) ICMP_SGE (Inst i (TInt 64)) oldval ""; CondBr (Inst (S i) (TInt 1)) ge lt].
Definition min_store (lt i : nat) (ident : string) (key newval : Value) : list Instr :=
  [Store (Inst i (TInt 64)) newval; MapUpdateElem ident key newval; Br lt].
Definition min_end (key newval : Value) (d : ScopedExprDeleter) : list Instr :=
  [LifetimeEnd key; LifetimeEnd newval] ++ deleter_code d.
Definition min_events (lc n id : nat) (e : Value) (sg : bool) (ident : string)
    (key oldval newval : Value) (d : ScopedExprDeleter) : list MEvent :=
  let i := cast_next id e 64 in
  map (MInstr lc) (min_invert id e sg)
  ++ [MNew "min.lt"; MNew "min.ge"]
  ++ map (MInstr lc) (min_test n (n + 1) i oldval)
  ++ map (MInstr (n + 1)%nat) (min_store n i ident key newval)
  ++ map (MInstr n) (min_end key newval d).

Section Min.
Variable bpftrace_ : BPFtrace.

Lemma min_stages cmap arg rest ty s s' :
  wf s ->
  needMemcpy (map_type cmap) = false ->
  visit bpftrace_ (Call "min" (Some cmap) (arg :: rest) ty) s = Ok (tt, s') ->
  exists key sk s0 d sa e,
    let oldval := Inst (next_value (b_ sk)) (TInt 64) in
    let newval := AllocaInst (S (next_value (b_ sk))) (ASized (map_type cmap)) in
    let n := nblocks sa in
    getMapKey bpftrace_ cmap s = Ok (key, sk)
    /\ module_ (b_ s0)
       = mrun (cur_fn sk)
           (map (MInstr (cur_bb sk))
              [MapLookupElem (next_value (b_ sk)) (map_ident cmap) key;
               Alloca (S (next_value (b_ sk))) (map_ident cmap +:+ "_val")
                 (ASized (map_type cmap))])
           (module_ (b_ sk))
    /\ insert_block (b_ s0) = insert_block (b_ sk)
    /\ accept (visit bpftrace_ arg) s0 = Ok (d, sa)
    /\ expr_ sa = Some e
    /\ wf sa
    /\ (S (next_value (b_ sk)) < next_value (b_ sa))%nat
    /\ module_ (b_ s')
       = mrun (cur_fn sa)
           (min_events (cur_bb sa) n (next_value (b_ sa)) e (IsSigned (expr_type arg))
              (map_ident cmap) key oldval newval d)
           (module_ (b_ sa)).
Proof.
  intros Hwf Hnm H.
  cbn [visit String.eqb Ascii.eqb Bool.eqb] in H.
  apply bind_inv in H. destruct H as (key & sk & Hk & H).
  destruct (getMapKey_post bpftrace_ cmap (fun _ => False) _ _ _ Hwf Hk) as [[HRk _] _].
  pose proof (R_wf _ _ _ Hwf HRk) as Hwfk. clear HRk.
  pose proof Hwfk as [Hlenk Hlk].
  destruct sk as [[mk [fk lk] nvk] ek dk vsk idsk npik pfk tsk ulk cxk lpk capk].
  proj_cbn_in Hlenk. proj_cbn_in Hlk.
  unfold CreateMapLookupElem in H. rewrite Hnm in H.
  do 3 mstep H.
  apply bind_inv in H. destruct H as (d & sa & Ha & H).
  match type of Ha with accept _ ?S = _ => set (s0 := S) in * end.
  assert (Hwf0 : wf s0).
  { split; unfold s0; proj_cbn.
    - rewrite !minsert_length. exact Hlenk.
    - rewrite !minsert_num_blocks. exact Hlk. }
  destruct (accept_visit_post bpftrace_ _ (fun _ => False) _ _ _ Hwf0 Ha)
    as ((eva & HRa) & _ & _).
  destruct (Rev_spec _ _ _ _ Hwf0 HRa) as (_ & _ & _ & _ & Hwfa).
  pose proof (rev_nv _ _ _ _ HRa) as NVa. unfold s0 in NVa. proj_cbn_in NVa.
  pose proof (rev_fn _ _ _ _ HRa) as Fa. unfold s0 in Fa. proj_cbn_in Fa.
  clear HRa.
  destruct sa as [[ma [fa la] nva] ea da vsa idsa npia pfa tsa ula cxa lpa capa].
  proj_cbn_in Fa. subst fa.
  pose proof Hwfa as [Hlena Hla]. proj_cbn_in Hlena. proj_cbn_in Hla.
  destruct ea as [e|];
    [|apply bind_inv in H; destruct H as (? & ? & H1 & _); discriminate H1].
  destruct (decide (getType e = TInt 64)) as [Ht|Ht] eqn:Hdec.
  all: mstep H; unfold CreateIntCast in H; rewrite Hdec in H.
  all: destruct d as [vd|].
  all: repeat mstep H; prim H.
  all: match type of Hk with _ = Ok (?K, ?SK) =>
         match type of Ha with _ = Ok (?D, ?SA) =>
           exists K, SK, s0, D, SA, e
         end end.
  all: proj_cbn;
       unfold min_events, min_invert, min_test, min_store, min_end, cast_code, cast_val,
         cast_next, deleter_code;
       rewrite Hdec;
       cbn [mrun fold_left mrun_event map app].
  all: repeat lazymatch goal with |- _ /\ _ => split end.
  all: try reflexivity; try assumption; try lia.
  all: norm_labels_goal; cbn [getType getInt64];
       rewrite ?Nat.add_succ_r, ?Nat.add_0_r; reflexivity.
Qed.

Lemma min_events_valid lc n id e sg ident key oldval newval d :
  (lc < n)%nat -> mvalid n (min_events lc n id e sg ident key oldval newval d).
Proof.
  intros H. unfold min_events. apply mvalid_app; [apply mvalid_map; exact H|].
  rewrite mcount_map, Nat.add_0_r. cbn [app mvalid].
  apply mvalid_app; [apply mvalid_map; lia|].
  apply mvalid_app; [apply mvalid_map; lia|].
  apply mvalid_map. lia.
Qed.

(** [min]: the map is updated with the inverted value exactly when the
    inverted value is at least the old value, both read as signed. *)
Lemma min_update_iff_sge cmap arg rest ty s s' :
  wf s ->
  needMemcpy (map_type cmap) = false ->
  visit bpftrace_ (Call "min" (Some cmap) (arg :: rest) ty) s = Ok (tt, s') ->
  exists key sk s0 d sa e,
    getMapKey bpftrace_ cmap s = Ok (key, sk)
    /\ module_ (b_ s0)
       = mrun (cur_fn sk)
           (map (MInstr (cur_bb sk))
              [MapLookupElem (next_value (b_ sk)) (map_ident cmap) key;
               Alloca (S (next_value (b_ sk))) (map_ident cmap +:+ "_val")
                 (ASized (map_type cmap))])
           (module_ (b_ sk))
    /\ insert_block (b_ s0) = insert_block (b_ sk)
    /\ accept (visit bpftrace_ arg) s0 = Ok (d, sa)
    /\ expr_ sa = Some e
    /\ let f := cur_fn sa in
       let lc := cur_bb sa in
       let k := length (block_instrs (module_ (b_ sa)) f lc) in
       let lt := nblocks sa in
       let oldval := Inst (next_value (b_ sk)) (TInt 64) in
       forall m b x old,
         eval m e = Some (RInt b x) ->
         eval m oldval = Some (RInt 64 old) ->
         let v := if decide (getType e = TInt 64) then x
                  else eval_intcast b 64 x (IsSigned (expr_type arg)) in
         let inverted := (4294967295 - v) mod 2 ^ 64 in
         exists p m',
           run (length p) (block_instrs (module_ (b_ s')) f) (lc, k) m
           = (p, Running (lt, O) m')
           /\ if to_signed 64 old <=? to_signed 64 inverted
              then exists kv,
                     effects m'
                     = effects m ++ [EffMapUpdate (map_ident cmap) kv (Some (RInt 64 inverted))]
              else effects m' = effects m.
Proof.
  intros Hwf Hnm H.
  destruct (min_stages _ _ _ _ _ _ Hwf Hnm H)
    as (key & sk & s0 & d & sa & e & Hk & HM0 & HI0 & Ha & He & Hwfa & Hnv & HM).
  exists key, sk, s0, d, sa, e.
  split; [exact Hk|]. split; [exact HM0|]. split; [exact HI0|].
  split; [exact Ha|]. split; [exact He|].
  intros f lc k lt oldval m b x old Hev Hold v inverted.
  pose proof Hwfa as [Hlena Hla]. fold f in Hlena. fold lc lt in Hla.
  destruct (mrun_spec f _ (module_ (b_ sa)) Hlena
              (min_events_valid lc lt (next_value (b_ sa)) e (IsSigned (expr_type arg))
                 (map_ident cmap) key (Inst (next_value (b_ sk)) (TInt 64))
                 (AllocaInst (S (next_value (b_ sk))) (ASized (map_type cmap))) d Hla))
    as (_ & _ & HB & _).
  fold f lc lt in HM. rewrite <- HM in HB.
  assert (Hn : forall l, (lt <= l)%nat -> block_instrs (module_ (b_ sa)) f l = []).
  { intros l Hl. apply block_instrs_ge. exact Hl. }
  set (pre := block_instrs (module_ (b_ sa)) f lc) in *.
  assert (Hc : block_instrs (module_ (b_ s')) f lc
               = pre ++ min_invert (next_value (b_ sa)) e (IsSigned (expr_type arg))
                 ++ min_test lt (lt + 1) (cast_next (next_value (b_ sa)) e 64)
                      (Inst (next_value (b_ sk)) (TInt 64))).
  { rewrite HB. fold pre. unfold min_events.
    rewrite !mcollect_app, !mcollect_map_same, !mcollect_map_other by lia.
    cbn [mcollect app]. rewrite !app_nil_r. reflexivity. }
  assert (Hge : block_instrs (module_ (b_ s')) f (lt + 1)
                = min_store lt (cast_next (next_value (b_ sa)) e 64) (map_ident cmap) key
                    (AllocaInst (S (next_value (b_ sk))) (ASized (map_type cmap)))).
  { rewrite HB, Hn by lia. unfold min_events.
    rewrite !mcollect_app, !mcollect_map_same, !mcollect_map_other by lia.
    cbn [mcollect app]. rewrite !app_nil_r. reflexivity. }
  clear HB HM.
  unfold min_invert, min_test, min_store, cast_code, cast_val, cast_next in Hc, Hge.
  unfold v in inverted. clear v.
  unfold oldval in Hold. clear oldval. cbn [eval] in Hold.
  change (getInt64 4294967295) with (ConstantInt 64 4294967295) in Hc.
  set (nva := next_value (b_ sa)) in *. set (nvk := next_value (b_ sk)) in *.
  assert (Hcmp : eval_icmp ICMP_SGE 64 inverted old
                 = (to_signed 64 old <=? to_signed 64 inverted)) by reflexivity.
  destruct (decide (getType e = TInt 64)) as [Ht|Ht];
    cbn [app] in Hc;
    destruct (to_signed 64 old <=? to_signed 64 inverted) eqn:Hsge.
  all: eassert (Hrun : reaches (block_instrs (module_ (b_ s')) f) (lc, k) m _
                         (Running (lt, O) _));
    [ match type of Hc with
      | _ = ?pre' ++ ?body =>
          split_body body ltac:(fun ins rest =>
            lazymatch rest with
            | CondBr ?c ?t ?f' :: ?rest' =>
                eapply (reaches_block_condbr _ _ _ _ pre' ins c t f' rest' _ _ _ _ _ Hc)
            end)
      end;
      [ reflexivity | reflexivity
      | repeat (progress (machine_cbn; upd_simpl; rewrite ?Hev, ?Hold)); reflexivity
      | repeat (progress (machine_cbn; upd_simpl; rewrite ?Hev, ?Hold)); reflexivity
      | fold inverted; rewrite Hcmp; cbn [Z.eqb];
        first [ apply reaches_here | go_block Hge; apply reaches_here ] ]
    | ].
  all: do 2 eexists; split; [exact (reaches_run _ _ _ _ _ Hrun)|].
  all: machine_go; first [ reflexivity | eexists; reflexivity ].
Qed.
End Min.

(** [@ = min(n)] for a literal [n], lowered into the entry block of a
    function, and what a run of [fuel] steps of the lowered code has done to
    the maps when every lookup misses (reads zero). *)
Definition min_call (n : Z) : Expression :=
  Call "min" (Some (mkMap "@" None CreateUInt64)) [Integer n CreateInt64] no_type.
Definition effects_of (o : list (nat * nat) * Outcome) : option (list Effect) :=
  match snd o with
  | Running _ m => Some (effects m)
  | Returned _ m => Some (effects m)
  | Stuck => None
  end.
Definition min_run (n : Z) (fuel : nat) : list (nat * nat) * Outcome :=
  let s' := state_of (visit bpftrace_example (min_call n) state_in_entry) in
  run fuel (block_instrs (module_ (b_ s')) O) (O, O) (machine_init [] (fun _ => 0)).

(** C1, at [@ = min(4294967296)] on an empty slot: the lowering succeeds, the
    run takes the branch around the storing block and reaches the end of the
    code without a map update, although this is the first occurrence; at
    [@ = min(5)] the inverted value [0xffffffff - 5] is stored. *)
Theorem C1_min_first_occurrence_not_stored :
  (exists s', visit bpftrace_example (min_call 4294967296) state_in_entry = Ok (tt, s'))
  /\ fst (min_run 4294967296 9) = positions 0 0 7 ++ positions 1 0 2
  /\ effects_of (min_run 4294967296 9) = Some []
  /\ fst (min_run 5 12) = positions 0 0 7 ++ positions 2 0 3 ++ positions 1 0 2
  /\ effects_of (min_run 5 12)
     = Some [EffMapUpdate "@" (Some (RInt 64 0)) (Some (RInt 64 4294967290))].
Proof.
  split; [eexists; vm_compute; reflexivity|].
  repeat split; vm_compute; reflexivity.
Qed.

(** * [strftime]: the buffer handed to the caller *)


(** The code of the [strftime] branch: before the lowering of its second
    argument the buffer is allocated and the current [strftime_id_] goes to
    field 0; after it the value of the argument goes to field 1. *)
Definition strftime_buf (id : nat) (elements : list Ty) : Value :=
  AllocaInst id (AStruct "strftime_t" elements true).
Definition strftime_head (id : nat) (elements : list Ty) (e0 : Ty) (strftime_id : Z)
  : list Instr :=
  [Alloca id "strftime_args" (AStruct "strftime_t" elements true);
   GEP (S id) (strftime_buf id elements) [getInt64 0; getInt32 0];
   Store (GetIntSameSize strftime_id e0) (Inst (S id) TPtr)].
Definition strftime_tail (id idp : nat) (elements : list Ty) (v : Value)
    (d : ScopedExprDeleter) : list Instr :=
  [GEP idp (strftime_buf id elements) [getInt64 0; getInt32 1];
   Store v (Inst idp TPtr)]
  ++ deleter_code d.

Definition is_output (i : Instr) : bool :=
  match i with
  | PerfEventOutput _ _ _ => true
  | _ => false
  end.

Section Strftime.
Variable bpftrace_ : BPFtrace.

Lemma strftime_stages cmap a0 arg rest ty s s' :
  wf s ->
  visit bpftrace_ (Call "strftime" cmap (a0 :: arg :: rest) ty) s = Ok (tt, s') ->
  let f := cur_fn s in
  let id := next_value (b_ s) in
  let elements := Strftime_asLLVMType bpftrace_ in
  exists e0 s0 d sa v,
    elements !! O = Some e0
    /\ module_ (b_ s0)
       = mrun f (map (MInstr (cur_bb s))
                   (strftime_head id elements e0 (strftime_id_ (ids_ s))))
           (module_ (b_ s))
    /\ insert_block (b_ s0) = insert_block (b_ s)
    /\ strftime_id_ (ids_ s0) = strftime_id_ (ids_ s) + 1
    /\ accept (visit bpftrace_ arg) s0 = Ok (d, sa)
    /\ expr_ sa = Some v
    /\ wf sa
    /\ module_ (b_ s')
       = mrun f (map (MInstr (cur_bb sa))
                   (strftime_tail id (next_value (b_ sa)) elements v d))
           (module_ (b_ sa))
    /\ insert_block (b_ s') = insert_block (b_ sa)
    /\ ids_ s' = ids_ sa
    /\ expr_ s' = Some (strftime_buf id elements).
Proof.
  intros Hwf H. pose proof Hwf as [Hlen Hl0].
  destruct s as [[m [f l0] nv] e d0 vs ids npi pf ts ul cx lp cap].
  proj_cbn_in Hlen. proj_cbn_in Hl0. proj_cbn.
  cbn [visit String.eqb Ascii.eqb Bool.eqb] in H.
  do 6 mstep H.
  apply bind_inv in H. destruct H as (d & sa & Ha & H).
  match type of Ha with accept _ ?S = _ => set (s0 := S) in * end.
  assert (Hwf0 : wf s0).
  { split; unfold s0; proj_cbn.
    - rewrite !minsert_length. exact Hlen.
    - rewrite !minsert_num_blocks. exact Hl0. }
  destruct (accept_visit_post bpftrace_ _ (fun _ => False) _ _ _ Hwf0 Ha)
    as ((eva & HRa) & _ & _).
  destruct (Rev_spec _ _ _ _ Hwf0 HRa) as (_ & _ & _ & _ & Hwfa).
  pose proof (rev_fn _ _ _ _ HRa) as Fa. unfold s0 in Fa. proj_cbn_in Fa.
  clear HRa.
  destruct sa as [[ma [fa la] nva] ea da vsa idsa npia pfa tsa ula cxa lpa capa].
  proj_cbn_in Fa. subst fa.
  pose proof Hwfa as [Hlena Hla]. proj_cbn_in Hlena. proj_cbn_in Hla.
  destruct ea as [v|];
    [|apply bind_inv in H; destruct H as (? & ? & H1 & _); discriminate H1].
  destruct d as [vd|].
  all: repeat mstep H; prim H.
  all: match goal with
       | E : Strftime_asLLVMType bpftrace_ !! _ = Some ?e0 |- _ =>
           match type of Ha with _ = Ok (?D, ?SA) => exists e0, s0, D, SA, v end
       end.
  all: proj_cbn; unfold strftime_head, strftime_tail, strftime_buf, deleter_code;
       cbn [mrun fold_left mrun_event map app].
  all: repeat lazymatch goal with |- _ /\ _ => split end.
  all: try reflexivity; try assumption.
Qed.

(** C4, as the code has it: [strftime(fmt, ts)] allocates a buffer, stores
    the current [strftime_id_] (not an action id) into field 0 and increments
    the counter, lowers [ts] and stores its value into field 1; the buffer is
    the value of the expression.  None of these instructions outputs an
    event, and running them leaves the effects as they were. *)
Theorem C4_strftime_fills_buffer cmap a0 arg rest ty s s' :
  wf s ->
  visit bpftrace_ (Call "strftime" cmap (a0 :: arg :: rest) ty) s = Ok (tt, s') ->
  let f := cur_fn s in
  let id := next_value (b_ s) in
  let elements := Strftime_asLLVMType bpftrace_ in
  let sid := strftime_id_ (ids_ s) in
  exists e0 s0 d sa v,
    elements !! O = Some e0
    /\ module_ (b_ s0)
       = mrun f (map (MInstr (cur_bb s)) (strftime_head id elements e0 sid)) (module_ (b_ s))
    /\ strftime_id_ (ids_ s0) = sid + 1
    /\ accept (visit bpftrace_ arg) s0 = Ok (d, sa)
    /\ expr_ sa = Some v
    /\ module_ (b_ s')
       = mrun f (map (MInstr (cur_bb sa))
                   (strftime_tail id (next_value (b_ sa)) elements v d))
           (module_ (b_ sa))
    /\ ids_ s' = ids_ sa
    /\ expr_ s' = Some (strftime_buf id elements)
    /\ forallb (fun i => negb (is_output i))
         (strftime_head id elements e0 sid
          ++ strftime_tail id (next_value (b_ sa)) elements v d) = true
    /\ (forall m, exists m',
          exec_list (strftime_head id elements e0 sid) m = Some m'
          /\ mem m' id 0 = eval m (GetIntSameSize sid e0)
          /\ effects m' = effects m)
    /\ (forall m x, eval m v = Some x -> (forall t, v <> Inst (next_value (b_ sa)) t) ->
          exists m',
            exec_list (firstn 2 (strftime_tail id (next_value (b_ sa)) elements v d)) m
            = Some m'
            /\ mem m' id 1 = Some x
            /\ mem m' id 0 = mem m id 0
            /\ effects m' = effects m).
Proof.
  intros Hwf H f id elements sid.
  destruct (strftime_stages _ _ _ _ _ _ _ Hwf H)
    as (e0 & s0 & d & sa & v & He0 & HM0 & _ & Hid & Ha & Hv & _ & HM' & _ & Hids & He).
  exists e0, s0, d, sa, v.
  repeat lazymatch goal with |- _ /\ _ => split end; try assumption.
  - destruct d; reflexivity.
  - intros m. unfold strftime_head, strftime_buf.
    change (getInt64 0) with (ConstantInt 64 0). change (getInt32 0) with (ConstantInt 32 0).
    destruct e0; cbn [GetIntSameSize]; eexists;
      (split; [machine_go; reflexivity|]);
      (split; [machine_go; rewrite ?Z.add_0_r; upd_simpl; reflexivity | reflexivity]).
  - intros m x Hx Hfresh. unfold strftime_tail, strftime_buf. cbn [firstn app].
    change (getInt64 0) with (ConstantInt 64 0). change (getInt32 1) with (ConstantInt 32 1).
    assert (Hx' : forall r, eval (set_reg (next_value (b_ sa)) r m) v = Some x).
    { intros r. destruct v as [| i t | | | |]; cbn [eval set_reg regs] in *; auto.
      rewrite upd_ne; [exact Hx|]. intros E. apply (Hfresh t). rewrite E. reflexivity. }
    eexists. split.
    { cbn [exec_list exec eval gep_offset]. rewrite Hx'. machine_go. reflexivity. }
    machine_go. change (0 + 1) with 1. upd_simpl.
    split; [reflexivity|]. split; [|reflexivity].
    unfold upd_mem. rewrite Nat.eqb_refl. reflexivity.
Qed.

End Strftime.

(** [strftime("%H:%M", 5)] with the counter at 7. *)
Definition strftime_call : Expression :=
  Call "strftime" None [String "%H:%M" no_type; Integer 5 CreateInt64] no_type.
Definition state_strftime : CodegenLLVM :=
  with_ids (set_strftime_id 7) state_in_entry.

Lemma C4_strftime_witness :
  let s := state_strftime in
  let s' := state_of (visit bpftrace_example strftime_call s) in
  wf s
  /\ visit bpftrace_example strftime_call s = Ok (tt, s')
  /\ expr_ s' = Some (strftime_buf 0 [TInt 64; TInt 64])
  /\ strftime_id_ (ids_ s') = 8.
Proof.
  intros s s'.
  assert (Hwf : wf s) by (split; vm_compute; lia).
  assert (H : visit bpftrace_example strftime_call s = Ok (tt, s'))
    by (vm_compute; reflexivity).
  split; [exact Hwf|]. split; [exact H|].
  destruct (C4_strftime_fills_buffer bpftrace_example None (String "%H:%M" no_type)
              (Integer 5 CreateInt64) [] no_type s s' Hwf H)
    as (e0 & s0 & d & sa & v & _ & _ & _ & _ & _ & _ & _ & He & _).
  split; [exact He|]. vm_compute. reflexivity.
Defined.

(** The code lowered from [strftime("%H:%M", 5)]: field 0 receives the
    counter value 7, field 1 the timestamp, and there is no output
    instruction. *)
Lemma C4_strftime_counterexample :
  let s' := state_of (visit bpftrace_example strftime_call state_strftime) in
  let buf := strftime_buf 0 [TInt 64; TInt 64] in
  visit bpftrace_example strftime_call state_strftime = Ok (tt, s')
  /\ block_instrs (module_ (b_ s')) 0 0
     = [Alloca 0 "strftime_args" (AStruct "strftime_t" [TInt 64; TInt 64] true);
        GEP 1 buf [ConstantInt 64 0; ConstantInt 32 0];
        Store (ConstantInt 64 7) (Inst 1 TPtr);
        GEP 2 buf [ConstantInt 64 0; ConstantInt 32 1];
        Store (ConstantInt 64 5) (Inst 2 TPtr)]
  /\ ~ (exists i, In i (block_instrs (module_ (b_ s')) 0 0) /\ is_output i = true).
Proof.
  intros s' buf. split; [vm_compute; reflexivity|].
  assert (Hc : block_instrs (module_ (b_ s')) 0 0
               = [Alloca 0 "strftime_args" (AStruct "strftime_t" [TInt 64; TInt 64] true);
                  GEP 1 buf [ConstantInt 64 0; ConstantInt 32 0];
                  Store (ConstantInt 64 7) (Inst 1 TPtr);
                  GEP 2 buf [ConstantInt 64 0; ConstantInt 32 1];
                  Store (ConstantInt 64 5) (Inst 2 TPtr)]) by (vm_compute; reflexivity).
  split; [exact Hc|].
  rewrite Hc. intros (i & Hin & Hi). cbn [In] in Hin.
  repeat (destruct Hin as [<-|Hin]; [discriminate Hi|]). contradiction.
Qed.

(** * Binary operations on integers *)


(** The instruction that the [switch] of [visit(Binop&)] emits for [op] on
    the promoted operands, and the value it yields. *)
Definition binop_instr (op : token) (do_signed : bool) (id : nat) (a b : Value)
  : option Instr :=
  match op with
  | EQ => Some (ICmp id ICMP_EQ a b "")
  | NE => Some (ICmp id ICMP_NE a b "")
  | LE => Some (ICmp id (if do_signed then ICMP_SLE else ICMP_ULE) a b "")
  | GE => Some (ICmp id (if do_signed then ICMP_SGE else ICMP_UGE) a b "")
  | LT => Some (ICmp id (if do_signed then ICMP_SLT else ICMP_ULT) a b "")
  | GT => Some (ICmp id (if do_signed then ICMP_SGT else ICMP_UGT) a b "")
  | LEFT => Some (BinaryOp id Shl a b)
  | RIGHT => Some (BinaryOp id LShr a b)
  | PLUS => Some (BinaryOp id Add a b)
  | MINUS => Some (BinaryOp id Sub a b)
  | MUL => Some (BinaryOp id Mul a b)
  | DIV => Some (BinaryOp id UDiv a b)
  | MOD => Some (BinaryOp id URem a b)
  | BAND => Some (BinaryOp id And a b)
  | BOR => Some (BinaryOp id Or a b)
  | BXOR => Some (BinaryOp id Xor a b)
  | LAND | LOR => None
  end.
Definition is_comparison (op : token) : bool :=
  match op with
  | EQ | NE | LE | GE | LT | GT => true
  | _ => false
  end.
Definition binop_result (op : token) (id : nat) (a : Value) : Value :=
  Inst id (if is_comparison op then TInt 1 else getType a).

(** The code of the integer branch after the lowering of both operands:
    promotion of each operand with its own signedness, the operation, the
    destructors of the two operands, and the final cast without sign. *)
Definition binop_code (id : nat) (lhs rhs : Value) (lsign rsign : bool) (op : token)
    (dl dr : ScopedExprDeleter) : list Instr :=
  let l' := cast_val id lhs 64 in
  let i1 := cast_next id lhs 64 in
  let r' := cast_val i1 rhs 64 in
  let i2 := cast_next i1 rhs 64 in
  cast_code id lhs 64 lsign
  ++ cast_code i1 rhs 64 rsign
  ++ option_list (binop_instr op (lsign && rsign) i2 l' r')
  ++ deleter_code dr ++ deleter_code dl
  ++ cast_code (S i2) (binop_result op i2 l') 64 false.
Definition binop_next (id : nat) (lhs rhs : Value) (op : token) : nat :=
  let i2 := cast_next (cast_next id lhs 64) rhs 64 in
  cast_next (S i2) (binop_result op i2 (cast_val id lhs 64)) 64.
Definition binop_value (id : nat) (lhs rhs : Value) (op : token) : Value :=
  let i2 := cast_next (cast_next id lhs 64) rhs 64 in
  cast_val (S i2) (binop_result op i2 (cast_val id lhs 64)) 64.

(** The state after a run of builder calls that append [code] to the
    current block and leave [nv'] as the next free number. *)
Definition emits (code : list Instr) (nv' : nat) (s : CodegenLLVM) : CodegenLLVM :=
  with_b (fun b => mkBuilder
                     (mrun (fst (insert_block b)) (map (MInstr (snd (insert_block b))) code)
                        (module_ b))
                     (insert_block b) nv') s.

Lemma CreateIntCast_emits v bits sg s :
  CreateIntCast v bits sg s
  = Ok (cast_val (next_value (b_ s)) v bits,
        emits (cast_code (next_value (b_ s)) v bits sg) (cast_next (next_value (b_ s)) v bits) s).
Proof.
  unfold CreateIntCast, cast_val, cast_code, cast_next, emits.
  destruct s as [[m [f l] nv] e d vs ids npi pf ts ul cx lp cap].
  destruct (decide (getType v = TInt bits)); reflexivity.
Qed.

Lemma binop_int_emits op ds a b s :
  token_eqb op LAND = false -> token_eqb op LOR = false ->
  binop_int op ds a b s
  = Ok (binop_result op (next_value (b_ s)) a,
        emits (option_list (binop_instr op ds (next_value (b_ s)) a b))
          (S (next_value (b_ s))) s).
Proof.
  intros H1 H2. destruct s as [[m [f l] nv] e d vs ids npi pf ts ul cx lp cap].
  destruct op; try discriminate H1; try discriminate H2; reflexivity.
Qed.

Lemma scope_exit_emits d s :
  scope_exit d s = Ok (tt, emits (deleter_code d) (next_value (b_ s)) s).
Proof.
  destruct s as [[m [f l] nv] e d0 vs ids npi pf ts ul cx lp cap].
  destruct d; reflexivity.
Qed.

Lemma emits_emits c1 n1 c2 n2 s :
  emits c2 n2 (emits c1 n1 s) = emits (c1 ++ c2) n2 s.
Proof.
  destruct s as [[m [f l] nv] e d vs ids npi pf ts ul cx lp cap].
  unfold emits, with_b. cbn [b_ module_ insert_block fst snd next_value].
  rewrite List.map_app, mrun_app. reflexivity.
Qed.

Lemma next_value_emits c n s : next_value (b_ (emits c n s)) = n.
Proof. destruct s. reflexivity. Qed.
Lemma next_value_with_expr e s : next_value (b_ (with_expr e s)) = next_value (b_ s).
Proof. destruct s. reflexivity. Qed.

Lemma emits_with_expr c n e s : emits c n (with_expr e s) = with_expr e (emits c n s).
Proof. destruct s. reflexivity. Qed.

Lemma with_expr_with_expr e1 e2 s : with_expr e2 (with_expr e1 s) = with_expr e2 s.
Proof. destruct s. reflexivity. Qed.

(** ** What the code of the integer branch computes *)

(** The promotion of a [b]-bit value to 64 bits. *)
Definition promote (b x : Z) (sg : bool) : Z :=
  if decide (b = 64) then x else eval_intcast b 64 x sg.

Definition b2z (b : bool) : Z := if b then 1 else 0.

(** The result of [op] on two promoted operands, given as unsigned
    representatives; [None] where the machine has no result. *)
Definition binop_meaning (op : token) (do_signed : bool) (x y : Z) : option Z :=
  match op with
  | EQ => Some (b2z (x =? y))
  | NE => Some (b2z (negb (x =? y)))
  | LE => Some (b2z (if do_signed then to_signed 64 x <=? to_signed 64 y else x <=? y))
  | GE => Some (b2z (if do_signed then to_signed 64 y <=? to_signed 64 x else y <=? x))
  | LT => Some (b2z (if do_signed then to_signed 64 x <? to_signed 64 y else x <? y))
  | GT => Some (b2z (if do_signed then to_signed 64 y <? to_signed 64 x else y <? x))
  | LEFT => if y <? 64 then Some ((x * 2 ^ y) mod 2 ^ 64) else None
  | RIGHT => if y <? 64 then Some (x / 2 ^ y) else None
  | PLUS => Some ((x + y) mod 2 ^ 64)
  | MINUS => Some ((x - y) mod 2 ^ 64)
  | MUL => Some ((x * y) mod 2 ^ 64)
  | DIV => if y =? 0 then None else Some (x / y)
  | MOD => if y =? 0 then None else Some (x mod y)
  | BAND => Some (Z.land x y)
  | BOR => Some (Z.lor x y)
  | BXOR => Some (Z.lxor x y)
  | LAND | LOR => None
  end.

(** A value that does not name a register numbered [n] or above. *)
Definition value_below (n : nat) (v : Value) : Prop :=
  match v with
  | Inst i _ => (i < n)%nat
  | _ => True
  end.

Lemma value_below_mono n n' v : (n <= n')%nat -> value_below n v -> value_below n' v.
Proof. destruct v; simpl; auto. lia. Qed.

Lemma exec_list_app a : forall b m m1,
  exec_list a m = Some m1 -> exec_list (a ++ b) m = exec_list b m1.
Proof.
  induction a as [|i a IH]; intros b m m1 H; simpl in *.
  - injection H as <-. reflexivity.
  - destruct (exec i m) as [m2|]; [|discriminate]. eauto.
Qed.

Lemma eval_set_reg_below id r m w :
  value_below id w -> eval (set_reg id r m) w = eval m w.
Proof.
  destruct w; simpl; auto. intros H. rewrite upd_ne by lia. reflexivity.
Qed.

Lemma cast_runs id v sg m b x :
  eval m v = Some (RInt b x) -> getType v = TInt b -> value_below id v ->
  exists m',
    exec_list (cast_code id v 64 sg) m = Some m'
    /\ eval m' (cast_val id v 64) = Some (RInt 64 (promote b x sg))
    /\ getType (cast_val id v 64) = TInt 64
    /\ value_below (cast_next id v 64) (cast_val id v 64)
    /\ (id <= cast_next id v 64)%nat
    /\ (forall w, value_below id w -> eval m' w = eval m w)
    /\ effects m' = effects m.
Proof.
  intros He Ht Hb. unfold cast_code, cast_val, cast_next, promote. rewrite Ht.
  destruct (decide (TInt b = TInt 64)) as [E|E].
  - injection E as ->. exists m. rewrite He.
    destruct (decide (64 = 64)); [|congruence]. repeat split; auto.
  - destruct (decide (b = 64)) as [->|_]; [congruence|].
    eexists. split; [cbn [exec_list exec]; rewrite He; reflexivity|].
    split; [cbn [eval set_reg regs]; rewrite upd_eq; reflexivity|].
    split; [reflexivity|]. split; [simpl; lia|]. split; [lia|].
    split; [intros w Hw; apply eval_set_reg_below; exact Hw | reflexivity].
Qed.

Lemma deleter_runs d m :
  d = None \/ (exists id t, d = Some (AllocaInst id t)) ->
  exists m',
    exec_list (deleter_code d) m = Some m'
    /\ (forall w, eval m' w = eval m w)
    /\ effects m' = effects m.
Proof.
  intros [->|(id & t & ->)]; cbn [deleter_code exec_list exec eval]; eexists;
    (split; [reflexivity|]); split; try reflexivity; intros w; destruct w; reflexivity.
Qed.

Lemma binop_instr_runs op ds id a b m x y z :
  eval m a = Some (RInt 64 x) -> eval m b = Some (RInt 64 y) ->
  getType a = TInt 64 ->
  binop_meaning op ds x y = Some z ->
  exists m',
    exec_list (option_list (binop_instr op ds id a b)) m = Some m'
    /\ eval m' (binop_result op id a) = Some (RInt (if is_comparison op then 1 else 64) z)
    /\ (forall w, value_below id w -> eval m' w = eval m w)
    /\ effects m' = effects m.
Proof.
  intros Ha Hb Ht Hz.
  destruct op; cbn [binop_meaning] in Hz; try discriminate Hz;
    unfold option_list, binop_result;
    cbn [binop_instr option_rect exec_list exec is_comparison];
    rewrite Ha, Hb; cbn [eval_binop];
    repeat match type of Hz with
      | (if ?c then _ else _) = Some _ => destruct c eqn:?; [|]; try discriminate Hz
      end;
    try discriminate Hz;
    injection Hz as <-;
    eexists; (split; [reflexivity|]);
    (split; [cbn [eval set_reg regs]; rewrite upd_eq; destruct ds; reflexivity|]);
    (split; [intros w Hw; apply eval_set_reg_below; exact Hw | reflexivity]).
Qed.

Lemma binop_code_runs id lhs rhs lsign rsign op dl dr m bl x br y z :
  eval m lhs = Some (RInt bl x) -> getType lhs = TInt bl -> value_below id lhs ->
  eval m rhs = Some (RInt br y) -> getType rhs = TInt br -> value_below id rhs ->
  (dl = None \/ exists i t, dl = Some (AllocaInst i t)) ->
  (dr = None \/ exists i t, dr = Some (AllocaInst i t)) ->
  binop_meaning op (lsign && rsign) (promote bl x lsign) (promote br y rsign) = Some z ->
  exists m',
    exec_list (binop_code id lhs rhs lsign rsign op dl dr) m = Some m'
    /\ eval m' (binop_value id lhs rhs op) = Some (RInt 64 z)
    /\ effects m' = effects m.
Proof.
  intros El Tl Bl Er Tr Br Dl Dr Hz. unfold binop_code, binop_value. cbv zeta.
  set (l' := cast_val id lhs 64). set (i1 := cast_next id lhs 64).
  set (r' := cast_val i1 rhs 64). set (i2 := cast_next i1 rhs 64).
  destruct (cast_runs id lhs lsign m bl x El Tl Bl) as (m1 & X1 & E1 & T1 & B1 & L1 & P1 & F1).
  fold l' i1 in E1, T1, B1, L1.
  assert (Er1 : eval m1 rhs = Some (RInt br y)) by (rewrite P1; assumption).
  destruct (cast_runs i1 rhs rsign m1 br y Er1 Tr (value_below_mono _ _ _ L1 Br))
    as (m2 & X2 & E2 & T2 & B2 & L2 & P2 & F2).
  fold r' i2 in E2, T2, B2, L2.
  assert (El2 : eval m2 l' = Some (RInt 64 (promote bl x lsign)))
    by (rewrite P2; assumption).
  destruct (binop_instr_runs op (lsign && rsign) i2 l' r' m2 _ _ z El2 E2 T1 Hz)
    as (m3 & X3 & E3 & P3 & F3).
  destruct (deleter_runs dr m3 Dr) as (m4 & X4 & P4 & F4).
  destruct (deleter_runs dl m4 Dl) as (m5 & X5 & P5 & F5).
  assert (E5 : eval m5 (binop_result op i2 l')
               = Some (RInt (if is_comparison op then 1 else 64) z))
    by (rewrite P5, P4; exact E3).
  assert (T5 : getType (binop_result op i2 l') = TInt (if is_comparison op then 1 else 64)).
  { unfold binop_result. cbn [getType]. destruct (is_comparison op); [reflexivity|exact T1]. }
  assert (B5 : value_below (S i2) (binop_result op i2 l')) by (simpl; lia).
  destruct (cast_runs (S i2) _ false m5 _ z E5 T5 B5) as (m6 & X6 & E6 & _ & _ & _ & _ & F6).
  exists m6. split; [|split].
  - rewrite (exec_list_app _ _ _ _ X1), (exec_list_app _ _ _ _ X2), (exec_list_app _ _ _ _ X3),
      (exec_list_app _ _ _ _ X4), (exec_list_app _ _ _ _ X5). exact X6.
  - rewrite E6. f_equal. f_equal. unfold promote.
    destruct (is_comparison op); [|reflexivity].
    destruct (decide (1 = 64)) as [Habs|_]; [discriminate Habs|]. reflexivity.
  - congruence.
Qed.

Section BinopInt.
Variable bpftrace_ : BPFtrace.

Lemma accept_deleter_shape e s d s' :
  wf s -> accept (visit bpftrace_ e) s = Ok (d, s') ->
  d = None \/ exists id t, d = Some (AllocaInst id t).
Proof.
  intros Hwf H. unfold accept in H.
  apply bind_inv in H. destruct H as ([] & s1 & H1 & H).
  apply bind_inv in H. destruct H as ([] & s2 & H2 & H).
  apply bind_inv in H. destruct H as (d' & s3 & H3 & H).
  apply bind_inv in H. destruct H as (? & s4 & H4 & H).
  cbv [modify gets ret] in H1, H3, H4, H.
  apply Ok_pair_inv in H1. destruct H1 as [_ <-].
  apply Ok_pair_inv in H3. destruct H3 as [<- <-].
  apply Ok_pair_inv in H4. destruct H4 as [_ <-].
  apply Ok_pair_inv in H. destruct H as [<- _].
  assert (Hwf1 : wf (with_expr_deleter None s)) by exact Hwf.
  destruct (visit_post bpftrace_ e (fun _ => False) _ _ Hwf1 H2) as (_ & _ & [Hd|[Hd|Hd]]).
  - left. rewrite Hd. destruct s. reflexivity.
  - left. exact Hd.
  - right. exact Hd.
Qed.

Lemma binop_int_stages left_ op right_ ty s s' :
  wf s ->
  token_eqb op LAND = false -> token_eqb op LOR = false ->
  IsStringTy (expr_type left_) = false -> IsBufferTy (expr_type left_) = false ->
  visit bpftrace_ (Binop left_ op right_ ty) s = Ok (tt, s') ->
  exists dl sl lhs dr sr rhs,
    accept (visit bpftrace_ left_) s = Ok (dl, sl)
    /\ expr_ sl = Some lhs
    /\ accept (visit bpftrace_ right_) sl = Ok (dr, sr)
    /\ expr_ sr = Some rhs
    /\ wf sr
    /\ s' = with_expr (Some (binop_value (next_value (b_ sr)) lhs rhs op))
              (emits (binop_code (next_value (b_ sr)) lhs rhs (IsSigned (expr_type left_))
                        (IsSigned (expr_type right_)) op dl dr)
                 (binop_next (next_value (b_ sr)) lhs rhs op) sr).
Proof.
  intros Hwf Hand Hor Hstr Hbuf H.
  cbn [visit] in H. rewrite Hand, Hor, Hstr, Hbuf in H.
  apply bind_inv in H. destruct H as ([] & s3 & H & Hfin).
  apply bind_inv in H. destruct H as (dl & sl & Hl & H).
  pose proof (Post_wf _ _ _ Hwf (accept_visit_post bpftrace_ _ (fun _ => False) _ _ _ Hwf Hl))
    as Hwfl.
  apply bind_inv in H. destruct H as (lhs & sl' & Hlhs & H).
  assert (expr_ sl = Some lhs /\ sl' = sl) as [Hel ->].
  { unfold get_expr in Hlhs. destruct (expr_ sl); [|discriminate].
    apply Ok_pair_inv in Hlhs. destruct Hlhs as [<- <-]. auto. }
  apply bind_inv in H. destruct H as (dr & sr & Hr & H).
  pose proof (Post_wf _ _ _ Hwfl (accept_visit_post bpftrace_ _ (fun _ => False) _ _ _ Hwfl Hr))
    as Hwfr.
  apply bind_inv in H. destruct H as (rhs & sr' & Hrhs & H).
  assert (expr_ sr = Some rhs /\ sr' = sr) as [Her ->].
  { unfold get_expr in Hrhs. destruct (expr_ sr); [|discriminate].
    apply Ok_pair_inv in Hrhs. destruct Hrhs as [<- <-]. auto. }
  exists dl, sl, lhs, dr, sr, rhs.
  split; [exact Hl|]. split; [exact Hel|]. split; [exact Hr|]. split; [exact Her|].
  split; [exact Hwfr|].
  cbv zeta in H.
  apply bind_inv in H. destruct H as (l' & s4 & H1 & H).
  rewrite CreateIntCast_emits in H1. apply Ok_pair_inv in H1. destruct H1 as [<- <-].
  apply bind_inv in H. destruct H as (r' & s5 & H1 & H).
  rewrite CreateIntCast_emits in H1. apply Ok_pair_inv in H1. destruct H1 as [<- <-].
  apply bind_inv in H. destruct H as (r & s6 & H1 & H).
  rewrite binop_int_emits in H1 by assumption.
  apply Ok_pair_inv in H1. destruct H1 as [<- <-].
  apply bind_inv in H. destruct H as ([] & s7 & H1 & H).
  cbv [set_expr modify] in H1. apply Ok_pair_inv in H1. destruct H1 as [_ <-].
  apply bind_inv in H. destruct H as ([] & s8 & H1 & H).
  rewrite scope_exit_emits in H1. apply Ok_pair_inv in H1. destruct H1 as [_ <-].
  rewrite scope_exit_emits in H. apply Ok_pair_inv in H. destruct H as [_ <-].
  apply bind_inv in Hfin. destruct Hfin as (v & s9 & H1 & Hfin).
  rewrite !emits_with_expr in H1. cbv [get_expr] in H1.
  rewrite !next_value_emits, !emits_emits in H1.
  match type of H1 with context [expr_ (with_expr ?e ?s)] =>
    change (expr_ (with_expr e s)) with e in H1 end.
  apply Ok_pair_inv in H1. destruct H1 as [<- <-].
  apply bind_inv in Hfin. destruct Hfin as (r & s10 & H1 & Hfin).
  rewrite CreateIntCast_emits in H1. apply Ok_pair_inv in H1. destruct H1 as [<- <-].
  cbv [set_expr modify] in Hfin. apply Ok_pair_inv in Hfin. destruct Hfin as [_ <-].
  rewrite !next_value_with_expr, !next_value_emits, !emits_with_expr, !emits_emits,
    !with_expr_with_expr.
  unfold binop_value, binop_code, binop_next. cbv zeta.
  rewrite <- !app_assoc. reflexivity.
Qed.

(** C6: an integer binary operation other than [&&] and [||] lowers its
    two operands and then appends, to the block in which the lowering of the
    right operand ends: the promotion of each operand to 64 bits with the
    signedness of its own type, the instruction of the operator (for the
    ordered comparisons the signed predicate exactly when both types are
    signed, for [%] the unsigned remainder whatever the types are), the
    destructors of the operands, and a cast of the result to 64 bits that
    never extends the sign.  Run on a machine, this code leaves the value
    [binop_meaning] of the promoted operands, as a 64-bit number, in the
    value of the expression: 0 or 1 for a comparison. *)
Theorem C6_integer_binop left_ op right_ ty s s' :
  wf s ->
  token_eqb op LAND = false -> token_eqb op LOR = false ->
  IsStringTy (expr_type left_) = false -> IsBufferTy (expr_type left_) = false ->
  visit bpftrace_ (Binop left_ op right_ ty) s = Ok (tt, s') ->
  exists dl sl lhs dr sr rhs,
    accept (visit bpftrace_ left_) s = Ok (dl, sl)
    /\ expr_ sl = Some lhs
    /\ accept (visit bpftrace_ right_) sl = Ok (dr, sr)
    /\ expr_ sr = Some rhs
    /\ let id := next_value (b_ sr) in
       let lsign := IsSigned (expr_type left_) in
       let rsign := IsSigned (expr_type right_) in
       let code := binop_code id lhs rhs lsign rsign op dl dr in
       let v := binop_value id lhs rhs op in
       block_instrs (module_ (b_ s')) (cur_fn sr) (cur_bb sr)
       = block_instrs (module_ (b_ sr)) (cur_fn sr) (cur_bb sr) ++ code
       /\ insert_block (b_ s') = insert_block (b_ sr)
       /\ expr_ s' = Some v
       /\ forall m bl x br y z,
            eval m lhs = Some (RInt bl x) -> getType lhs = TInt bl -> value_below id lhs ->
            eval m rhs = Some (RInt br y) -> getType rhs = TInt br -> value_below id rhs ->
            binop_meaning op (lsign && rsign) (promote bl x lsign) (promote br y rsign)
            = Some z ->
            exists m',
              exec_list code m = Some m'
              /\ eval m' v = Some (RInt 64 z)
              /\ effects m' = effects m.
Proof.
  intros Hwf Hand Hor Hstr Hbuf H.
  destruct (binop_int_stages _ _ _ _ _ _ Hwf Hand Hor Hstr Hbuf H)
    as (dl & sl & lhs & dr & sr & rhs & Hl & Hel & Hr & Her & Hwfr & ->).
  pose proof (Post_wf _ _ _ Hwf (accept_visit_post bpftrace_ _ (fun _ => False) _ _ _ Hwf Hl))
    as Hwfl.
  exists dl, sl, lhs, dr, sr, rhs.
  split; [exact Hl|]. split; [exact Hel|]. split; [exact Hr|]. split; [exact Her|].
  cbv zeta. split; [|split; [|split]].
  - destruct Hwfr as [Hlen Hlt].
    destruct sr as [[mr [fr lr] nvr] er dr' vsr idsr npir pfr tsr ulr cxr lpr capr].
    unfold nblocks, cur_fn, cur_bb in *.
    cbn [emits with_b with_expr b_ module_ insert_block fst snd next_value] in *.
    destruct (mrun_spec fr (map (MInstr lr) (binop_code nvr lhs rhs
                 (IsSigned (expr_type left_)) (IsSigned (expr_type right_)) op dl dr))
                mr Hlen (mvalid_map _ _ _ Hlt)) as (_ & _ & HB & _).
    rewrite HB, mcollect_map_same. reflexivity.
  - destruct sr as [[mr ip nvr] er dr' vsr idsr npir pfr tsr ulr cxr lpr capr]. reflexivity.
  - destruct sr. reflexivity.
  - intros m bl x br y z El Tl Bl Er Tr Br Hz.
    exact (binop_code_runs _ _ _ _ _ _ _ _ _ _ _ _ _ _ El Tl Bl Er Tr Br
             (accept_deleter_shape _ _ _ _ Hwf Hl) (accept_deleter_shape _ _ _ _ Hwfl Hr) Hz).
Qed.
End BinopInt.

(** [-7 % 2] on two signed operands: the remainder is taken on the unsigned
    representatives, so the value is 1 (18446744073709551609 is odd). *)
Lemma C6_integer_binop_witness :
  let e := Binop (Integer (-7) CreateInt64) MOD (Integer 2 CreateInt64) CreateInt64 in
  let s' := state_of (visit bpftrace_example e state_in_entry) in
  wf state_in_entry
  /\ visit bpftrace_example e state_in_entry = Ok (tt, s')
  /\ block_instrs (module_ (b_ s')) 0 0
     = [BinaryOp 0 URem (ConstantInt 64 18446744073709551609) (ConstantInt 64 2)]
  /\ exists m' v,
       exec_list (block_instrs (module_ (b_ s')) 0 0) (machine_init [] (fun _ => 0)) = Some m'
       /\ expr_ s' = Some v
       /\ eval m' v = Some (RInt 64 1).
Proof.
  intros e s'.
  assert (Hwf : wf state_in_entry) by (split; vm_compute; lia).
  assert (H : visit bpftrace_example e state_in_entry = Ok (tt, s'))
    by (vm_compute; reflexivity).
  split; [exact Hwf|]. split; [exact H|]. split; [vm_compute; reflexivity|].
  destruct (C6_integer_binop bpftrace_example (Integer (-7) CreateInt64) MOD
              (Integer 2 CreateInt64) CreateInt64 state_in_entry s'
              Hwf eq_refl eq_refl eq_refl eq_refl H)
    as (dl & sl & lhs & dr & sr & rhs & Hl & Hel & Hr & Her & HB & _ & Hv & Hrun).
  vm_compute in Hl. injection Hl as <- <-.
  vm_compute in Hel. injection Hel as <-.
  vm_compute in Hr. injection Hr as <- <-.
  vm_compute in Her. injection Her as <-.
  destruct (Hrun (machine_init [] (fun _ => 0)) 64 18446744073709551609 64 2 1
              eq_refl eq_refl I eq_refl eq_refl I eq_refl) as (m' & Hx & He & _).
  exists m'. eexists. split; [|split; [exact Hv|exact He]].
  change (cur_fn _) with O in HB. change (cur_bb _) with O in HB.
  rewrite HB. exact Hx.
Defined.


(** * Lifetimes of stack cells *)





Lemma positions_app l k a b :
  positions l k (a + b) = positions l k a ++ positions l (k + a) b.
Proof.
  revert k. induction a as [|a IH]; intros k; cbn [Nat.add positions app].
  - rewrite Nat.add_0_r. reflexivity.
  - rewrite IH. replace (k + S a)%nat with (S k + a)%nat by lia. reflexivity.
Qed.




Section Lifetimes.
Variable bpftrace_ : BPFtrace.






End Lifetimes.




(** * Lowerings only append *)



Section Appends.
Variable bpftrace_ : BPFtrace.



(** ** The builtins [pid] and [tid] *)

(** [pid] and [tid]: one call of [get_current_pid_tgid] and the upper, or
    the lower, 32 bits of its result. *)
Definition pid_tid_code (id : nat) (pid : bool) : list Instr :=
  [CallHelper id get_pid_tgid;
   if pid then BinaryOp (S id) LShr (Inst id (TInt 64)) (getInt64 32)
   else BinaryOp (S id) And (Inst id (TInt 64)) (getInt64 4294967295)].

(** The lowering of [pid] and of [tid] emits this code and yields its
    second register; on every machine the code runs, leaves in that register
    the helper's result shifted right by 32 bits, for [pid], or its lower
    32 bits, for [tid], and does nothing to the maps. *)
Theorem builtin_pid_tid (pid : bool) ty s :
  let id := next_value (b_ s) in
  let v := Inst (S id) (TInt 64) in
  visit bpftrace_ (Builtin (if pid then "pid" else "tid") ty) s
  = Ok (tt, with_expr (Some v) (emits (pid_tid_code id pid) (S (S id)) s))
  /\ forall m,
       let h := helper_result m id mod 2 ^ 64 in
       exists m',
         exec_list (pid_tid_code id pid) m = Some m'
         /\ eval m' v = Some (RInt 64 (if pid then h / 2 ^ 32 else h mod 2 ^ 32))
         /\ effects m' = effects m.
Proof.
  cbv zeta. split.
  - destruct s as [[m [f l] nv] e d vs ids npi pf ts ul cx lp cap].
    destruct pid; reflexivity.
  - intros m. destruct pid; unfold pid_tid_code; machine_go;
      (eexists; split; [reflexivity|]); machine_go; (split; [|reflexivity]).
    + reflexivity.
    + do 2 f_equal. change (4294967295 mod 2 ^ 64) with (Z.ones 32).
      rewrite Z.land_ones by lia. reflexivity.
Qed.
End Appends.



Lemma min_update_witness :
  let s' := state_of (visit bpftrace_example (min_call 5) state_in_entry) in
  let m := set_reg 1 (RInt 64 0) (machine_init [] (fun _ => 0)) in
  wf state_in_entry
  /\ visit bpftrace_example (min_call 5) state_in_entry = Ok (tt, s')
  /\ exists p m' kv,
       run (length p) (block_instrs (module_ (b_ s')) 0) (0, 4)%nat m = (p, Running (1, 0)%nat m')
       /\ effects m' = [EffMapUpdate "@" kv (Some (RInt 64 4294967290))].
Proof.
  intros s' m.
  assert (Hwf : wf state_in_entry) by (split; vm_compute; lia).
  assert (H : visit bpftrace_example (min_call 5) state_in_entry = Ok (tt, s'))
    by (vm_compute; reflexivity).
  split; [exact Hwf|]. split; [exact H|].
  destruct (min_update_iff_sge bpftrace_example (mkMap "@" None CreateUInt64)
              (Integer 5 CreateInt64) [] no_type state_in_entry s' Hwf eq_refl H)
    as (key & sk & s0 & d & sa & e & Hk & HM0 & HI0 & Ha & He & Hrun).
  vm_compute in Hk. injection Hk as <- <-.
  destruct s0 as [[m0 [f0 l0] nv0] e0 d0 vs0 ids0 npi0 pf0 ts0 ul0 cx0 lp0 cap0].
  vm_compute in HM0. vm_compute in HI0. injection HI0 as -> ->. subst m0.
  vm_compute in Ha. injection Ha as <- <-.
  vm_compute in He. injection He as <-.
  destruct (Hrun m 64 5 0 eq_refl eq_refl) as (p & m' & Hr & He).
  vm_compute in He. destruct He as [kv He].
  exists p, m', kv. split; [exact Hr|exact He].
Defined.

(** * The predicate of a probe *)

(** The code of [visit(Predicate&)] after the lowering of the expression
    [e]: the test in the current block [lc], the returning block [n]
    (pred_false) and the block [n + 1] (pred_true) in which the body
    starts. *)
Definition pred_test (n id : nat) (e : Value) : list Instr :=
  cast_code id e 64 false
  ++ [ICmp (cast_next id e 64) ICMP_EQ (cast_val id e 64) (getInt64 0) "predcond";
      CondBr (Inst (cast_next id e 64) (TInt 1)) n (n + 1)].
Definition pred_events (lc n id : nat) (e : Value) (d : ScopedExprDeleter) : list MEvent :=
  map (MInstr lc) (pred_test n id e)
  ++ [MInstr n (Ret (ConstantInt 64 0))]
  ++ map (MInstr (n + 1)%nat) (deleter_code d).

Section PredicateLowering.
Variable bpftrace_ : BPFtrace.

Lemma predicate_stages pred_expr s s' :
  wf s ->
  visit_Predicate bpftrace_ pred_expr s = Ok (tt, s') ->
  exists s0 d sa e,
    let f := cur_fn s in
    let n := nblocks s in
    module_ (b_ s0) = mrun f [MNew "pred_false"; MNew "pred_true"] (module_ (b_ s))
    /\ insert_block (b_ s0) = insert_block (b_ s)
    /\ accept (visit bpftrace_ pred_expr) s0 = Ok (d, sa)
    /\ expr_ sa = Some e
    /\ wf sa
    /\ cur_fn sa = f
    /\ (n + 2 <= nblocks sa)%nat
    /\ (cur_bb sa = cur_bb s \/ (n + 2 <= cur_bb sa)%nat)
    /\ block_instrs (module_ (b_ sa)) f n = []
    /\ block_instrs (module_ (b_ sa)) f (n + 1) = []
    /\ module_ (b_ s')
       = mrun f (pred_events (cur_bb sa) n (next_value (b_ sa)) e d) (module_ (b_ sa))
    /\ insert_block (b_ s') = (f, (n + 1)%nat).
Proof.
  intros Hwf H. unfold visit_Predicate in H.
  pose proof Hwf as [Hlen Hl0].
  destruct s as [[m [f l0] nv] e0 d0 vs ids npi pf ts ul cx lp cap].
  proj_cbn_in Hlen. proj_cbn_in Hl0. proj_cbn.
  do 3 mstep H.
  apply bind_inv in H. destruct H as (d & sa & Ha & H).
  match type of Ha with accept _ ?S = _ => set (s0 := S) in * end.
  assert (Hwf0 : wf s0).
  { split; unfold s0; proj_cbn.
    - rewrite !mnew_length. exact Hlen.
    - norm_num_blocks. lia. }
  destruct (accept_visit_post bpftrace_ _ (fun _ => False) _ _ _ Hwf0 Ha)
    as ((eva & HRa) & _ & _).
  destruct (Rev_spec _ _ _ _ Hwf0 HRa) as (_ & Na & Ba & _ & Hwfa).
  pose proof (rev_fn _ _ _ _ HRa) as Fa. unfold s0 in Fa. proj_cbn_in Fa.
  pose proof (rev_ok _ _ _ _ HRa) as Oka.
  assert (N0 : nblocks s0 = (num_blocks m f + 2)%nat).
  { unfold s0. proj_cbn. norm_num_blocks. lia. }
  assert (E1 : block_instrs (module_ (b_ sa)) f (num_blocks m f) = []).
  { change f with (cur_fn s0) at 1. rewrite Ba.
    rewrite (mcollect_outside _ _ _ _ _ _ Oka) by (unfold s0; proj_cbn; norm_num_blocks; lia).
    rewrite app_nil_r. unfold s0. proj_cbn.
    rewrite !mnew_blocks. apply block_instrs_ge. lia. }
  assert (E2 : block_instrs (module_ (b_ sa)) f (num_blocks m f + 1) = []).
  { change f with (cur_fn s0) at 1. rewrite Ba.
    rewrite (mcollect_outside _ _ _ _ _ _ Oka) by (unfold s0; proj_cbn; norm_num_blocks; lia).
    rewrite app_nil_r. unfold s0. proj_cbn.
    rewrite !mnew_blocks. apply block_instrs_ge. lia. }
  assert (N2 : (num_blocks m f + 2 <= nblocks sa)%nat) by lia.
  assert (BBa : cur_bb sa = l0 \/ (num_blocks m f + 2 <= cur_bb sa)%nat).
  { destruct (proj1 (rev_bb _ _ _ _ HRa)) as [Hb|Hb]; [left; exact Hb|right; lia]. }
  clear HRa Oka Ba Na.
  destruct sa as [[ma [fa la] nva] ea da vsa idsa npia pfa tsa ula cxa lpa capa].
  proj_cbn_in Fa. subst fa.
  pose proof Hwfa as [Hlena Hla]. proj_cbn_in Hlena. proj_cbn_in Hla.
  proj_cbn_in N2. proj_cbn_in E1. proj_cbn_in E2. proj_cbn_in BBa.
  destruct ea as [e|];
    [|apply bind_inv in H; destruct H as (? & ? & H1 & _); discriminate H1].
  destruct (decide (getType e = TInt 64)) as [Ht|Ht] eqn:Hdec.
  all: mstep H; unfold CreateIntCast in H; rewrite Hdec in H.
  all: destruct d as [vd|].
  all: repeat mstep H; prim H.
  all: match type of Ha with _ = Ok (?D, ?SA) => exists s0, D, SA, e end.
  all: proj_cbn;
       unfold pred_events, pred_test, cast_code, cast_val, cast_next, deleter_code;
       rewrite Hdec;
       cbn [mrun fold_left mrun_event map app].
  all: repeat lazymatch goal with |- _ /\ _ => split end.
  all: try reflexivity; try assumption; try lia.
  all: rewrite ?Nat.add_succ_r, ?Nat.add_0_r; reflexivity.
Qed.

Lemma pred_events_valid N lc n id e d :
  (lc < N)%nat -> (n + 2 <= N)%nat -> mvalid N (pred_events lc n id e d).
Proof.
  intros H1 H2. unfold pred_events. apply mvalid_app; [apply mvalid_map; lia|].
  rewrite mcount_map, Nat.add_0_r. cbn [app mvalid]. split; [lia|].
  apply mvalid_map. lia.
Qed.

(** The predicate guards the body: when the value of the predicate, read as
    64 bits without sign, is zero, the program returns 0 from the block
    pred_false and nothing has been done to the maps; otherwise control
    reaches the block pred_true, in which the temporary of the predicate is
    ended and the body starts. *)
Theorem predicate_guards_body pred_expr s s' :
  wf s ->
  visit_Predicate bpftrace_ pred_expr s = Ok (tt, s') ->
  exists s0 d sa e,
    let f := cur_fn s in
    let n := nblocks s in
    module_ (b_ s0) = mrun f [MNew "pred_false"; MNew "pred_true"] (module_ (b_ s))
    /\ insert_block (b_ s0) = insert_block (b_ s)
    /\ accept (visit bpftrace_ pred_expr) s0 = Ok (d, sa)
    /\ expr_ sa = Some e
    /\ insert_block (b_ s') = (f, (n + 1)%nat)
    /\ let lc := cur_bb sa in
       let k := length (block_instrs (module_ (b_ sa)) f lc) in
       let code := block_instrs (module_ (b_ s')) f in
       code n = [Ret (ConstantInt 64 0)]
       /\ code (n + 1)%nat = deleter_code d
       /\ forall m b x,
            eval m e = Some (RInt b x) ->
            let v := if decide (getType e = TInt 64) then x else eval_intcast b 64 x false in
            exists p m',
              effects m' = effects m
              /\ if v =? 0
                 then forall fuel, (length p <= fuel)%nat ->
                        run fuel code (lc, k) m = (p, Returned (RInt 64 0) m')
                 else run (length p) code (lc, k) m = (p, Running ((n + 1)%nat, O) m').
Proof.
  intros Hwf H.
  destruct (predicate_stages _ _ _ Hwf H)
    as (s0 & d & sa & e & HM0 & HI0 & Ha & He & Hwfa & Fa & N2 & BBa & E1 & E2 & HM & HI).
  exists s0, d, sa, e. cbv zeta.
  split; [exact HM0|]. split; [exact HI0|]. split; [exact Ha|]. split; [exact He|].
  split; [exact HI|].
  set (f := cur_fn s) in *. set (n := nblocks s) in *. set (lc := cur_bb sa).
  pose proof Hwfa as [Hlena Hla]. rewrite Fa in Hlena. fold lc in Hla.
  pose proof Hwf as [_ Hl0]. fold n in Hl0.
  assert (Hv : mvalid (num_blocks (module_ (b_ sa)) f)
                 (pred_events lc n (next_value (b_ sa)) e d)).
  { unfold nblocks in Hla, N2. rewrite Fa in Hla, N2. apply pred_events_valid; assumption. }
  destruct (mrun_spec f _ (module_ (b_ sa)) Hlena Hv) as (_ & _ & HB & _).
  fold lc in HM. rewrite <- HM in HB. clear HM Hv.
  assert (Hlc : lc <> n /\ lc <> (n + 1)%nat) by (fold lc in BBa; lia).
  set (pre := block_instrs (module_ (b_ sa)) f lc) in *.
  assert (Hc : block_instrs (module_ (b_ s')) f lc
               = pre ++ pred_test n (next_value (b_ sa)) e).
  { rewrite HB. fold pre. unfold pred_events.
    rewrite !mcollect_app, !mcollect_map_same, !mcollect_map_other by lia.
    cbn [mcollect app]. destruct (Nat.eqb_spec n lc) as [E|_]; [lia|].
    rewrite !app_nil_r. reflexivity. }
  assert (Hf : block_instrs (module_ (b_ s')) f n = [Ret (ConstantInt 64 0)]).
  { rewrite HB, E1. unfold pred_events.
    rewrite !mcollect_app, !mcollect_map_other by lia.
    cbn [mcollect app]. rewrite Nat.eqb_refl. reflexivity. }
  assert (Ht : block_instrs (module_ (b_ s')) f (n + 1) = deleter_code d).
  { rewrite HB, E2. unfold pred_events.
    rewrite !mcollect_app, !mcollect_map_other, mcollect_map_same by lia.
    cbn [mcollect app]. destruct (Nat.eqb_spec n (n + 1)) as [E|_]; [lia|]. reflexivity. }
  clear HB.
  split; [exact Hf|]. split; [exact Ht|].
  intros m b x Hev.
  unfold pred_test, cast_code, cast_val, cast_next in Hc.
  set (nva := next_value (b_ sa)) in *.
  set (code := block_instrs (module_ (b_ s')) f) in *.
  change (getInt64 0) with (ConstantInt 64 0) in Hc.
  destruct (decide (getType e = TInt 64)) as [Hty|Hty]; cbn [app] in Hc; cbv zeta.
  all: match goal with |- context [?v =? 0] => destruct (v =? 0) eqn:Hz end.
  all: eassert (Hrun : reaches code (lc, length pre) m _ _);
    [ match type of Hc with
      | _ = ?pre' ++ ?body =>
          split_body body ltac:(fun ins rest =>
            lazymatch rest with
            | CondBr ?c ?t ?f' :: ?rest' =>
                eapply (reaches_block_condbr _ _ _ _ pre' ins c t f' rest' _ _ _ _ _ Hc)
            end)
      end;
      [ reflexivity | reflexivity
      | repeat (progress (machine_cbn; upd_simpl; rewrite ?Hev)); reflexivity
      | repeat (progress (machine_cbn; upd_simpl; rewrite ?Hev)); reflexivity
      | cbn [eval_icmp]; rewrite Hz; cbn [Z.eqb];
        first [ go_block Hf | apply reaches_here ] ]
    | ].
  all: refine (ex_intro _ _ (ex_intro _ _ (conj _ (reaches_run _ _ _ _ _ Hrun)))).
  all: machine_go; reflexivity.
Qed.
End PredicateLowering.

Lemma predicate_guards_witness :
  let s' := state_of (visit_Predicate bpftrace_example (Integer 0 CreateInt64) state_in_entry) in
  let code := block_instrs (module_ (b_ s')) 0 in
  wf state_in_entry
  /\ visit_Predicate bpftrace_example (Integer 0 CreateInt64) state_in_entry = Ok (tt, s')
  /\ exists p m',
       effects m' = []
       /\ run (length p) code (0, 0)%nat (machine_init [] (fun _ => 0))
          = (p, Returned (RInt 64 0) m').
Proof.
  intros s' code.
  assert (Hwf : wf state_in_entry) by (split; vm_compute; lia).
  assert (H : visit_Predicate bpftrace_example (Integer 0 CreateInt64) state_in_entry
              = Ok (tt, s')) by (vm_compute; reflexivity).
  split; [exact Hwf|]. split; [exact H|].
  destruct (predicate_guards_body bpftrace_example _ _ _ Hwf H)
    as (s0 & d & sa & e & HM0 & HI0 & Ha & He & _ & _ & _ & Hrun).
  destruct s0 as [[m0 [f0 l0] nv0] e0 d0 vs0 ids0 npi0 pf0 ts0 ul0 cx0 lp0 cap0].
  vm_compute in HM0. vm_compute in HI0. injection HI0 as -> ->. subst m0.
  vm_compute in Ha. injection Ha as <- <-.
  vm_compute in He. injection He as <-.
  destruct (Hrun (machine_init [] (fun _ => 0)) 64 0 eq_refl) as (p & m' & Hef & Hr).
  exists p, m'. split; [exact Hef|].
  exact (Hr (length p) (le_n _)).
Defined.
